(** * yt-analyze: the analysis pipeline of [src/app/page.tsx]

    A shallow embedding of the route handler that sits behind the page
    (the second document of [src/app/page.tsx]: [parseChannelInput],
    [resolveChannel], [listPlaylistVideos], [getVideosDetails],
    [iso8601DurationToSeconds], [cleanTitle], [extractNgrams],
    [classifyHook], [computeVelocity] and [POST]) together with the
    properties its specification states about it.  Further parts embed
    the page itself (formatting, export, the request it sends, its table)
    and the first route, [src/app/api/analyze/route.js], with properties
    read off their code.

    Conventions.
    - A JavaScript string is the list of its UTF-16 code units ([str]).
    - Integers that the handler keeps in JavaScript numbers are in [Z];
      the only quantity that is not an integer computation, the velocity
      score, is computed over [R] through an abstract rounding operator.
    - Time is a number of milliseconds since the epoch, in [Z]. *)

From Stdlib Require Import List ZArith NArith Bool Lia String Ascii.
From Stdlib Require Import Reals Lra.
From Stdlib Require Import Sorted Permutation.
Import ListNotations.

(* ================================================================= *)
(** ** JavaScript strings *)
(* ================================================================= *)

Module JS.

(** A string is a sequence of UTF-16 code units. *)
Definition str := list N.

(** *** Literals

    String literals of the source are written as Rocq strings, which hold
    the UTF-8 bytes of the text; [lit] decodes them to UTF-16. *)

Fixpoint utf8_points (pending : nat) (acc : N) (bs : list N) : list N :=
  match bs with
  | [] => []
  | b :: bs' =>
      match pending with
      | O =>
          if (b <? 128)%N then b :: utf8_points 0 0 bs'
          else if (b <? 224)%N then utf8_points 1 (b - 192) bs'
          else if (b <? 240)%N then utf8_points 2 (b - 224) bs'
          else utf8_points 3 (b - 240) bs'
      | S O => (acc * 64 + (b - 128))%N :: utf8_points 0 0 bs'
      | S p => utf8_points p (acc * 64 + (b - 128))%N bs'
      end
  end.

Definition utf16_units (cp : N) : list N :=
  if (cp <? 65536)%N then [cp]
  else [(55296 + (cp - 65536) / 1024)%N; (56320 + (cp - 65536) mod 1024)%N].

Definition lit (s : string) : str :=
  flat_map utf16_units
    (utf8_points 0 0 (map N_of_ascii (list_ascii_of_string s))).

(** A one-character literal as a code unit. *)
Definition chr (s : string) : N := hd 0%N (lit s).

(** *** Equality, [startsWith], [includes] *)

Fixpoint str_eqb (a b : str) : bool :=
  match a, b with
  | [], [] => true
  | x :: a', y :: b' => (x =? y)%N && str_eqb a' b'
  | _, _ => false
  end.

Fixpoint startsWith (s p : str) {struct p} : bool :=
  match p, s with
  | [], _ => true
  | y :: p', x :: s' => (x =? y)%N && startsWith s' p'
  | _ :: _, [] => false
  end.

(** [s.includes(k)]: [k] occurs in [s] as a run of consecutive code units. *)
Fixpoint includes (s k : str) : bool :=
  startsWith s k ||
  match s with
  | [] => false
  | _ :: s' => includes s' k
  end.

(** *** [split] and [join] on a one-unit separator *)

Fixpoint split (sep : N) (s : str) : list str :=
  match s with
  | [] => [[]]
  | c :: s' =>
      if (c =? sep)%N then [] :: split sep s'
      else match split sep s' with
           | [] => [[c]]
           | w :: ws => (c :: w) :: ws
           end
  end.

Fixpoint join (sep : N) (ws : list str) : str :=
  match ws with
  | [] => []
  | [w] => w
  | w :: ws' => w ++ sep :: join sep ws'
  end.

(** [.filter(Boolean)] on an array of strings keeps the non-empty ones. *)
Definition truthy (s : str) : bool :=
  match s with [] => false | _ :: _ => true end.

(** *** Character classes *)

(** [\d] of a JavaScript regular expression: the ASCII digits. *)
Definition isDigit (c : N) : bool := ((48 <=? c) && (c <=? 57))%N.

(** [\s], which is also the set [trim] removes: WhiteSpace and
    LineTerminator of ECMAScript. *)
Definition isSpace (c : N) : bool :=
  ((9 <=? c) && (c <=? 13) || (c =? 32) || (c =? 160) || (c =? 5760)
   || (8192 <=? c) && (c <=? 8202) || (c =? 8232) || (c =? 8233)
   || (c =? 8239) || (c =? 8287) || (c =? 12288) || (c =? 65279))%N.

(** The longest prefix whose units satisfy [p], and what follows it. *)
Fixpoint span (p : N -> bool) (s : str) : str * str :=
  match s with
  | [] => ([], [])
  | c :: s' =>
      if p c then let (a, b) := span p s' in (c :: a, b) else ([], s)
  end.

Fixpoint dropWhile (p : N -> bool) (s : str) : str :=
  match s with
  | [] => []
  | c :: s' => if p c then dropWhile p s' else s
  end.

Definition trim (s : str) : str :=
  rev (dropWhile isSpace (rev (dropWhile isSpace s))).

(** [parseInt(ds, 10)] on a run of ASCII digits. *)
Fixpoint digitsValue (acc : Z) (ds : str) : Z :=
  match ds with
  | [] => acc
  | d :: ds' => digitsValue (acc * 10 + Z.of_N (d - 48)) ds'
  end.

Definition parseInt10 (ds : str) : Z := digitsValue 0 ds.

(** [s.length] *)
Definition strlen (s : str) : Z := Z.of_nat (List.length s).

End JS.

Import JS.

Local Open Scope Z_scope.

(* ================================================================= *)
(** ** Duration normalizer *)
(* ================================================================= *)

(** The text that follows the leftmost occurrence of ["PT"]: where the
    unanchored pattern [/PT(?:(\d+)H)?(?:(\d+)M)?(?:(\d+)S)?/] starts to
    read its optional groups.  Every group is optional, so the pattern
    matches at the leftmost ["PT"] and nowhere earlier. *)
Fixpoint afterPT (s : str) : option str :=
  match s with
  | c1 :: ((c2 :: r) as t) =>
      if ((c1 =? chr "P") && (c2 =? chr "T"))%N then Some r else afterPT t
  | _ => None
  end.

(** One optional group [(?:(\d+)X)?]: the greedy digit run is captured when
    it is not empty and the unit after it is [X]; a shorter run is followed
    by a digit, so backtracking cannot make the group match otherwise. *)
Definition optGroup (X : N) (s : str) : option str * str :=
  let (ds, rest) := span isDigit s in
  match ds, rest with
  | _ :: _, c :: rest' => if (c =? X)%N then (Some ds, rest') else (None, s)
  | _, _ => (None, s)
  end.

(** [parseInt(m[i] || "0", 10)] *)
Definition groupValue (g : option str) : Z :=
  match g with
  | Some ds => parseInt10 ds
  | None => parseInt10 (lit "0")
  end.

(** [iso8601DurationToSeconds(d)].  [String(d || "")] is the identity on
    strings. *)
Definition iso8601DurationToSeconds (d : str) : Z :=
  match afterPT d with
  | None => 0
  | Some r =>
      let (h, r1) := optGroup (chr "H") r in
      let (mi, r2) := optGroup (chr "M") r1 in
      let (s, _) := optGroup (chr "S") r2 in
      groupValue h * 3600 + groupValue mi * 60 + groupValue s
  end.

(** *** Durations of the form [PT[nH][nM][nS]] *)

(** The decimal numeral of [n]; [fuel] bounds the number of its digits. *)
Fixpoint decimalFuel (fuel : nat) (n : N) : str :=
  match fuel with
  | O => [(48 + n)%N]
  | S fuel' =>
      if (n <? 10)%N then [(48 + n)%N]
      else decimalFuel fuel' (n / 10) ++ [(48 + n mod 10)%N]
  end.

Definition decimal (n : N) : str := decimalFuel (N.to_nat (N.size n)) n.




(** [s] contains [k]: the relation that [includes] decides. *)
Definition occursIn (k s : str) : Prop :=
  exists pre post, s = pre ++ k ++ post.





(* ================================================================= *)
(** ** The cache of the lru-cache package *)
(* ================================================================= *)

(** [new LRUCache({ max, ttl })] as the handler uses it: [get] and [set]
    with the default options.  The entries are kept in order of use, the
    most recently used first; each one remembers when it was set. *)
Module LRUCache.

Section Cache.

Variables K V : Type.
Variable keqb : K -> K -> bool.
Variables (max : nat) (ttl : Z).

Record Entry := { e_key : K; e_value : V; e_start : Z }.

Definition t := list Entry.

(** The entry stored under a key, if there is one. *)
Fixpoint peek (k : K) (c : t) : option Entry :=
  match c with
  | [] => None
  | e :: c' => if keqb (e_key e) k then Some e else peek k c'
  end.

Definition remove (k : K) (c : t) : t :=
  filter (fun e => negb (keqb (e_key e) k)) c.

(** An entry is stale once more than [ttl] has passed since it was set. *)
Definition isStale (now : Z) (e : Entry) : bool := ttl <? now - e_start e.

(** [cache.get(k)]: a stale entry is deleted and [undefined] is returned;
    a fresh one becomes the most recently used ([updateAgeOnGet] is off,
    so its age is unchanged). *)
Definition get (now : Z) (k : K) (c : t) : option V * t :=
  match peek k c with
  | None => (None, c)
  | Some e =>
      if isStale now e then (None, remove k c)
      else (Some (e_value e), e :: remove k c)
  end.

(** [cache.set(k, v)]: an existing entry is replaced; a new one evicts the
    least recently used entry when the cache is full. *)
Definition set (now : Z) (k : K) (v : V) (c : t) : t :=
  let e := {| e_key := k; e_value := v; e_start := now |} in
  match peek k c with
  | Some _ => e :: remove k c
  | None => e :: (if (max <=? List.length c)%nat then removelast c else c)
  end.

End Cache.

Arguments e_key {K V} _.
Arguments e_value {K V} _.
Arguments e_start {K V} _.
Arguments peek {K V} keqb k c.
Arguments remove {K V} keqb k c.
Arguments isStale {K V} ttl now e.
Arguments get {K V} keqb ttl now k c.
Arguments set {K V} keqb max now k v c.

End LRUCache.

(* ================================================================= *)
(** ** Generic helpers: stable sort, frequency maps *)
(* ================================================================= *)

(** [Array.prototype.sort(cmp)] is stable: an element moves behind another
    one only if the comparator says so ([cmp a b > 0]: [a] after [b]). *)
Fixpoint insertBy {A} (cmp : A -> A -> Z) (x : A) (l : list A) : list A :=
  match l with
  | [] => [x]
  | y :: l' => if 0 <? cmp x y then y :: insertBy cmp x l' else x :: l
  end.

Definition sortBy {A} (cmp : A -> A -> Z) (l : list A) : list A :=
  fold_right (insertBy cmp) [] l.

(** A [Map] from strings to counters, in insertion order (the order in
    which [entries()] lists it).  [bump k m] is
    [m.set(k, (m.get(k) || 0) + 1)]: a key that is present keeps its
    place. *)
Definition Freq := list (str * Z).

Fixpoint bump (k : str) (m : Freq) : Freq :=
  match m with
  | [] => [(k, 0 + 1)]
  | (k', c) :: m' =>
      if str_eqb k' k then (k', c + 1) :: m' else (k', c) :: bump k m'
  end.

(** The comparator [(a, b) => b[1] - a[1]]. *)
Definition byCountDesc (a b : str * Z) : Z := snd b - snd a.

(** [Math.round(a / b)] for an integer [a] and a positive integer [b]:
    the nearest integer, halves going up.  The quotient is a double in the
    source; for [|a| < 2^52] its rounding cannot cross a half-integer, so
    the result is the exact one. *)
Definition roundDiv (a b : Z) : Z := (2 * a + b) / (2 * b).

(** The separator of tokens, U+0020. *)
Definition space : N := chr " ".


(** [t || ""] *)
Definition orEmpty (t : option str) : str :=
  match t with Some s => s | None => [] end.

(* ================================================================= *)
(** ** The data model *)
(* ================================================================= *)

(** A [PatternEntry]. *)
Record Pattern := { phrase : str; count : Z }.

(** A rule of the hook classifier. *)
Record Rule := { k : str; tag : str }.

(* ----------------------------------------------------------------- *)
(** *** Channel references *)

(** The [type] of a parsed input: ["id"] or ["forHandle"]. *)
Inductive RefType := TypeId | TypeForHandle.

Record ChannelRef := { ref_type : RefType; ref_value : str }.

Definition asciiLower (c : N) : N :=
  if ((65 <=? c) && (c <=? 90))%N then (c + 32)%N else c.

(** [[a-zA-Z0-9_-]] *)
Definition isIdChar (c : N) : bool :=
  let l := asciiLower c in
  ((97 <=? l) && (l <=? 122) || isDigit c || (c =? chr "_") || (c =? chr "-"))%N.

(** [s.match(/(UC[a-zA-Z0-9_-]{20,})/)]: the leftmost position at which
    ["UC"] is followed by at least twenty units of the class; the greedy
    quantifier takes the whole run. *)
Fixpoint matchChannelId (s : str) : option str :=
  match s with
  | [] => None
  | _ :: s' =>
      let run := fst (span isIdChar (skipn 2 s)) in
      if startsWith s (lit "UC") && (20 <=? strlen run)
      then Some (lit "UC" ++ run)
      else matchChannelId s'
  end.

(** [[^/?]] *)
Definition isHandleChar (c : N) : bool :=
  negb ((c =? chr "/") || (c =? chr "?"))%N.

(** [s.match(/youtube\.com\/@([^/?]+)/i)]; without the [u] flag the [i]
    flag folds the case of ASCII letters only. *)
Fixpoint matchHandleUrl (s : str) : option str :=
  match s with
  | [] => None
  | _ :: s' =>
      let p := lit "youtube.com/@" in
      let run := fst (span isHandleChar (skipn (List.length p) s)) in
      if startsWith (map asciiLower (firstn (List.length p) s)) p && truthy run
      then Some run
      else matchHandleUrl s'
  end.

Definition parseChannelInput (input : str) : ChannelRef :=
  let s := trim input in
  match matchChannelId s with
  | Some m1 => {| ref_type := TypeId; ref_value := m1 |}
  | None =>
      match matchHandleUrl s with
      | Some m2 => {| ref_type := TypeForHandle; ref_value := lit "@" ++ m2 |}
      | None =>
          if startsWith s (lit "@")
          then {| ref_type := TypeForHandle; ref_value := s |}
          else {| ref_type := TypeForHandle; ref_value := s |}
      end
  end.

(* ----------------------------------------------------------------- *)
(** *** Request bodies *)

(** The JSON body of a request whose fields have the expected types; an
    absent [days] or [maxVideos] is [None]. *)
Record Body := {
  inputs : list str;
  days : option Z;
  maxVideos : option Z
}.

(** What [BodySchema.parse] returns. *)
Record Parsed := {
  p_inputs : list str;
  p_days : Z;
  p_maxVideos : Z
}.

Definition withDefault (d : Z) (x : option Z) : Z :=
  match x with Some v => v | None => d end.

Definition BodySchema_parse (b : Body) : option Parsed :=
  let d := withDefault 60 (days b) in
  let mv := withDefault 80 (maxVideos b) in
  if forallb (fun s => 1 <=? strlen s) (inputs b)
     && (1 <=? Z.of_nat (List.length (inputs b)))
     && (Z.of_nat (List.length (inputs b)) <=? 10)
     && (7 <=? d) && (d <=? 365) && (10 <=? mv) && (mv <=? 200)
  then Some {| p_inputs := inputs b; p_days := d; p_maxVideos := mv |}
  else None.

(* ----------------------------------------------------------------- *)
(** *** Records of the data model *)

(** What [resolveChannel] returns. *)
Record Channel := {
  channelId : str;
  title : option str;
  uploadsPlaylistId : option str;
  subscribers : Z;
  totalViews : Z;
  videoCount : Z
}.

(** A [VideoRecord]. *)
Record Row := {
  r_channelId : str;
  r_channelTitle : option str;
  r_videoId : str;
  r_title : option str;
  r_publishedAt : option str;
  r_durationSec : Z;
  r_views : Z;
  r_likes : Z;
  r_comments : Z;
  r_ageDays : Z;
  r_viewsPerDay : Z;
  r_velocity : Z;
  r_hookTag : str;
  r_url : str
}.

(** The value stored in the cache for one channel request. *)
Record Bundle := {
  b_ch : Channel;
  b_rows : list Row;
  b_patterns : list Pattern;
  b_topByVelocity : list Row;
  b_topByVpd : list Row
}.

Record HookMix := { hm_tag : str; hm_count : Z }.

Record ChannelSummary := {
  s_channelId : str;
  s_channelTitle : str;
  s_videosInWindow : Z;
  s_avgDurationSec : Z;
  s_avgViewsPerDay : Z;
  s_avgVelocity : Z;
  s_hookMix : list HookMix
}.

Record V2Response := {
  res_days : Z;
  res_maxVideos : Z;
  res_channels : list Channel;
  res_channelSummary : list ChannelSummary;
  res_globalTopByVelocity : list Row;
  res_globalTopByViewsPerDay : list Row;
  res_globalPatterns : list Pattern;
  res_rows : list Row
}.

(** [Response.json(payload, { status })] *)
Inductive Response :=
| ErrorResponse (status : Z) (error : str)
| OkResponse (payload : V2Response).

(* ----------------------------------------------------------------- *)
(** *** The upstream provider *)

(** One item of the provider's answers, with the fields the handler
    reads.  A counter that is absent is [None]. *)
Record ChannelItem := {
  ci_id : str;
  ci_title : option str;
  ci_uploads : option str;
  ci_subscriberCount : option Z;
  ci_viewCount : option Z;
  ci_videoCount : option Z
}.

Record PlaylistPage := {
  pp_items : list (option str);      (* [contentDetails.videoId] of each item *)
  pp_nextPageToken : option str
}.

Record VideoItem := {
  v_id : str;
  v_title : option str;
  v_publishedAt : option str;
  v_viewCount : option Z;
  v_likeCount : option Z;
  v_commentCount : option Z;
  v_duration : option str
}.

(** The provider as [ytGET] sees it during one request: each call either
    fails with the message of the error that [ytGET] throws ([inl]) or
    returns the items of the answer ([inr]). *)
Record Upstream := {
  up_channels : ChannelRef -> str + list ChannelItem;
  up_playlistItems : str -> Z -> option str -> str + PlaylistPage;
  up_videos : list str -> str + list VideoItem
}.

(** What a request finds around it: the clock, the provider, the
    environment variable [YT_API_KEY]. *)
Record Env := {
  now : Z;
  upstream : Upstream;
  YT_API_KEY : option str
}.

(* ----------------------------------------------------------------- *)
(** *** State, exceptions and the calls to the provider *)

(** The key [JSON.stringify({ parsed, days, maxVideos })]: the
    serialization is one-to-one on these values, so the key is the triple
    itself. *)
Definition Key := (ChannelRef * Z * Z)%type.

Definition refType_eqb (a b : RefType) : bool :=
  match a, b with
  | TypeId, TypeId | TypeForHandle, TypeForHandle => true
  | _, _ => false
  end.

Definition key_eqb (a b : Key) : bool :=
  let '(ra, da, ma) := a in
  let '(rb, db, mb) := b in
  refType_eqb (ref_type ra) (ref_type rb)
  && str_eqb (ref_value ra) (ref_value rb) && (da =? db) && (ma =? mb).

Definition cacheKey (parsed : ChannelRef) (body : Parsed) : Key :=
  (parsed, p_days body, p_maxVideos body).

Definition cache_max : nat := 500.
Definition cache_ttl : Z := 1000 * 60 * 60 * 6.

Definition Cache := LRUCache.t Key Bundle.

(** The module-level [cache], and the number of requests sent to the
    provider so far. *)
Record State := { cache : Cache; calls : nat }.

(** How a computation ends: with a value, with a thrown error (its
    message), or not at all ([Diverge]: the bound on the number of steps
    of a loop was reached). *)
Inductive outcome (A : Type) :=
| Ret (a : A)
| Throw (message : str)
| Diverge.
Arguments Ret {A} a.
Arguments Throw {A} message.
Arguments Diverge {A}.

Definition M (A : Type) := State -> outcome A * State.

Definition ret {A} (a : A) : M A := fun s => (Ret a, s).
Definition throw {A} (message : str) : M A := fun s => (Throw message, s).
Definition diverge {A} : M A := fun s => (Diverge, s).

Definition bind {A B} (m : M A) (f : A -> M B) : M B :=
  fun s =>
    match m s with
    | (Ret a, s') => f a s'
    | (Throw e, s') => (Throw e, s')
    | (Diverge, s') => (Diverge, s')
    end.

Notation "x <- m ;; f" := (bind m (fun x => f))
  (at level 61, m at next level, right associativity).

(** [await ytGET(path, params, apiKey)]: one request to the provider. *)
Definition ytGET {A} (answer : str + A) : M A :=
  fun s =>
    let s' := {| cache := cache s; calls := S (calls s) |} in
    match answer with
    | inl message => (Throw message, s')
    | inr a => (Ret a, s')
    end.

Definition cache_get (env : Env) (key : Key) : M (option Bundle) :=
  fun s =>
    let (v, c) := LRUCache.get key_eqb cache_ttl (now env) key (cache s) in
    (Ret v, {| cache := c; calls := calls s |}).

Definition cache_set (env : Env) (key : Key) (b : Bundle) : M unit :=
  fun s =>
    (Ret tt,
     {| cache := LRUCache.set key_eqb cache_max (now env) key b (cache s);
        calls := calls s |}).

(* ----------------------------------------------------------------- *)
(** *** Fetching *)

(** [Number(x || 0)] *)
Definition numberOr0 (x : option Z) : Z :=
  match x with Some n => n | None => 0 end.

(** A value interpolated in a template literal. *)
Definition interpolate (x : option str) : str :=
  match x with Some s => s | None => lit "undefined" end.

(** [!x] for an optional string *)
Definition falsy (x : option str) : bool :=
  match x with Some s => negb (truthy s) | None => true end.

Definition resolveChannel (env : Env) (parsed : ChannelRef) : M Channel :=
  items <- ytGET (up_channels (upstream env) parsed) ;;
  match items with
  | [] => throw (lit "Không tìm thấy channel: " ++ ref_value parsed)
  | ch :: _ =>
      ret {| channelId := ci_id ch;
             title := ci_title ch;
             uploadsPlaylistId := ci_uploads ch;
             subscribers := numberOr0 (ci_subscriberCount ch);
             totalViews := numberOr0 (ci_viewCount ch);
             videoCount := numberOr0 (ci_videoCount ch) |}
  end.

(** [if (vid) ids.push(vid)] over the items of a page *)
Definition pushVideoIds (ids : list str) (items : list (option str))
  : list str :=
  ids ++ flat_map (fun vid => if falsy vid then [] else [orEmpty vid]) items.

(** The [while] loop of [listPlaylistVideos]; [fuel] bounds the number of
    its iterations. *)
Fixpoint listPlaylistLoop (fuel : nat) (env : Env) (playlistId : str)
    (maxVideos : Z) (pageToken : option str) (ids : list str)
  : M (list str) :=
  if Z.of_nat (List.length ids) <? maxVideos then
    match fuel with
    | O => diverge
    | S fuel' =>
        res <- ytGET (up_playlistItems (upstream env) playlistId
                        (Z.min 50 (maxVideos - Z.of_nat (List.length ids)))
                        pageToken) ;;
        let ids' := pushVideoIds ids (pp_items res) in
        if falsy (pp_nextPageToken res)
           || (Z.of_nat (List.length (pp_items res)) =? 0)
        then ret ids'
        else listPlaylistLoop fuel' env playlistId maxVideos
               (pp_nextPageToken res) ids'
    end
  else ret ids.

Definition listPlaylistVideos (fuel : nat) (env : Env) (playlistId : str)
    (maxVideos : Z) : M (list str) :=
  listPlaylistLoop fuel env playlistId maxVideos None [].

(** The chunks [videoIds.slice(i, i + 50)] for [i = 0, 50, ...]; there are
    at most [length videoIds] of them. *)
Fixpoint chunks50 (n : nat) (videoIds : list str) : list (list str) :=
  match n, videoIds with
  | _, [] => []
  | O, _ => []
  | S n', _ => firstn 50 videoIds :: chunks50 n' (skipn 50 videoIds)
  end.

Fixpoint getChunks (env : Env) (cs : list (list str)) (out : list VideoItem)
  : M (list VideoItem) :=
  match cs with
  | [] => ret out
  | chunk :: cs' =>
      items <- ytGET (up_videos (upstream env) chunk) ;;
      getChunks env cs' (out ++ items)
  end.

Definition getVideosDetails (env : Env) (videoIds : list str)
  : M (list VideoItem) :=
  getChunks env (chunks50 (List.length videoIds) videoIds) [].

(* ================================================================= *)
(** ** The analysis pipeline *)
(* ================================================================= *)

(** What the handler takes from its platform rather than from its own
    code: the Unicode tables behind [toLowerCase] and [\p{L}\p{N}], the
    date parser of dayjs (milliseconds since the epoch, [None] for an
    invalid date), the arithmetic of doubles (the rounding [rnd] applied to
    the exact result of each operation), [Math.log10], and the message of
    the error that [BodySchema.parse] throws. *)
Class Platform := {
  toLowerCase : str -> str;
  isLetterOrNumber : N -> bool;
  parseDate : str -> option Z;
  rnd : R -> R;
  Math_log10 : R -> R;
  zodMessage : str
}.

Section Pipeline.

Context {P : Platform}.

(* ----------------------------------------------------------------- *)
(** *** Title cleaning *)

Definition isHighSurrogate (c : N) : bool :=
  ((55296 <=? c) && (c <=? 56319))%N.
Definition isLowSurrogate (c : N) : bool :=
  ((56320 <=? c) && (c <=? 57343))%N.
Definition codePoint (hi lo : N) : N :=
  (65536 + (hi - 55296) * 1024 + (lo - 56320))%N.

(** The class [[\p{L}\p{N}\s]] of a code point. *)
Definition isWordOrSpace (cp : N) : bool := isLetterOrNumber cp || isSpace cp.

(** [.replace(/[^\p{L}\p{N}\s]/gu, " ")]: with the [u] flag a surrogate
    pair is one character. *)
Fixpoint replaceNonWord (s : str) : str :=
  match s with
  | [] => []
  | c :: s' =>
      match s' with
      | d :: s'' =>
          if isHighSurrogate c && isLowSurrogate d then
            if isWordOrSpace (codePoint c d)
            then c :: d :: replaceNonWord s''
            else space :: replaceNonWord s''
          else
            (if isWordOrSpace c then c else space) :: replaceNonWord s'
      | [] => [if isWordOrSpace c then c else space]
      end
  end.

(** [.replace(/\s+/g, " ")]; [inRun] says that the unit before was
    white space too. *)
Fixpoint collapseSpaces (inRun : bool) (s : str) : str :=
  match s with
  | [] => []
  | c :: s' =>
      if isSpace c then
        if inRun then collapseSpaces true s'
        else space :: collapseSpaces true s'
      else c :: collapseSpaces false s'
  end.

Definition cleanTitle (t : option str) : str :=
  trim (collapseSpaces false (replaceNonWord (toLowerCase (orEmpty t)))).

(* ----------------------------------------------------------------- *)
(** *** Pattern miner *)

Definition stop : list str :=
  map lit
    ["review"; "tóm"; "tắt"; "phim"; "full"; "tập"; "ep"; "phần";
     "p1"; "p2"; "p3"; "p4"; "p5"; "mới"; "hay"; "nhất"; "và"; "là";
     "của"; "cho"; "một"; "những"; "đã"; "khi"; "thì"; "với"; "trong";
     "từ"; "đến"]%string.

(** [stop.has(x)] *)
Definition stop_has (x : str) : bool := existsb (str_eqb x) stop.

(** The array [w] of [extractNgrams]: the tokens of the cleaned title that
    have at least two code units and are not stopwords. *)
Definition tokens (raw : option str) : list str :=
  filter (fun x => (2 <=? strlen x) && negb (stop_has x))
    (filter truthy (split space (cleanTitle raw))).

(** [w.slice(i, i + n)] *)
Definition slice {A} (i n : nat) (w : list A) : list A :=
  firstn n (skipn i w).

(** The body of the inner loop, at position [i] for the length [n]. *)
Definition gramStep (w : list str) (n : nat) (freq : Freq) (i : nat) : Freq :=
  let gram := join space (slice i n w) in
  if existsb stop_has (split space gram) then freq else bump gram freq.

(** [for (let i = 0; i + n <= w.length; i++)] *)
Definition positions (w : list str) (n : nat) : list nat :=
  seq 0 (List.length w + 1 - n).

(** The body of the outer loop, for one title. *)
Definition gramsOfTitle (nMin nMax : nat) (freq : Freq) (raw : option str)
  : Freq :=
  let w := tokens raw in
  fold_left
    (fun f n => fold_left (gramStep w n) (positions w n) f)
    (seq nMin (nMax + 1 - nMin)) freq.

Definition ngramFreq (titles : list (option str)) (nMin nMax : nat) : Freq :=
  fold_left (gramsOfTitle nMin nMax) titles [].

Definition extractNgrams (titles : list (option str)) (nMin nMax : nat)
  : list Pattern :=
  map (fun e => {| phrase := fst e; count := snd e |})
    (firstn 50 (sortBy byCountDesc (ngramFreq titles nMin nMax))).

(** The defaults [nMin = 2, nMax = 4], which every call of the handler
    uses. *)
Definition extractNgrams_default (titles : list (option str)) : list Pattern :=
  extractNgrams titles 2 4.

(* ----------------------------------------------------------------- *)
(** *** Hook classifier *)

Definition rules : list Rule :=
  [ {| k := lit "phế vật";    tag := lit "Phế vật → nghịch thiên" |};
    {| k := lit "ruồng bỏ";   tag := lit "Bị ruồng bỏ → quay lại" |};
    {| k := lit "quỳ xuống";  tag := lit "Áp chế → quỳ xuống" |};
    {| k := lit "chấn động";  tag := lit "Đột phá → chấn động" |};
    {| k := lit "xuyên không"; tag := lit "Xuyên không" |};
    {| k := lit "hệ thống";   tag := lit "Hệ thống" |};
    {| k := lit "trùng sinh"; tag := lit "Trùng sinh" |} ].

(** [for (const r of rules) if (t.includes(r.k)) return r.tag;] *)
Fixpoint firstRule (t : str) (rs : list Rule) : option str :=
  match rs with
  | [] => None
  | r :: rs' => if includes t (k r) then Some (tag r) else firstRule t rs'
  end.

Definition classifyHook (title : str) : str :=
  let t := cleanTitle (Some title) in
  match firstRule t rules with
  | Some tg => tg
  | None => lit "Khác"
  end.

(* ----------------------------------------------------------------- *)
(** *** Metric calculator *)

(** Double arithmetic: the exact result, rounded. *)
Definition fdiv (x y : R) : R := rnd (x / y).
Definition fmul (x y : R) : R := rnd (x * y).
Definition fadd (x y : R) : R := rnd (x + y).

(** [Math.round]: the nearest integer, halves going up; exact. *)
Definition Math_round (x : R) : Z := Zfloor (x + / 2).

Definition computeVelocity (views likes ageDays : Z) : Z :=
  let vpd := fdiv (IZR views) (IZR (Z.max 1 ageDays)) in
  Math_round (fmul vpd (Math_log10 (fadd (IZR likes) 10))).

(* ----------------------------------------------------------------- *)
(** *** Occurrences of an n-gram, for the statements about the miner *)

Fixpoint gram_eqb (a b : list str) : bool :=
  match a, b with
  | [], [] => true
  | x :: a', y :: b' => str_eqb x y && gram_eqb a' b'
  | _, _ => false
  end.

(** The number of positions of the token sequence [w] at which the
    tokens of [g] stand one after the other. *)
Definition occurrencesIn (g w : list str) : nat :=
  List.length
    (filter (fun i => gram_eqb (slice i (List.length g) w) g)
       (positions w (List.length g))).

(** The same, summed over the token sequences of all the titles. *)
Definition occurrences (g : list str) (titles : list (option str)) : nat :=
  list_sum (map (fun raw => occurrencesIn g (tokens raw)) titles).

(** The counter stored under a key of a frequency map, 0 if absent. *)
Fixpoint countOf (key : str) (m : Freq) : Z :=
  match m with
  | [] => 0
  | (k', c) :: m' => if str_eqb k' key then c else countOf key m'
  end.

(** Every key of the frequency map passed the stopword check of
    [gramStep]. *)
Definition keysChecked (freq : Freq) : Prop :=
  forall e, In e freq -> existsb stop_has (split space (fst e)) = false.

(** The number of windows of length [n] of [w] whose phrase is [key]. *)
Definition gramCount (key : str) (w : list str) (n : nat) : nat :=
  List.length
    (filter (fun i => str_eqb (join space (slice i n w)) key) (positions w n)).

(** The tokens that windows are cut from carry no stopword and no
    space. *)
Definition cleanTokens (w : list str) : Prop :=
  forall x, In x w -> stop_has x = false /\ ~ In space x.

(** The tokens of the cleaned title, before any of them is dropped. *)
Definition cleanedTokens (raw : option str) : list str :=
  filter truthy (split space (cleanTitle raw)).

(* ----------------------------------------------------------------- *)
(** *** Video records *)

Definition dayMs : Z := 86400000.

(** [dayjs().subtract(days, "day")], for a server whose zone has no clock
    changes (UTC): the instant [days] times 24 hours before now. *)
Definition cutoffOf (env : Env) (days : Z) : Z := now env - days * dayMs.

(** [dayjs().diff(dayjs(publishedAt), "day")]: whole days, truncated
    toward zero.  [dayjs(undefined)] is the present instant.  For a date
    that does not parse the source computes NaN; the row is then dropped by
    the window filter, and the model puts 0 here. *)
Definition diffDays (env : Env) (publishedAt : option str) : Z :=
  match publishedAt with
  | None => 0
  | Some s =>
      match parseDate s with
      | Some p => Z.quot (now env - p) dayMs
      | None => 0
      end
  end.

(** [x || d] for an optional string *)
Definition orDefault (d : str) (x : option str) : str :=
  if falsy x then d else orEmpty x.

(** The callback of [.map] in [POST]. *)
Definition toRow (env : Env) (ch : Channel) (v : VideoItem) : Row :=
  let publishedAt := v_publishedAt v in
  let views := numberOr0 (v_viewCount v) in
  let likes := numberOr0 (v_likeCount v) in
  let comments := numberOr0 (v_commentCount v) in
  let durSec := iso8601DurationToSeconds (orDefault (lit "PT0S") (v_duration v)) in
  let ageDays := Z.max 1 (diffDays env publishedAt) in
  let viewsPerDay := roundDiv views ageDays in
  let velocity := computeVelocity views likes ageDays in
  {| r_channelId := channelId ch;
     r_channelTitle := title ch;
     r_videoId := v_id v;
     r_title := v_title v;
     r_publishedAt := publishedAt;
     r_durationSec := durSec;
     r_views := views;
     r_likes := likes;
     r_comments := comments;
     r_ageDays := ageDays;
     r_viewsPerDay := viewsPerDay;
     r_velocity := velocity;
     r_hookTag := classifyHook (orEmpty (v_title v));
     r_url := lit "https://www.youtube.com/watch?v=" ++ v_id v |}.

(** The callback of [.filter] in [POST]:
    [r.publishedAt && dayjs(r.publishedAt).isAfter(cutoff)]. *)
Definition inWindow (cutoff : Z) (r : Row) : bool :=
  match r_publishedAt r with
  | None => false
  | Some s =>
      truthy s &&
      match parseDate s with
      | Some p => cutoff <? p
      | None => false
      end
  end.

Definition byVelocityDesc (a b : Row) : Z := r_velocity b - r_velocity a.
Definition byViewsPerDayDesc (a b : Row) : Z := r_viewsPerDay b - r_viewsPerDay a.

(** The object [cached] that a cache miss builds from the provider's
    videos. *)
Definition buildBundle (env : Env) (cutoff : Z) (ch : Channel)
    (videos : list VideoItem) : Bundle :=
  let rows := filter (inWindow cutoff) (map (toRow env ch) videos) in
  {| b_ch := ch;
     b_rows := rows;
     b_patterns := extractNgrams_default (map r_title rows);
     b_topByVelocity := firstn 20 (sortBy byVelocityDesc rows);
     b_topByVpd := firstn 20 (sortBy byViewsPerDayDesc rows) |}.

(* ----------------------------------------------------------------- *)
(** *** The loop over the inputs *)

(** The body of [if (!cached) { ... }]. *)
Definition fetchBundle (fuel : nat) (env : Env) (body : Parsed) (cutoff : Z)
    (parsed : ChannelRef) : M Bundle :=
  ch <- resolveChannel env parsed ;;
  if falsy (uploadsPlaylistId ch) then
    throw (lit "Channel " ++ interpolate (title ch)
             ++ lit " không có uploads playlist")
  else
    ids <- listPlaylistVideos fuel env (orEmpty (uploadsPlaylistId ch))
             (p_maxVideos body) ;;
    videos <- getVideosDetails env ids ;;
    let cached := buildBundle env cutoff ch videos in
    _ <- cache_set env (cacheKey parsed body) cached ;;
    ret cached.

(** The bundle of one input: from the cache, or fetched and stored. *)
Definition bundleOf (fuel : nat) (env : Env) (body : Parsed) (cutoff : Z)
    (input : str) : M Bundle :=
  let parsed := parseChannelInput input in
  cached <- cache_get env (cacheKey parsed body) ;;
  match cached with
  | Some b => ret b
  | None => fetchBundle fuel env body cutoff parsed
  end.

(** One turn of [for (const input of body.inputs)]; the accumulator holds
    [channels] and [allRows]. *)
Definition processInput (fuel : nat) (env : Env) (body : Parsed) (cutoff : Z)
    (acc : list Channel * list Row) (input : str)
  : M (list Channel * list Row) :=
  cached <- bundleOf fuel env body cutoff input ;;
  ret (fst acc ++ [b_ch cached], snd acc ++ b_rows cached).

Fixpoint forEach {A B} (f : B -> A -> M B) (l : list A) (acc : B) : M B :=
  match l with
  | [] => ret acc
  | x :: l' => acc' <- f acc x ;; forEach f l' acc'
  end.

(* ----------------------------------------------------------------- *)
(** *** Aggregation *)

(** [arr = byChannel.get(id) || []; arr.push(r); byChannel.set(id, arr)]
    on a [Map] kept in insertion order. *)
Fixpoint groupPush (r : Row) (m : list (str * list Row))
  : list (str * list Row) :=
  match m with
  | [] => [(r_channelId r, [r])]
  | (c, arr) :: m' =>
      if str_eqb c (r_channelId r) then (c, arr ++ [r]) :: m'
      else (c, arr) :: groupPush r m'
  end.

Definition byChannel (allRows : list Row) : list (str * list Row) :=
  fold_left (fun m r => groupPush r m) allRows [].

(** [rows.reduce((s, r) => s + f(r), 0)] *)
Definition sumOf (f : Row -> Z) (rows : list Row) : Z :=
  fold_left (fun s r => s + f r) rows 0.

(** [Math.round(sum / Math.max(1, rows.length))] *)
Definition average (f : Row -> Z) (rows : list Row) : Z :=
  roundDiv (sumOf f rows) (Z.max 1 (Z.of_nat (List.length rows))).

(** The [Map] [hooks] of one channel. *)
Definition hooksOf (rows : list Row) : Freq :=
  fold_left (fun m r => bump (r_hookTag r) m) rows [].

Definition hookMixOf (rows : list Row) : list HookMix :=
  map (fun e => {| hm_tag := fst e; hm_count := snd e |})
    (firstn 8 (sortBy byCountDesc (hooksOf rows))).

(** The callback of [.map] over [byChannel.entries()]. *)
Definition summarize (entry : str * list Row) : ChannelSummary :=
  let (channelId, rows) := entry in
  let channelTitle :=
    match rows with
    | r :: _ => orDefault channelId (r_channelTitle r)
    | [] => channelId
    end in
  {| s_channelId := channelId;
     s_channelTitle := channelTitle;
     s_videosInWindow := Z.of_nat (List.length rows);
     s_avgDurationSec := average r_durationSec rows;
     s_avgViewsPerDay := average r_viewsPerDay rows;
     s_avgVelocity := average r_velocity rows;
     s_hookMix := hookMixOf rows |}.

Definition byAvgVelocityDesc (a b : ChannelSummary) : Z :=
  s_avgVelocity b - s_avgVelocity a.

Definition channelSummary (allRows : list Row) : list ChannelSummary :=
  sortBy byAvgVelocityDesc (map summarize (byChannel allRows)).

(* ----------------------------------------------------------------- *)
(** *** The handler *)

(** [BodySchema.parse(await req.json())] *)
Definition parseBody (raw : Body) : M Parsed :=
  match BodySchema_parse raw with
  | Some body => ret body
  | None => throw zodMessage
  end.

(** The payload built from [channels] and [allRows]. *)
Definition respond (body : Parsed) (acc : list Channel * list Row)
  : V2Response :=
  let (channels, allRows) := acc in
  {| res_days := p_days body;
     res_maxVideos := p_maxVideos body;
     res_channels := channels;
     res_channelSummary := channelSummary allRows;
     res_globalTopByVelocity := firstn 20 (sortBy byVelocityDesc allRows);
     res_globalTopByViewsPerDay := firstn 20 (sortBy byViewsPerDayDesc allRows);
     res_globalPatterns := extractNgrams_default (map r_title allRows);
     res_rows := allRows |}.

(** The [try] block of [POST], after the check of the API key. *)
Definition handle (fuel : nat) (env : Env) (raw : Body) : M V2Response :=
  body <- parseBody raw ;;
  let cutoff := cutoffOf env (p_days body) in
  acc <- forEach (processInput fuel env body cutoff) (p_inputs body) ([], []) ;;
  ret (respond body acc).

(** [e?.message || "Error"] *)
Definition messageOrError (message : str) : str :=
  if truthy message then message else lit "Error".

(** [POST(req)]: the response, if the handler answers at all, and the
    state it leaves. *)
Definition POST (fuel : nat) (env : Env) (raw : Body) (s : State)
  : option Response * State :=
  if falsy (YT_API_KEY env) then
    (Some (ErrorResponse 500 (lit "Thiếu YT_API_KEY trong .env.local")), s)
  else
    match handle fuel env raw s with
    | (Ret payload, s') => (Some (OkResponse payload), s')
    | (Throw e, s') => (Some (ErrorResponse 400 (messageOrError e)), s')
    | (Diverge, s') => (None, s')
    end.

(* ----------------------------------------------------------------- *)
(** *** Runs of the loop, and what the cache holds *)

(** The loop over the inputs ran to its end: from the state [s] it got
    the bundles [bs], one for each input and in their order, and left the
    state [s']. *)
Inductive runInputs (fuel : nat) (env : Env) (body : Parsed) (cutoff : Z)
  : list str -> State -> list Bundle -> State -> Prop :=
| run_nil : forall s, runInputs fuel env body cutoff [] s [] s
| run_cons : forall x l s b s1 bs s2,
    bundleOf fuel env body cutoff x s = (Ret b, s1) ->
    runInputs fuel env body cutoff l s1 bs s2 ->
    runInputs fuel env body cutoff (x :: l) s (b :: bs) s2.

(** The row has a date, and it is strictly after [cutoff]. *)
Definition publishedAfter (cutoff : Z) (r : Row) : Prop :=
  exists s p, r_publishedAt r = Some s /\ s <> []
              /\ parseDate s = Some p /\ cutoff < p.

Definition rowsAfter (cutoff : Z) (rows : list Row) : Prop :=
  forall r, In r rows -> publishedAfter cutoff r.

(** Every entry of the cache holds rows that were inside the window of
    its key at the time the entry was set. *)
Definition cacheWindowed (c : Cache) : Prop :=
  forall e, In e c ->
    rowsAfter (LRUCache.e_start e - snd (fst (LRUCache.e_key e)) * dayMs)
      (b_rows (LRUCache.e_value e)).

(** The entry stored under the key of an input, if any. *)
Definition entryOf (body : Parsed) (input : str) (s : State)
  : option (LRUCache.Entry Key Bundle) :=
  LRUCache.peek key_eqb (cacheKey (parseChannelInput input) body) (cache s).

(** An unexpired entry is stored under the key of the input. *)
Definition cached (env : Env) (body : Parsed) (s : State) (input : str)
    (b : Bundle) : Prop :=
  exists e, entryOf body input s = Some e
            /\ LRUCache.e_value e = b
            /\ now env - LRUCache.e_start e <= cache_ttl.

(** An expired entry is stored under the key of the input. *)
Definition expired (env : Env) (body : Parsed) (s : State) (input : str)
  : Prop :=
  exists e, entryOf body input s = Some e
            /\ cache_ttl < now env - LRUCache.e_start e.

(** A computation never lowers the count of requests to the provider. *)
Definition callsMono {A} (m : M A) : Prop :=
  forall s o s', m s = (o, s') -> (calls s <= calls s')%nat.

(** A computation leaves the cache as it found it. *)
Definition cacheStable {A} (m : M A) : Prop :=
  forall s o s', m s = (o, s') -> cache s' = cache s.

(** The rows of a response; none for an error response or no response. *)
Definition rowsOf (o : option Response) : list Row :=
  match o with
  | Some (OkResponse p) => res_rows p
  | _ => []
  end.

(** No unexpired entry is stored under the key of the input. *)
Definition uncached (env : Env) (body : Parsed) (s : State) (input : str)
  : Prop :=
  entryOf body input s = None \/ expired env body s input.

(** Under the key of the input there is no entry, an expired one, or one
    that was set at the present instant with rows inside the window. *)
Definition freshOrAbsent (env : Env) (body : Parsed) (s : State)
    (input : str) : Prop :=
  uncached env body s input
  \/ exists e, entryOf body input s = Some e
               /\ rowsAfter (cutoffOf env (p_days body))
                    (b_rows (LRUCache.e_value e)).

(** *** A provider without its undated videos *)

(** The video item has a [publishedAt]. *)
Definition dated (v : VideoItem) : bool :=
  match v_publishedAt v with Some _ => true | None => false end.

(** The same provider, with the video items that lack a [publishedAt]
    taken out of its answers. *)
Definition withoutUndated (up : Upstream) : Upstream := {|
  up_channels := up_channels up;
  up_playlistItems := up_playlistItems up;
  up_videos := fun ids =>
    match up_videos up ids with
    | inl e => inl e
    | inr vs => inr (filter dated vs)
    end
|}.

Definition envWithoutUndated (env : Env) : Env := {|
  now := now env;
  upstream := withoutUndated (upstream env);
  YT_API_KEY := YT_API_KEY env
|}.

(** *** Counting rows, for the statements about the summaries *)

(** The rows of the channel [c]. *)
Definition rowsOfChannel (c : str) (rows : list Row) : list Row :=
  filter (fun r => str_eqb (r_channelId r) c) rows.



(** The rows stored under a channel in the [Map] [byChannel]. *)
Fixpoint groupOf (c : str) (m : list (str * list Row)) : list Row :=
  match m with
  | [] => []
  | (c', g) :: m' => if str_eqb c' c then g else groupOf c m'
  end.


End Pipeline.

(* ================================================================= *)
(** ** A concrete platform, for running the handler on examples *)
(* ================================================================= *)

(** [toLowerCase] on text whose letters outside ASCII are lower case
    already. *)
Definition demoToLowerCase (s : str) : str := map asciiLower s.

(** [\p{L}\p{N}] restricted to Basic Latin, Latin-1 Supplement, Latin
    Extended-A and B and Latin Extended Additional. *)
Definition demoIsLetterOrNumber (c : N) : bool :=
  let l := asciiLower c in
  ((97 <=? l) && (l <=? 122) || isDigit c
   || (192 <=? c) && (c <=? 591) && negb (c =? 215) && negb (c =? 247)
   || (7680 <=? c) && (c <=? 7935))%N.

(** Days from 1970-01-01 to the given date of the Gregorian calendar. *)
Definition daysFromCivil (y m d : Z) : Z :=
  let y' := if m <=? 2 then y - 1 else y in
  let era := y' / 400 in
  let yoe := y' - era * 400 in
  let doy := (153 * (m + (if 2 <? m then -3 else 9)) + 2) / 5 + d - 1 in
  let doe := yoe * 365 + yoe / 4 - yoe / 100 + doy in
  era * 146097 + doe - 719468.

(** The date parser on the timestamps of the provider,
    [YYYY-MM-DDThh:mm:ssZ]. *)
Definition demoParseDate (s : str) : option Z :=
  match s with
  | [y1; y2; y3; y4; d1; m1; m2; d2; a1; a2; T; h1; h2; c1; i1; i2; c2; s1; s2; Zulu] =>
      if forallb isDigit [y1; y2; y3; y4; m1; m2; a1; a2; h1; h2; i1; i2; s1; s2]
         && str_eqb [d1; d2; T; c1; c2; Zulu] (lit "--T::Z")
      then
        let days := daysFromCivil (parseInt10 [y1; y2; y3; y4])
                      (parseInt10 [m1; m2]) (parseInt10 [a1; a2]) in
        Some ((((days * 24 + parseInt10 [h1; h2]) * 60 + parseInt10 [i1; i2]) * 60
               + parseInt10 [s1; s2]) * 1000)
      else None
  | _ => None
  end.

(** Exact arithmetic and the exact logarithm in the place of doubles. *)
Definition demoPlatform : Platform := {|
  toLowerCase := demoToLowerCase;
  isLetterOrNumber := demoIsLetterOrNumber;
  parseDate := demoParseDate;
  rnd := fun x => x;
  Math_log10 := fun x => (ln x / ln 10)%R;
  zodMessage := lit "Invalid request body"
|}.

(* ================================================================= *)
(** ** A small provider, for running the handler on examples *)
(* ================================================================= *)

(** One channel, reached by the handle [@demoChannel], with five videos:
    two published within the seven days before 2024-03-08T00:00:00Z, one
    published exactly seven days before, one older, one with no
    date. *)
Definition demoChannelItem : ChannelItem := {|
  ci_id := lit "UCdemo";
  ci_title := Some (lit "Demo");
  ci_uploads := Some (lit "UUdemo");
  ci_subscriberCount := Some 1200;
  ci_viewCount := Some 345678;
  ci_videoCount := Some 5
|}.

Definition demoVideo (id title : string) (publishedAt : option string)
    (views likes : Z) : VideoItem := {|
  v_id := lit id;
  v_title := Some (lit title);
  v_publishedAt := option_map lit publishedAt;
  v_viewCount := Some views;
  v_likeCount := Some likes;
  v_commentCount := None;
  v_duration := Some (lit "PT12M30S")
|}.

Definition demoVideos : list VideoItem :=
  [ demoVideo "v1" "Phế vật trùng sinh - Tập 1" (Some "2024-03-07T12:00:00Z") 1000 90;
    demoVideo "v2" "Hệ thống vô địch" (Some "2024-03-01T00:00:01Z") 7000 0;
    demoVideo "v3" "Xuyên không" (Some "2024-03-01T00:00:00Z") 500 5;
    demoVideo "v4" "Trùng sinh" (Some "2024-01-01T00:00:00Z") 900 9;
    demoVideo "v5" "Chấn động" None 100 1 ]%string.

Definition demoUpstream : Upstream := {|
  up_channels := fun parsed =>
    if str_eqb (ref_value parsed) (lit "@demoChannel")
    then inr [demoChannelItem] else inr [];
  up_playlistItems := fun playlistId maxResults pageToken =>
    inr {| pp_items := map (fun v => Some (v_id v)) demoVideos;
           pp_nextPageToken := None |};
  up_videos := fun ids => inr demoVideos
|}.

(** Requests at 2024-03-08T00:00:00Z and one, five and seven hours
    later. *)
Definition demoStart : Z := 1709856000000.

Definition demoEnv (hours : Z) : Env := {|
  now := demoStart + hours * 3600000;
  upstream := demoUpstream;
  YT_API_KEY := Some (lit "key")
|}.

Definition demoBody (inputs : list string) : Body := {|
  inputs := map lit inputs;
  days := Some 7;
  maxVideos := Some 10
|}.

Definition demoParsed (inputs : list string) : Parsed := {|
  p_inputs := map lit inputs;
  p_days := 7;
  p_maxVideos := 10
|}.

Definition emptyState : State := {| cache := []; calls := 0 |}.

Definition demoPOST (hours : Z) (inputs : list string) (s : State)
  : option Response * State :=
  POST (P := demoPlatform) 5 (demoEnv hours) (demoBody inputs) s.

(** The state after a first request for [@demoChannel], on an empty
    cache. *)
Definition demoState1 : State :=
  snd (demoPOST 0 ["@demoChannel"%string] emptyState).

(** The channel record and the bundle that this request builds. *)
Definition demoChannel : Channel := {|
  channelId := lit "UCdemo";
  title := Some (lit "Demo");
  uploadsPlaylistId := Some (lit "UUdemo");
  subscribers := 1200;
  totalViews := 345678;
  videoCount := 5
|}.

Definition demoBundle : Bundle :=
  buildBundle (P := demoPlatform) (demoEnv 0)
    (cutoffOf (demoEnv 0) 7) demoChannel demoVideos.

(** What a response shows of its rows: the video and its date. *)
Definition rowDates (r : option Response) : list (str * option str) :=
  match r with
  | Some (OkResponse p) => map (fun x => (r_videoId x, r_publishedAt x)) (res_rows p)
  | _ => []
  end.

(* ================================================================= *)
(** ** The page: formatting, export and the request it sends *)
(* ================================================================= *)

(** [String(n)] for an integer [n]. *)
Definition numberToString (n : Z) : str :=
  if n <? 0 then chr "-" :: decimal (Z.to_N (- n)) else decimal (Z.to_N n).




(** *** Export *)

(** The quotation mark, U+0022. *)
Definition dquote : N := 34.

(** [replaceAll] of each quotation mark by two of them. *)
Fixpoint doubleQuotes (s : str) : str :=
  match s with
  | [] => []
  | c :: s' =>
      if (c =? dquote)%N then dquote :: dquote :: doubleQuotes s'
      else c :: doubleQuotes s'
  end.

(** One value of a line: quoted, its quotation marks doubled. *)
Definition csvField (text : str) : str :=
  dquote :: doubleQuotes text ++ [dquote].

Definition csvHeader : list str :=
  map lit
    ["channelTitle"; "title"; "publishedAt"; "durationSec"; "views";
     "likes"; "comments"; "ageDays"; "viewsPerDay"; "velocity"; "hookTag";
     "url"]%string.

(** [String(r[k] ?? "")] for the keys of the header, in their order. *)
Definition rowValues (r : Row) : list str :=
  [ orEmpty (r_channelTitle r); orEmpty (r_title r);
    orEmpty (r_publishedAt r); numberToString (r_durationSec r);
    numberToString (r_views r); numberToString (r_likes r);
    numberToString (r_comments r); numberToString (r_ageDays r);
    numberToString (r_viewsPerDay r); numberToString (r_velocity r);
    r_hookTag r; r_url r ].

Definition csvLine (values : list str) : str :=
  join (chr ",") (map csvField values).

(** The array [lines] of [exportRowsToCsv], and the text of the file. *)
Definition csvLines (rows : list Row) : list str :=
  join (chr ",") csvHeader :: map (fun r => csvLine (rowValues r)) rows.

Definition csvText (rows : list Row) : str :=
  join 10%N (csvLines rows).

(** A reader of such lines, as a spreadsheet reads them: the text of a
    quoted value up to its closing quotation mark, and what follows. *)
Fixpoint readQuoted (s : str) : option (str * str) :=
  match s with
  | [] => None
  | c :: s' =>
      if (c =? dquote)%N then
        match s' with
        | d :: s'' =>
            if (d =? dquote)%N then
              match readQuoted s'' with
              | Some (t, rest) => Some (dquote :: t, rest)
              | None => None
              end
            else Some ([], s')
        | [] => Some ([], [])
        end
      else
        match readQuoted s' with
        | Some (t, rest) => Some (c :: t, rest)
        | None => None
        end
  end.

(** The values of a line of quoted values separated by commas; at most
    [fuel] of them. *)
Fixpoint readLine (fuel : nat) (s : str) : option (list str) :=
  match fuel, s with
  | S fuel', q :: s' =>
      if (q =? dquote)%N then
        match readQuoted s' with
        | Some (t, []) => Some [t]
        | Some (t, c :: rest) =>
            if (c =? chr ",")%N then
              match readLine fuel' rest with
              | Some ts => Some (t :: ts)
              | None => None
              end
            else None
        | None => None
        end
      else None
  | _, _ => None
  end.

(** *** The request of the page *)

(** The [inputs] of the page: the lines of the text area, trimmed, the
    empty ones left out, ten at most. *)
Definition pageInputs (inputsText : str) : list str :=
  firstn 10 (filter truthy (map trim (split 10%N inputsText))).

(** The values the two selectors of the page offer. *)
Definition daysOptions : list Z := [30; 60; 90; 180].
Definition maxVideosOptions : list Z := [20; 50; 80; 120; 200].

(** The body that [run] sends. *)
Definition pageBody (inputsText : str) (days maxVideos : Z) : Body := {|
  inputs := pageInputs inputsText;
  days := Some days;
  maxVideos := Some maxVideos
|}.





(* ================================================================= *)
(** ** Notions for the statements about cleaned titles *)
(* ================================================================= *)

(** Every white-space unit of [s] is U+0020 and none stands next to
    another one; [prev] says that the unit before [s] is white space. *)
Fixpoint spacedOnce (prev : bool) (s : str) : bool :=
  match s with
  | [] => true
  | c :: s' =>
      if isSpace c then (c =? space)%N && negb prev && spacedOnce true s'
      else spacedOnce false s'
  end.

(** [s] without its white space at the end. *)
Definition trimEnd (s : str) : str := rev (dropWhile isSpace (rev s)).

(* ================================================================= *)
(** ** Notions for the statements about fetching *)
(* ================================================================= *)

(** The computation ends, with a value or with an error, from every
    state. *)
Definition noDiverge {A} (m : M A) : Prop :=
  forall s, fst (m s) <> Diverge.


(** Every playlist item the provider sends carries a video id. *)
Definition itemsHaveIds (up : Upstream) : Prop :=
  forall playlistId n tok page,
    up_playlistItems up playlistId n tok = inr page ->
    forallb (fun vid => negb (falsy vid)) (pp_items page) = true.



(** A provider that never stops sending pages of items without a video
    id. *)
Definition endlessUpstream : Upstream := {|
  up_channels := up_channels demoUpstream;
  up_playlistItems := fun playlistId maxResults pageToken =>
    inr {| pp_items := [None]; pp_nextPageToken := Some (lit "next") |};
  up_videos := up_videos demoUpstream
|}.

Definition endlessEnv : Env := {|
  now := demoStart;
  upstream := endlessUpstream;
  YT_API_KEY := Some (lit "key")
|}.

(** A provider that refuses every request for a channel, and one that
    refuses every request for videos. *)
Definition refusingEnv : Env := {|
  now := demoStart;
  upstream := {| up_channels := fun parsed => inl (lit "quotaExceeded");
                 up_playlistItems := up_playlistItems demoUpstream;
                 up_videos := up_videos demoUpstream |};
  YT_API_KEY := Some (lit "key")
|}.

Definition failingVideosEnv : Env := {|
  now := demoStart;
  upstream := {| up_channels := up_channels demoUpstream;
                 up_playlistItems := up_playlistItems demoUpstream;
                 up_videos := fun ids => inl (lit "quotaExceeded") |};
  YT_API_KEY := Some (lit "key")
|}.

(* ================================================================= *)
(** ** Notions for the statements about the cache and the summaries *)
(* ================================================================= *)

(** The cache holds at most [max] entries, under keys that are all
    different. *)
Definition cacheBounded (c : Cache) : Prop :=
  (List.length c <= cache_max)%nat /\ NoDup (map LRUCache.e_key c).

(** The sum of a list of counters. *)
Definition sumZ (l : list Z) : Z := fold_right Z.add 0 l.

Section Invariants.

Context {P : Platform}.

(** The entry holds a bundle that the handler built, at the instant the
    entry was set, for the window of the entry's key. *)
Definition entryBuilt (e : LRUCache.Entry Key Bundle) : Prop :=
  exists env ch videos,
    now env = LRUCache.e_start e
    /\ LRUCache.e_value e
       = buildBundle env (cutoffOf env (snd (fst (LRUCache.e_key e))))
           ch videos.

Definition cacheBuilt (c : Cache) : Prop :=
  forall e, In e c -> entryBuilt e.

(** The tags that [classifyHook] can return. *)
Definition hookTags : list str := map tag rules ++ [lit "Khác"].

End Invariants.

(* ================================================================= *)
(** ** The first route, [src/app/api/analyze/route.js] *)
(* ================================================================= *)

(** The route for one channel.  Its [parseChannelInput],
    [listPlaylistVideos], [getVideosDetails] and
    [iso8601DurationToSeconds] are, statement for statement, those of the
    second route, and are not repeated here; the requests to the provider
    go through the client library instead of [ytGET], and are modelled in
    the same way: one call, which fails with a message or returns the
    items. *)
Module V1.

(** The JSON body, with fields of the expected types; a field that is
    absent is [None]. *)
Record Body := {
  q_input : option str;
  q_days : option Z;
  q_maxVideos : option Z
}.

(** [Number(x || d)] for an optional number: 0 counts as absent. *)
Definition numberOr (d : Z) (x : option Z) : Z :=
  match x with
  | Some v => if v =? 0 then d else v
  | None => d
  end.

(** What [resolveChannel] returns: the counters as the provider sends
    them. *)
Record Channel := {
  c_channelId : str;
  c_title : option str;
  c_uploadsPlaylistId : option str;
  c_subscribers : option Z;
  c_totalViews : option Z;
  c_videoCount : option Z
}.

Record Row := {
  w_videoId : str;
  w_title : option str;
  w_publishedAt : option str;
  w_durationSec : Z;
  w_views : Z;
  w_likes : Z;
  w_comments : Z;
  w_viewsPerDay : Z;
  w_url : str
}.

Record Word := { word : str; wcount : Z }.

Record Payload := {
  p_channel : Channel;
  p_days : Z;
  p_count : Z;
  p_top : list Row;
  p_patterns : list Word;
  p_rows : list Row
}.

Inductive Response :=
| ErrorResponse (status : Z) (error : str)
| OkResponse (payload : Payload).

Definition resolveChannel (env : Env) (parsed : ChannelRef) : M Channel :=
  items <- ytGET (up_channels (upstream env) parsed) ;;
  match items with
  | [] => throw (lit "Không tìm thấy channel từ input này.")
  | ch :: _ =>
      ret {| c_channelId := ci_id ch;
             c_title := ci_title ch;
             c_uploadsPlaylistId := ci_uploads ch;
             c_subscribers := ci_subscriberCount ch;
             c_totalViews := ci_viewCount ch;
             c_videoCount := ci_videoCount ch |}
  end.

Section Route.

Context {P : Platform}.

(** *** Title patterns *)

Definition stop : list str :=
  map lit
    ["là"; "và"; "của"; "cho"; "một"; "những"; "đã"; "khi"; "thì"; "với";
     "trong"; "từ"; "phần"; "review"; "tóm"; "tắt"; "phim"; "full";
     "p1"; "p2"; "p3"; "p4"; "p5"; "ep"; "tập"]%string.

Definition stop_has (x : str) : bool := existsb (str_eqb x) stop.

(** The array [words] of one title.  [.split(/\s+/)] cuts at every
    maximal run of white space: the runs are first replaced by one space
    each. *)
Definition words (t : str) : list str :=
  filter (fun w => (3 <=? strlen w) && negb (stop_has w))
    (filter truthy
       (split space (collapseSpaces false (replaceNonWord (toLowerCase t))))).

Definition wordFreq (titles : list str) : Freq :=
  fold_left (fun freq t => fold_left (fun f w => bump w f) (words t) freq)
    titles [].

Definition extractTitlePatterns (titles : list str) : list Word :=
  map (fun e => {| word := fst e; wcount := snd e |})
    (firstn 20 (sortBy byCountDesc (wordFreq titles))).

(** *** Rows *)

(** The callback of [.map] in [POST]. *)
Definition toRow (env : Env) (v : VideoItem) : Row :=
  let publishedAt := v_publishedAt v in
  let views := numberOr0 (v_viewCount v) in
  let likes := numberOr0 (v_likeCount v) in
  let comments := numberOr0 (v_commentCount v) in
  let durSec := iso8601DurationToSeconds (orDefault (lit "PT0S") (v_duration v)) in
  let ageDays := Z.max 1 (diffDays env publishedAt) in
  {| w_videoId := v_id v;
     w_title := v_title v;
     w_publishedAt := publishedAt;
     w_durationSec := durSec;
     w_views := views;
     w_likes := likes;
     w_comments := comments;
     w_viewsPerDay := roundDiv views ageDays;
     w_url := lit "https://www.youtube.com/watch?v=" ++ v_id v |}.

(** The callback of [.filter]: [dayjs(r.publishedAt).isAfter(cutoff)].
    [dayjs(undefined)] is the present instant; a date that does not parse
    is after nothing. *)
Definition inWindow (env : Env) (cutoff : Z) (r : Row) : bool :=
  match w_publishedAt r with
  | None => cutoff <? now env
  | Some s =>
      match parseDate s with
      | Some p => cutoff <? p
      | None => false
      end
  end.

Definition byViewsPerDayDesc (a b : Row) : Z := w_viewsPerDay b - w_viewsPerDay a.

(** The array [rows] of [POST]. *)
Definition rowsOf (env : Env) (days : Z) (videos : list VideoItem)
  : list Row :=
  sortBy byViewsPerDayDesc
    (filter (inWindow env (cutoffOf env days)) (map (toRow env) videos)).

(** *** The handler *)

Definition respond (channel : Channel) (days : Z) (rows : list Row)
  : Payload :=
  {| p_channel := channel;
     p_days := days;
     p_count := Z.of_nat (List.length rows);
     p_top := firstn 10 rows;
     p_patterns := extractTitlePatterns (map (fun r => orEmpty (w_title r)) rows);
     p_rows := rows |}.

(** The [try] block of [POST], after the check of the API key. *)
Definition handle (fuel : nat) (env : Env) (raw : Body) : M Payload :=
  let input := orEmpty (q_input raw) in
  let days := numberOr 60 (q_days raw) in
  let maxVideos := numberOr 50 (q_maxVideos raw) in
  channel <- resolveChannel env (parseChannelInput input) ;;
  if falsy (c_uploadsPlaylistId channel) then
    throw (lit "Channel không có uploads playlist.")
  else
    ids <- listPlaylistVideos fuel env (orEmpty (c_uploadsPlaylistId channel))
             maxVideos ;;
    videos <- getVideosDetails env ids ;;
    ret (respond channel days (rowsOf env days videos)).

Definition POST (fuel : nat) (env : Env) (raw : Body) (s : State)
  : option Response * State :=
  if falsy (YT_API_KEY env) then
    (Some (ErrorResponse 500 (lit "Thiếu YT_API_KEY trong .env.local")), s)
  else
    match handle fuel env raw s with
    | (Ret payload, s') => (Some (OkResponse payload), s')
    | (Throw e, s') => (Some (ErrorResponse 400 (messageOrError e)), s')
    | (Diverge, s') => (None, s')
    end.

End Route.

End V1.

(** The tokens of all the titles, in the order in which the first route
    counts them. *)
Definition v1AllWords {P : Platform} (titles : list str) : list str :=
  flat_map V1.words titles.

(* ================================================================= *)
(** * Properties *)
(* ================================================================= *)

(** ** Strings *)

Lemma str_eqb_eq (a b : str) : str_eqb a b = true <-> a = b.
Proof.
  revert b; induction a as [|x a IH]; intros [|y b]; simpl;
    try (split; [discriminate | discriminate]); try tauto.
  rewrite andb_true_iff, N.eqb_eq, IH.
  split; [intros [-> ->]; reflexivity | intros [= -> ->]; auto].
Qed.

Lemma str_eqb_refl (a : str) : str_eqb a a = true.
Proof. apply str_eqb_eq; reflexivity. Qed.

Lemma str_eqb_neq (a b : str) : str_eqb a b = false <-> a <> b.
Proof.
  rewrite <- str_eqb_eq. destruct (str_eqb a b); split; congruence.
Qed.

Lemma startsWith_prefix (s p : str) :
  startsWith s p = true <-> exists post, s = p ++ post.
Proof.
  revert s; induction p as [|y p IH]; intros s; simpl.
  - split; [exists s; reflexivity | destruct s; reflexivity].
  - destruct s as [|x s].
    + split; [discriminate | intros [post H]; discriminate].
    + cbn [startsWith]. rewrite andb_true_iff, N.eqb_eq, IH. split.
      * intros [-> [post ->]]. exists post; reflexivity.
      * intros [post [= -> ->]]. split; [reflexivity | exists post; reflexivity].
Qed.


(** ** Duration normalizer *)

Lemma span_run (p : N -> bool) (ds rest : str) :
  forallb p ds = true ->
  match rest with [] => True | c :: _ => p c = false end ->
  span p (ds ++ rest) = (ds, rest).
Proof.
  intros Hds Hrest. induction ds as [|d ds IH]; simpl in *.
  - destruct rest as [|c rest]; simpl; [reflexivity | now rewrite Hrest].
  - apply andb_true_iff in Hds as [-> Hds]. now rewrite IH.
Qed.




















(** ** Hook classifier *)

Example demoParseDate_epoch :
  demoParseDate (lit "1970-01-02T00:00:01Z") = Some 86401000.
Proof. reflexivity. Qed.

Example demoParseDate_2024 :
  demoParseDate (lit "2024-03-01T00:00:00Z") = Some 1709251200000.
Proof. reflexivity. Qed.






Section Facts.

Context {P : Platform}.


(** ** Lists, sorting and frequency maps *)

Lemma In_firstn {A} (n : nat) (l : list A) (x : A) :
  In x (firstn n l) -> In x l.
Proof.
  intros H. rewrite <- (firstn_skipn n l). apply in_or_app. now left.
Qed.

Lemma In_insertBy {A} (cmp : A -> A -> Z) (x y : A) (l : list A) :
  In y (insertBy cmp x l) <-> y = x \/ In y l.
Proof.
  induction l as [|z l IH]; simpl.
  - intuition congruence.
  - destruct (0 <? cmp x z); simpl; [rewrite IH|]; intuition congruence.
Qed.

Lemma In_sortBy {A} (cmp : A -> A -> Z) (y : A) (l : list A) :
  In y (sortBy cmp l) <-> In y l.
Proof.
  unfold sortBy. induction l as [|x l IH]; simpl; [tauto|].
  rewrite In_insertBy, IH. intuition congruence.
Qed.

Lemma length_insertBy {A} (cmp : A -> A -> Z) (x : A) (l : list A) :
  List.length (insertBy cmp x l) = S (List.length l).
Proof.
  induction l as [|z l IH]; simpl; [reflexivity|].
  destruct (0 <? cmp x z); simpl; congruence.
Qed.

Lemma length_sortBy {A} (cmp : A -> A -> Z) (l : list A) :
  List.length (sortBy cmp l) = List.length l.
Proof.
  unfold sortBy. induction l as [|x l IH]; simpl; [reflexivity|].
  now rewrite length_insertBy, IH.
Qed.

(** A property of the accumulator that every step keeps holds at the end
    of a [fold_left]. *)
Lemma fold_left_invariant {A B} (I : A -> Prop) (f : A -> B -> A)
    (l : list B) (a : A) :
  I a -> (forall a' x, In x l -> I a' -> I (f a' x)) -> I (fold_left f l a).
Proof.
  revert a; induction l as [|x l IH]; intros a Ha Hstep; simpl; [exact Ha|].
  apply IH.
  - apply Hstep; [left; reflexivity | exact Ha].
  - intros a' y Hy. apply Hstep. right; exact Hy.
Qed.

Lemma In_bump (key : str) (m : Freq) (e : str * Z) :
  In e (bump key m) -> fst e = key \/ exists c, In (fst e, c) m.
Proof.
  induction m as [|[k' c] m IH]; simpl.
  - intros [<- | []]. left; reflexivity.
  - destruct (str_eqb k' key) eqn:E; simpl.
    + intros [<- | H].
      * apply str_eqb_eq in E. left; exact E.
      * right. exists (snd e). right. now destruct e.
    + intros [<- | H].
      * right. exists c. left; reflexivity.
      * destruct (IH H) as [Hk | [c' Hc']]; [left; exact Hk|].
        right. exists c'. right; exact Hc'.
Qed.

Lemma bump_keys (key : str) (m : Freq) (x : str) :
  In x (map fst (bump key m)) <-> x = key \/ In x (map fst m).
Proof.
  induction m as [|[k' c] m IH]; simpl.
  - intuition congruence.
  - destruct (str_eqb k' key) eqn:E; simpl.
    + apply str_eqb_eq in E. subst k'. intuition congruence.
    + rewrite IH. intuition congruence.
Qed.

Lemma bump_NoDup (key : str) (m : Freq) :
  NoDup (map fst m) -> NoDup (map fst (bump key m)).
Proof.
  induction m as [|[k' c] m IH]; simpl; intros Hnd.
  - constructor; [intros [] | constructor].
  - inversion Hnd as [|? ? Hnotin Hnd']; subst.
    destruct (str_eqb k' key) eqn:E; simpl.
    + constructor; assumption.
    + constructor; [|now apply IH].
      rewrite bump_keys. intros [-> | Hin]; [|contradiction].
      rewrite str_eqb_refl in E. discriminate.
Qed.

Lemma countOf_bump (key x : str) (m : Freq) :
  countOf x (bump key m)
  = countOf x m + (if str_eqb key x then 1 else 0).
Proof.
  induction m as [|[k' c] m IH]; simpl.
  - destruct (str_eqb key x); lia.
  - destruct (str_eqb k' key) eqn:E; simpl.
    + apply str_eqb_eq in E. subst k'.
      destruct (str_eqb key x); lia.
    + destruct (str_eqb k' x) eqn:Ex; [|exact IH].
      apply str_eqb_eq in Ex. subst k'. apply str_eqb_neq in E.
      assert (E' : str_eqb key x = false) by (apply str_eqb_neq; congruence).
      rewrite E'. lia.
Qed.

Lemma countOf_In (m : Freq) (x : str) (c : Z) :
  NoDup (map fst m) -> In (x, c) m -> countOf x m = c.
Proof.
  induction m as [|[k' c'] m IH]; simpl; intros Hnd Hin; [contradiction|].
  inversion Hnd as [|? ? Hnotin Hnd']; subst.
  destruct Hin as [[= -> ->] | Hin].
  - now rewrite str_eqb_refl.
  - destruct (str_eqb k' x) eqn:E; [|now apply IH].
    apply str_eqb_eq in E. subst k'.
    exfalso. apply Hnotin. apply (in_map fst) in Hin. exact Hin.
Qed.

(** *** [split] and [join] *)

Lemma split_nonempty (sep : N) (s : str) : split sep s <> [].
Proof.
  induction s as [|c s IH]; simpl; [discriminate|].
  destruct (c =? sep)%N; [discriminate|].
  destruct (split sep s); [contradiction | discriminate].
Qed.

Lemma split_no_sep (sep : N) (s : str) (w : str) :
  In w (split sep s) -> ~ In sep w.
Proof.
  revert w; induction s as [|c s IH]; intros w; simpl.
  - intros [<- | []]. intros [].
  - destruct (N.eqb_spec c sep) as [->|Hne].
    + intros [<- | H]; [intros [] | now apply IH].
    + destruct (split sep s) as [|w0 ws] eqn:E.
      * intros [<- | []]. intros [H | []]. congruence.
      * intros [<- | H].
        -- intros [H | H]; [congruence|].
           apply (IH w0); [left; reflexivity | exact H].
        -- apply IH. right; exact H.
Qed.

Lemma split_app_sep (sep : N) (w rest : str) :
  ~ In sep w -> split sep (w ++ sep :: rest) = w :: split sep rest.
Proof.
  induction w as [|c w IH]; intros Hno; simpl.
  - now rewrite N.eqb_refl.
  - destruct (N.eqb_spec c sep) as [->|Hne].
    + exfalso. apply Hno. left; reflexivity.
    + rewrite IH; [reflexivity|]. intros H. apply Hno. right; exact H.
Qed.

Lemma split_single (sep : N) (w : str) : ~ In sep w -> split sep w = [w].
Proof.
  induction w as [|c w IH]; intros Hno; simpl; [reflexivity|].
  destruct (N.eqb_spec c sep) as [->|Hne].
  - exfalso. apply Hno. left; reflexivity.
  - rewrite IH; [reflexivity|]. intros H. apply Hno. right; exact H.
Qed.

Lemma split_join (sep : N) (ws : list str) :
  ws <> [] -> (forall w, In w ws -> ~ In sep w) ->
  split sep (join sep ws) = ws.
Proof.
  induction ws as [|w ws IH]; intros Hne Hno; [congruence|].
  destruct ws as [|w' ws].
  - simpl. apply split_single. apply Hno. left; reflexivity.
  - change (join sep (w :: w' :: ws)) with (w ++ sep :: join sep (w' :: ws)).
    rewrite split_app_sep by (apply Hno; left; reflexivity).
    rewrite IH; [reflexivity | discriminate |].
    intros x Hx. apply Hno. right; exact Hx.
Qed.

Lemma gram_eqb_eq (a b : list str) : gram_eqb a b = true <-> a = b.
Proof.
  revert b; induction a as [|x a IH]; intros [|y b]; simpl;
    try (split; [discriminate | discriminate]); try tauto.
  rewrite andb_true_iff, str_eqb_eq, IH.
  split; [intros [-> ->]; reflexivity | intros [= -> ->]; auto].
Qed.

(** ** Pattern miner *)

Lemma stop_has_false (x : str) : stop_has x = false <-> ~ In x stop.
Proof.
  unfold stop_has. split.
  - intros H Hin.
    assert (existsb (str_eqb x) stop = true)
      by (apply existsb_exists; exists x; split; [exact Hin | apply str_eqb_refl]).
    congruence.
  - intros H. apply not_true_is_false. intros E.
    apply existsb_exists in E as (y & Hy & Exy).
    apply str_eqb_eq in Exy. subst y. contradiction.
Qed.

Lemma tokens_ok (raw : option str) (x : str) :
  In x (tokens raw) -> stop_has x = false /\ ~ In space x.
Proof.
  unfold tokens. intros H.
  apply filter_In in H as [H Hx]. apply filter_In in H as [H _].
  apply andb_true_iff in Hx as [_ Hx]. apply negb_true_iff in Hx.
  split; [exact Hx | now apply split_no_sep in H].
Qed.

Lemma In_slice {A} (i n : nat) (w : list A) (x : A) :
  In x (slice i n w) -> In x w.
Proof.
  unfold slice. intros H. apply In_firstn in H.
  rewrite <- (firstn_skipn i w). apply in_or_app. now right.
Qed.

Lemma length_slice {A} (i n : nat) (w : list A) :
  (i + n <= List.length w)%nat -> List.length (slice i n w) = n.
Proof.
  intros H. unfold slice. rewrite length_firstn, length_skipn. lia.
Qed.

Lemma slice_infix {A} (i n : nat) (w : list A) :
  w = firstn i w ++ slice i n w ++ skipn n (skipn i w).
Proof.
  unfold slice. now rewrite firstn_skipn, firstn_skipn.
Qed.

Lemma In_positions (w : list str) (n i : nat) :
  In i (positions w n) -> (i + n <= List.length w)%nat \/ n = 0%nat.
Proof. unfold positions. rewrite in_seq. lia. Qed.

Lemma gramStep_keysChecked (w : list str) (n i : nat) (freq : Freq) :
  keysChecked freq -> keysChecked (gramStep w n freq i).
Proof.
  unfold gramStep. intros H.
  destruct (existsb stop_has (split space (join space (slice i n w)))) eqn:E;
    [exact H|].
  intros e He. apply In_bump in He as [-> | [c Hc]]; [exact E|].
  apply (H _ Hc).
Qed.

Lemma ngramFreq_keysChecked (titles : list (option str)) (nMin nMax : nat) :
  keysChecked (ngramFreq titles nMin nMax).
Proof.
  unfold ngramFreq. apply fold_left_invariant; [intros e []|].
  intros f raw _ Hf. unfold gramsOfTitle.
  apply fold_left_invariant; [exact Hf|].
  intros f' n _ Hf'. apply fold_left_invariant; [exact Hf'|].
  intros f'' i _ Hf''. now apply gramStep_keysChecked.
Qed.

Lemma extractNgrams_In (titles : list (option str)) (nMin nMax : nat)
    (p : Pattern) :
  In p (extractNgrams titles nMin nMax) ->
  In (phrase p, count p) (ngramFreq titles nMin nMax).
Proof.
  unfold extractNgrams. intros H. apply in_map_iff in H as ([g c] & <- & H).
  apply In_firstn, In_sortBy in H. exact H.
Qed.

(** C4.  No pattern that the miner returns has a stopword among the
    tokens of its phrase. *)
Theorem extractNgrams_no_stopword (titles : list (option str))
    (nMin nMax : nat) (p : Pattern) (x : str) :
  In p (extractNgrams titles nMin nMax) ->
  In x (split space (phrase p)) ->
  ~ In x stop.
Proof.
  intros Hp Hx. apply extractNgrams_In in Hp.
  apply ngramFreq_keysChecked in Hp. simpl in Hp.
  apply stop_has_false.
  apply not_true_is_false. intros E.
  assert (existsb stop_has (split space (phrase p)) = true)
    by (apply existsb_exists; exists x; auto).
  congruence.
Qed.

(** *** Counting *)


Lemma tokens_clean (raw : option str) : cleanTokens (tokens raw).
Proof. intros x Hx. now apply (tokens_ok raw). Qed.

Lemma slice_split_join (w : list str) (i n : nat) :
  cleanTokens w -> (1 <= n)%nat -> (i + n <= List.length w)%nat ->
  split space (join space (slice i n w)) = slice i n w.
Proof.
  intros Hw Hn Hi. apply split_join.
  - intros E. apply (f_equal (@List.length str)) in E.
    rewrite length_slice in E by exact Hi. simpl in E. lia.
  - intros x Hx. apply In_slice in Hx. now apply Hw.
Qed.

(** On clean tokens the stopword check of [gramStep] never fires. *)
Lemma gramStep_bump (w : list str) (i n : nat) (freq : Freq) :
  cleanTokens w -> (1 <= n)%nat -> (i + n <= List.length w)%nat ->
  gramStep w n freq i = bump (join space (slice i n w)) freq.
Proof.
  intros Hw Hn Hi. unfold gramStep.
  rewrite slice_split_join by assumption.
  replace (existsb stop_has (slice i n w)) with false; [reflexivity|].
  symmetry. apply not_true_is_false. intros E.
  apply existsb_exists in E as (x & Hx & Ex).
  apply In_slice in Hx. apply Hw in Hx as [Hx _]. congruence.
Qed.

Lemma list_sum_cons (x : nat) (l : list nat) :
  list_sum (x :: l) = (x + list_sum l)%nat.
Proof. reflexivity. Qed.

Lemma countOf_inner (key : str) (w : list str) (n : nat) (ps : list nat)
    (freq : Freq) :
  cleanTokens w -> (1 <= n)%nat ->
  (forall i, In i ps -> (i + n <= List.length w)%nat) ->
  countOf key (fold_left (gramStep w n) ps freq)
  = countOf key freq
    + Z.of_nat (List.length
        (filter (fun i => str_eqb (join space (slice i n w)) key) ps)).
Proof.
  intros Hw Hn. revert freq; induction ps as [|i ps IH]; intros freq His.
  - simpl. lia.
  - cbn [fold_left filter]. rewrite IH by (intros j Hj; apply His; now right).
    rewrite gramStep_bump by (auto; apply His; now left).
    rewrite countOf_bump.
    destruct (str_eqb (join space (slice i n w)) key); cbn [List.length]; lia.
Qed.

Lemma countOf_window (key : str) (w : list str) (n : nat) (freq : Freq) :
  cleanTokens w -> (1 <= n)%nat ->
  countOf key (fold_left (gramStep w n) (positions w n) freq)
  = countOf key freq + Z.of_nat (gramCount key w n).
Proof.
  intros Hw Hn. unfold gramCount. apply countOf_inner; auto.
  intros i Hi. apply In_positions in Hi. lia.
Qed.

Lemma countOf_lengths (key : str) (w : list str) (ns : list nat)
    (freq : Freq) :
  cleanTokens w -> (forall n, In n ns -> (1 <= n)%nat) ->
  countOf key
    (fold_left (fun f n => fold_left (gramStep w n) (positions w n) f) ns freq)
  = countOf key freq + Z.of_nat (list_sum (map (gramCount key w) ns)).
Proof.
  intros Hw. revert freq; induction ns as [|n ns IH]; intros freq Hns.
  - simpl. lia.
  - cbn [fold_left].
    rewrite IH by (intros m Hm; apply Hns; now right).
    rewrite countOf_window by (auto; apply Hns; now left).
    rewrite ?map_cons, ?list_sum_cons. lia.
Qed.

Lemma countOf_titles (key : str) (titles : list (option str)) (freq : Freq) :
  countOf key (fold_left (gramsOfTitle 2 4) titles freq)
  = countOf key freq
    + Z.of_nat
        (list_sum
           (map (fun raw =>
                   list_sum (map (gramCount key (tokens raw)) [2; 3; 4]%nat))
              titles)).
Proof.
  revert freq; induction titles as [|raw titles IH]; intros freq.
  - simpl. lia.
  - cbn [fold_left]. rewrite IH.
    unfold gramsOfTitle.
    change (seq 2 (4 + 1 - 2)) with [2; 3; 4]%nat.
    rewrite countOf_lengths;
      [ | apply tokens_clean | intros n Hn; simpl in Hn; lia ].
    rewrite ?map_cons, ?list_sum_cons. lia.
Qed.

(** A window of another length, or with other tokens, has another
    phrase. *)
Lemma join_slice_eq (w g : list str) (i n : nat) :
  cleanTokens w -> (1 <= n)%nat -> (i + n <= List.length w)%nat ->
  g <> [] -> (forall x, In x g -> ~ In space x) ->
  join space (slice i n w) = join space g <-> slice i n w = g.
Proof.
  intros Hw Hn Hi Hg Hgs. split; [|now intros ->].
  intros E. rewrite <- (slice_split_join w i n) by assumption.
  rewrite E. now apply split_join.
Qed.

Lemma gramCount_gram (w g : list str) (n : nat) :
  cleanTokens w -> (1 <= n)%nat ->
  g <> [] -> (forall x, In x g -> ~ In space x) ->
  gramCount (join space g) w n
  = if (n =? List.length g)%nat then occurrencesIn g w else 0%nat.
Proof.
  intros Hw Hn Hg Hgs. unfold gramCount, occurrencesIn.
  destruct (Nat.eqb_spec n (List.length g)) as [->|Hne].
  - f_equal. apply filter_ext_in. intros i Hi.
    apply In_positions in Hi. 
    assert (Hi' : (i + List.length g <= List.length w)%nat) by lia.
    apply eq_true_iff_eq.
    rewrite str_eqb_eq, gram_eqb_eq. now apply join_slice_eq.
  - rewrite (filter_ext_in _ (fun _ => false)); [now rewrite filter_false|].
    intros i Hi. apply In_positions in Hi.
    assert (Hi' : (i + n <= List.length w)%nat) by lia.
    apply not_true_is_false. rewrite str_eqb_eq.
    rewrite join_slice_eq by assumption. intros E.
    apply (f_equal (@List.length str)) in E.
    rewrite length_slice in E by exact Hi'. congruence.
Qed.

(** Where the keys of the frequency map come from. *)
Lemma ngramFreq_keys (titles : list (option str)) :
  NoDup (map fst (ngramFreq titles 2 4))
  /\ forall key, In key (map fst (ngramFreq titles 2 4)) ->
       exists raw i n,
         In raw titles /\ (2 <= n <= 4)%nat
         /\ (i + n <= List.length (tokens raw))%nat
         /\ key = join space (slice i n (tokens raw)).
Proof.
  unfold ngramFreq.
  apply (fold_left_invariant
           (fun freq => NoDup (map fst freq)
              /\ forall key, In key (map fst freq) ->
                   exists raw i n,
                     In raw titles /\ (2 <= n <= 4)%nat
                     /\ (i + n <= List.length (tokens raw))%nat
                     /\ key = join space (slice i n (tokens raw)))).
  - split; [constructor | intros key []].
  - intros f raw Hraw Hf. unfold gramsOfTitle.
    change (seq 2 (4 + 1 - 2)) with [2; 3; 4]%nat.
    apply fold_left_invariant; [exact Hf|].
    intros f' n Hn Hf'. apply fold_left_invariant; [exact Hf'|].
    intros f'' i Hi [Hnd Hkeys].
    assert (Hn' : (2 <= n <= 4)%nat) by (simpl in Hn; lia).
    apply In_positions in Hi.
    assert (Hi' : (i + n <= List.length (tokens raw))%nat) by lia.
    rewrite gramStep_bump by (auto using tokens_clean; lia).
    split; [now apply bump_NoDup|].
    intros key Hkey. apply bump_keys in Hkey as [-> | Hkey]; [|now apply Hkeys].
    exists raw, i, n. auto.
Qed.

(** C5, as amended.  Every pattern that the miner returns is an n-gram of
    2 to 4 tokens that stand one after the other in the token sequence
    that is left of one of the titles once the tokens shorter than two
    code units and the stopwords are dropped from its cleaned form (the
    array [w] of [extractNgrams]), and its count is the number of places
    of these sequences, over all the titles, at which its tokens so
    stand. *)
Theorem extractNgrams_contiguous_count (titles : list (option str))
    (p : Pattern) :
  In p (extractNgrams_default titles) ->
  exists g : list str,
    (2 <= List.length g <= 4)%nat
    /\ phrase p = join space g
    /\ (exists raw pre post,
          In raw titles /\ tokens raw = pre ++ g ++ post)
    /\ count p = Z.of_nat (occurrences g titles).
Proof.
  intros Hp. apply extractNgrams_In in Hp.
  destruct (ngramFreq_keys titles) as [Hnd Hkeys].
  destruct (Hkeys (phrase p)) as (raw & i & n & Hraw & Hn & Hi & Hkey).
  { apply (in_map fst) in Hp. exact Hp. }
  set (g := slice i n (tokens raw)) in *.
  assert (Hlen : List.length g = n) by (now apply length_slice).
  assert (Hg : g <> []) by (intros E; rewrite E in Hlen; simpl in Hlen; lia).
  assert (Hgs : forall x, In x g -> ~ In space x).
  { intros x Hx. apply In_slice in Hx. now apply (tokens_ok raw) in Hx. }
  exists g. split; [lia|]. split; [exact Hkey|]. split.
  - exists raw, (firstn i (tokens raw)), (skipn n (skipn i (tokens raw))).
    split; [exact Hraw | apply slice_infix].
  - rewrite <- (countOf_In _ _ _ Hnd Hp). unfold ngramFreq.
    rewrite countOf_titles. cbn [countOf]. rewrite Z.add_0_l. f_equal.
    unfold occurrences. f_equal. apply map_ext. intros raw'.
    rewrite Hkey. rewrite ?map_cons, ?list_sum_cons. cbn [map list_sum fold_right].
    rewrite !gramCount_gram by (auto using tokens_clean; lia).
    rewrite Hlen.
    destruct n as [|[|[|[|[|n]]]]]; try lia; simpl; lia.
Qed.

(** ** Metric calculator *)

Section VelocityMonotone.

(** What the statement needs of the arithmetic of doubles: rounding keeps
    the order and leaves 0 and 1 as they are (all three hold of rounding
    to nearest and of exact arithmetic); and of [Math.log10], which
    ECMAScript leaves to the implementation: that it keeps the order and
    is not negative from 1 on. *)
Hypothesis rnd_monotone : forall x y : R, (x <= y)%R -> (rnd x <= rnd y)%R.
Hypothesis rnd_0 : rnd 0 = 0%R.
Hypothesis rnd_1 : rnd 1 = 1%R.
Hypothesis log10_monotone :
  forall x y : R, (1 <= x)%R -> (x <= y)%R -> (Math_log10 x <= Math_log10 y)%R.
Hypothesis log10_nonneg : forall x : R, (1 <= x)%R -> (0 <= Math_log10 x)%R.

Lemma Math_round_monotone (x y : R) :
  (x <= y)%R -> Math_round x <= Math_round y.
Proof. intros H. unfold Math_round. apply Zfloor_le. lra. Qed.

Lemma viewsPerDay_monotone (views views' ageDays : Z) :
  0 <= views <= views' ->
  (0 <= fdiv (IZR views) (IZR (Z.max 1 ageDays))
   <= fdiv (IZR views') (IZR (Z.max 1 ageDays)))%R.
Proof.
  intros [H0 Hle]. unfold fdiv.
  assert (Ha : (1 <= IZR (Z.max 1 ageDays))%R) by (apply IZR_le; lia).
  assert (Hv : (0 <= IZR views)%R) by (now apply IZR_le).
  assert (Hvv : (IZR views <= IZR views')%R) by (now apply IZR_le).
  assert (Hinv : (0 < / IZR (Z.max 1 ageDays))%R)
    by (apply Rinv_0_lt_compat; lra).
  split.
  - rewrite <- rnd_0. apply rnd_monotone. unfold Rdiv.
    apply Rmult_le_pos; lra.
  - apply rnd_monotone. unfold Rdiv. apply Rmult_le_compat_r; lra.
Qed.

Lemma logLikes_monotone (likes likes' : Z) :
  0 <= likes <= likes' ->
  (0 <= Math_log10 (fadd (IZR likes) 10)
   <= Math_log10 (fadd (IZR likes') 10))%R.
Proof.
  intros [H0 Hle]. unfold fadd.
  assert (Hl : (0 <= IZR likes)%R) by (now apply IZR_le).
  assert (Hll : (IZR likes <= IZR likes')%R) by (now apply IZR_le).
  assert (H1 : (1 <= rnd (IZR likes + 10))%R)
    by (rewrite <- rnd_1; apply rnd_monotone; lra).
  split.
  - now apply log10_nonneg.
  - apply log10_monotone; [exact H1|]. apply rnd_monotone. lra.
Qed.

(** C6.  For views and likes that are not negative, [computeVelocity] does
    not decrease when the views grow, the likes and the age being the
    same, and does not decrease when the likes grow, the views and the age
    being the same. *)
Theorem computeVelocity_monotone (views views' likes likes' ageDays : Z) :
  0 <= views <= views' -> 0 <= likes <= likes' -> 1 <= ageDays ->
  computeVelocity views likes ageDays <= computeVelocity views' likes ageDays
  /\ computeVelocity views likes ageDays <= computeVelocity views likes' ageDays.
Proof.
  intros Hv Hl _.
  destruct (viewsPerDay_monotone views views' ageDays Hv) as [Hv0 Hvle].
  destruct (logLikes_monotone likes likes' Hl) as [Hl0 Hlle].
  unfold computeVelocity, fmul. split.
  - apply Math_round_monotone, rnd_monotone.
    now apply Rmult_le_compat_r.
  - apply Math_round_monotone, rnd_monotone.
    now apply Rmult_le_compat_l.
Qed.

End VelocityMonotone.

(** ** The cache and the loop over the inputs *)

Local Abbreviation peek := (LRUCache.peek key_eqb).
Local Abbreviation remove := (LRUCache.remove key_eqb).
Local Abbreviation e_key := LRUCache.e_key.
Local Abbreviation e_value := LRUCache.e_value.
Local Abbreviation e_start := LRUCache.e_start.

Lemma refType_eqb_eq (a b : RefType) : refType_eqb a b = true <-> a = b.
Proof. destruct a, b; simpl; split; congruence. Qed.

Lemma key_eqb_eq (a b : Key) : key_eqb a b = true <-> a = b.
Proof.
  destruct a as [[[ta va] da] ma], b as [[[tb vb] db] mb].
  unfold key_eqb; cbn [ref_type ref_value].
  rewrite !andb_true_iff, refType_eqb_eq, str_eqb_eq, !Z.eqb_eq.
  split.
  - intros [[[-> ->] ->] ->]. reflexivity.
  - intros [= -> -> -> ->]. auto.
Qed.

Lemma key_eqb_refl (a : Key) : key_eqb a a = true.
Proof. now apply key_eqb_eq. Qed.

Lemma key_eqb_neq (a b : Key) : key_eqb a b = false <-> a <> b.
Proof.
  rewrite <- key_eqb_eq. destruct (key_eqb a b); split; congruence.
Qed.

Lemma peek_In (k : Key) (c : Cache) (e : LRUCache.Entry Key Bundle) :
  peek k c = Some e -> In e c /\ e_key e = k.
Proof.
  induction c as [|e0 c IH]; simpl; [discriminate|].
  destruct (key_eqb (e_key e0) k) eqn:E.
  - intros [= <-]. apply key_eqb_eq in E. auto.
  - intros H. destruct (IH H). auto.
Qed.

Lemma In_remove (k : Key) (c : Cache) (e : LRUCache.Entry Key Bundle) :
  In e (remove k c) -> In e c.
Proof. unfold LRUCache.remove. intros H. now apply filter_In in H. Qed.

Lemma peek_remove_other (k k' : Key) (c : Cache) :
  k' <> k -> peek k (remove k' c) = peek k c.
Proof.
  intros Hne. induction c as [|e0 c IH]; simpl; [reflexivity|].
  destruct (key_eqb (e_key e0) k') eqn:E'; simpl.
  - apply key_eqb_eq in E'.
    assert (E : key_eqb (e_key e0) k = false)
      by (apply key_eqb_neq; congruence).
    now rewrite E.
  - destruct (key_eqb (e_key e0) k); [reflexivity | exact IH].
Qed.

Lemma In_removelast {A} (l : list A) (x : A) : In x (removelast l) -> In x l.
Proof.
  induction l as [|y l IH]; simpl; [tauto|].
  destruct l as [|z l]; [intros [] | ].
  intros [-> | H]; [now left | right; now apply IH].
Qed.

(** *** The monad *)

Lemma bind_inv {A B} (m : M A) (f : A -> M B) (s s' : State)
    (o : outcome B) :
  bind m f s = (o, s') ->
  (exists a s1, m s = (Ret a, s1) /\ f a s1 = (o, s'))
  \/ (exists e, m s = (Throw e, s') /\ o = Throw e)
  \/ (m s = (Diverge, s') /\ o = Diverge).
Proof.
  unfold bind. destruct (m s) as [[a|e|] s1]; intros H.
  - left. exists a, s1. auto.
  - right; left. injection H as <- <-. exists e. auto.
  - right; right. injection H as <- <-. auto.
Qed.

Lemma callsMono_ret {A} (a : A) : callsMono (ret a).
Proof. intros s o s' [= <- <-]. lia. Qed.

Lemma callsMono_throw {A} (e : str) : callsMono (@throw A e).
Proof. intros s o s' [= <- <-]. lia. Qed.

Lemma callsMono_diverge {A} : callsMono (@diverge A).
Proof. intros s o s' [= <- <-]. lia. Qed.

Lemma callsMono_bind {A B} (m : M A) (f : A -> M B) :
  callsMono m -> (forall a, callsMono (f a)) -> callsMono (bind m f).
Proof.
  intros Hm Hf s o s' H.
  apply bind_inv in H as [(a & s1 & H1 & H2) | [(e & H1 & _) | [H1 _]]].
  - apply Hm in H1. apply Hf in H2. lia.
  - now apply Hm in H1.
  - now apply Hm in H1.
Qed.

Lemma ytGET_inv {A} (answer : str + A) (s s' : State) (o : outcome A) :
  ytGET answer s = (o, s') ->
  cache s' = cache s /\ calls s' = S (calls s)
  /\ o = match answer with inl e => Throw e | inr a => Ret a end.
Proof.
  unfold ytGET. destruct answer; intros [= <- <-]; auto.
Qed.

Lemma callsMono_ytGET {A} (answer : str + A) : callsMono (ytGET answer).
Proof. intros s o s' H. apply ytGET_inv in H as (_ & -> & _). lia. Qed.

Lemma cacheStable_ret {A} (a : A) : cacheStable (ret a).
Proof. now intros s o s' [= <- <-]. Qed.

Lemma cacheStable_throw {A} (e : str) : cacheStable (@throw A e).
Proof. now intros s o s' [= <- <-]. Qed.

Lemma cacheStable_diverge {A} : cacheStable (@diverge A).
Proof. now intros s o s' [= <- <-]. Qed.

Lemma cacheStable_bind {A B} (m : M A) (f : A -> M B) :
  cacheStable m -> (forall a, cacheStable (f a)) -> cacheStable (bind m f).
Proof.
  intros Hm Hf s o s' H.
  apply bind_inv in H as [(a & s1 & H1 & H2) | [(e & H1 & _) | [H1 _]]].
  - apply Hm in H1. apply Hf in H2. congruence.
  - now apply Hm in H1.
  - now apply Hm in H1.
Qed.

Lemma cacheStable_ytGET {A} (answer : str + A) : cacheStable (ytGET answer).
Proof. intros s o s' H. now apply ytGET_inv in H. Qed.

Create HintDb fetch.

#[local] Hint Resolve callsMono_ret callsMono_throw callsMono_diverge
  callsMono_ytGET cacheStable_ret cacheStable_throw cacheStable_diverge
  cacheStable_ytGET : fetch.

Lemma resolveChannel_fetch (env : Env) (parsed : ChannelRef) :
  callsMono (resolveChannel env parsed)
  /\ cacheStable (resolveChannel env parsed).
Proof.
  unfold resolveChannel. split.
  - apply callsMono_bind; auto with fetch. intros [|ch items]; auto with fetch.
  - apply cacheStable_bind; auto with fetch. intros [|ch items]; auto with fetch.
Qed.

Lemma listPlaylistLoop_fetch (fuel : nat) (env : Env) (playlistId : str)
    (maxVideos : Z) (pageToken : option str) (ids : list str) :
  callsMono (listPlaylistLoop fuel env playlistId maxVideos pageToken ids)
  /\ cacheStable (listPlaylistLoop fuel env playlistId maxVideos pageToken ids).
Proof.
  revert pageToken ids. induction fuel as [|fuel IH]; intros pageToken ids;
    cbn [listPlaylistLoop];
    destruct (Z.of_nat (List.length ids) <? maxVideos); auto with fetch.
  split.
  - apply callsMono_bind; auto with fetch. intros res.
    destruct (falsy (pp_nextPageToken res)
              || (Z.of_nat (List.length (pp_items res)) =? 0));
      [auto with fetch | apply IH].
  - apply cacheStable_bind; auto with fetch. intros res.
    destruct (falsy (pp_nextPageToken res)
              || (Z.of_nat (List.length (pp_items res)) =? 0));
      [auto with fetch | apply IH].
Qed.

Lemma getChunks_fetch (env : Env) (cs : list (list str))
    (out : list VideoItem) :
  callsMono (getChunks env cs out) /\ cacheStable (getChunks env cs out).
Proof.
  revert out. induction cs as [|chunk cs IH]; intros out; cbn [getChunks];
    [auto with fetch|].
  split.
  - apply callsMono_bind; auto with fetch. intros items. apply IH.
  - apply cacheStable_bind; auto with fetch. intros items. apply IH.
Qed.

Lemma resolveChannel_inv (env : Env) (parsed : ChannelRef) (s s' : State)
    (o : outcome Channel) :
  resolveChannel env parsed s = (o, s') ->
  cache s' = cache s /\ calls s' = S (calls s)
  /\ o = match up_channels (upstream env) parsed with
         | inl e => Throw e
         | inr [] => Throw (lit "Không tìm thấy channel: " ++ ref_value parsed)
         | inr (ch :: _) =>
             Ret {| channelId := ci_id ch;
                    title := ci_title ch;
                    uploadsPlaylistId := ci_uploads ch;
                    subscribers := numberOr0 (ci_subscriberCount ch);
                    totalViews := numberOr0 (ci_viewCount ch);
                    videoCount := numberOr0 (ci_videoCount ch) |}
         end.
Proof.
  unfold resolveChannel, bind, ytGET.
  destruct (up_channels (upstream env) parsed) as [e|[|ch items]];
    intros [= <- <-]; auto.
Qed.

Lemma In_set (now : Z) (k : Key) (b : Bundle) (c : Cache)
    (x : LRUCache.Entry Key Bundle) :
  In x (LRUCache.set key_eqb cache_max now k b c) ->
  x = {| LRUCache.e_key := k; LRUCache.e_value := b; LRUCache.e_start := now |}
  \/ In x c.
Proof.
  unfold LRUCache.set. destruct (peek k c).
  - intros [<- | H]; [now left | right; now apply In_remove in H].
  - intros [<- | H]; [now left | right].
    destruct (cache_max <=? List.length c)%nat; [now apply In_removelast | exact H].
Qed.

(** What a fetch does to the state. *)
Lemma fetchBundle_inv (fuel : nat) (env : Env) (body : Parsed) (cutoff : Z)
    (parsed : ChannelRef) (s s' : State) (o : outcome Bundle) :
  fetchBundle fuel env body cutoff parsed s = (o, s') ->
  (calls s < calls s')%nat
  /\ match o with
     | Ret b =>
         (exists ch videos, b = buildBundle env cutoff ch videos)
         /\ cache s'
            = LRUCache.set key_eqb cache_max (now env) (cacheKey parsed body)
                b (cache s)
     | _ => cache s' = cache s
     end.
Proof.
  unfold fetchBundle. intros H.
  apply bind_inv in H as [(ch & s1 & H1 & H) | [(e & H1 & ->) | [H1 ->]]];
    try (apply resolveChannel_inv in H1 as (Hc & Hn & _); split; [lia | exact Hc]).
  apply resolveChannel_inv in H1 as (Hc1 & Hn1 & _).
  destruct (falsy (uploadsPlaylistId ch)).
  { injection H as <- <-. split; [lia | exact Hc1]. }
  apply bind_inv in H as [(ids & s2 & H2 & H) | [(e & H2 & ->) | [H2 ->]]];
    pose proof (proj1 (listPlaylistLoop_fetch fuel env
                         (orEmpty (uploadsPlaylistId ch)) (p_maxVideos body)
                         None []) _ _ _ H2) as Hn2;
    pose proof (proj2 (listPlaylistLoop_fetch fuel env
                         (orEmpty (uploadsPlaylistId ch)) (p_maxVideos body)
                         None []) _ _ _ H2) as Hc2;
    try (split; [lia | congruence]).
  apply bind_inv in H as [(videos & s3 & H3 & H) | [(e & H3 & ->) | [H3 ->]]];
    pose proof (proj1 (getChunks_fetch env
                         (chunks50 (List.length ids) ids) []) _ _ _ H3) as Hn3;
    pose proof (proj2 (getChunks_fetch env
                         (chunks50 (List.length ids) ids) []) _ _ _ H3) as Hc3;
    try (split; [lia | congruence]).
  unfold bind, cache_set, ret in H. injection H as <- <-.
  cbn [cache calls]. split; [lia|]. split; [eauto|]. congruence.
Qed.

Lemma remove_absent (k : Key) (c : Cache) : peek k c = None -> remove k c = c.
Proof.
  induction c as [|e0 c IH]; simpl; [reflexivity|].
  destruct (key_eqb (e_key e0) k); [discriminate|].
  intros H. simpl. now rewrite IH.
Qed.

(** What getting the bundle of one input does: a hit on an unexpired
    entry, or a fetch. *)
Lemma bundleOf_inv (fuel : nat) (env : Env) (body : Parsed) (cutoff : Z)
    (x : str) (s s' : State) (o : outcome Bundle) :
  bundleOf fuel env body cutoff x s = (o, s') ->
  let key := cacheKey (parseChannelInput x) body in
  (exists e, entryOf body x s = Some e
             /\ now env - e_start e <= cache_ttl
             /\ o = Ret (e_value e)
             /\ s' = {| cache := e :: remove key (cache s);
                        calls := calls s |})
  \/ ((entryOf body x s = None \/ expired env body s x)
      /\ (calls s < calls s')%nat
      /\ match o with
         | Ret b =>
             (exists ch videos, b = buildBundle env cutoff ch videos)
             /\ cache s'
                = LRUCache.set key_eqb cache_max (now env) key b
                    (remove key (cache s))
         | _ => cache s' = remove key (cache s)
         end).
Proof.
  intros H key. unfold bundleOf, bind, cache_get, LRUCache.get in H.
  fold key in H. unfold entryOf, expired, entryOf. fold key.
  destruct (peek key (cache s)) as [e|] eqn:Epeek.
  - unfold LRUCache.isStale in H.
    destruct (Z.ltb_spec cache_ttl (now env - e_start e)) as [Hst|Hfresh].
    + right. split; [right; eauto|].
      apply fetchBundle_inv in H. exact H.
    + left. exists e. injection H as <- <-. auto.
  - right. split; [now left|].
    apply fetchBundle_inv in H. cbn [cache calls] in H.
    rewrite (remove_absent _ _ Epeek).
    destruct s; exact H.
Qed.

Lemma bundleOf_hit (fuel : nat) (env : Env) (body : Parsed) (cutoff : Z)
    (x : str) (s : State) (b : Bundle) :
  cached env body s x b ->
  exists e, entryOf body x s = Some e /\ e_value e = b
    /\ bundleOf fuel env body cutoff x s
       = (Ret b, {| cache := e :: remove (cacheKey (parseChannelInput x) body)
                                    (cache s);
                    calls := calls s |}).
Proof.
  intros (e & He & Hv & Hfresh). exists e. split; [exact He|]. split; [exact Hv|].
  unfold bundleOf, bind, cache_get, LRUCache.get.
  unfold entryOf in He. rewrite He. unfold LRUCache.isStale.
  destruct (Z.ltb_spec cache_ttl (now env - e_start e)); [lia|].
  now rewrite Hv.
Qed.

(** *** Runs *)

Lemma forEach_run (fuel : nat) (env : Env) (body : Parsed) (cutoff : Z)
    (l : list str) (acc acc' : list Channel * list Row) (s s' : State) :
  forEach (processInput fuel env body cutoff) l acc s = (Ret acc', s') <->
  exists bs,
    runInputs fuel env body cutoff l s bs s'
    /\ acc' = (fst acc ++ map b_ch bs, snd acc ++ flat_map b_rows bs).
Proof.
  revert acc s. induction l as [|x l IH]; intros acc s; cbn [forEach].
  - unfold ret. split.
    + intros [= <- <-]. exists []. split; [constructor|].
      simpl. rewrite !app_nil_r. now destruct acc.
    + intros (bs & Hrun & ->). inversion Hrun; subst.
      simpl. rewrite !app_nil_r. now destruct acc.
  - unfold processInput at 1. unfold bind at 1 2. unfold ret at 1. split.
    + destruct (bundleOf fuel env body cutoff x s) as [[b|e|] s1] eqn:Eb;
        try discriminate.
      intros H. apply IH in H as (bs & Hrun & ->). cbn [fst snd].
      exists (b :: bs). split; [econstructor; eauto|].
      cbn [map flat_map]. now rewrite <- !app_assoc.
    + intros (bs & Hrun & ->). inversion Hrun; subst.
      match goal with H : bundleOf _ _ _ _ _ _ = _ |- _ => rewrite H end.
      apply IH. eexists. split; [eassumption|].
      cbn [fst snd map flat_map]. now rewrite <- !app_assoc.
Qed.

Lemma bundleOf_callsMono (fuel : nat) (env : Env) (body : Parsed)
    (cutoff : Z) (x : str) :
  callsMono (bundleOf fuel env body cutoff x).
Proof.
  intros s o s' H. apply bundleOf_inv in H as [(e & _ & _ & _ & ->) | (_ & Hlt & _)].
  - simpl. lia.
  - lia.
Qed.

Lemma forEach_callsMono (fuel : nat) (env : Env) (body : Parsed)
    (cutoff : Z) (l : list str) (acc : list Channel * list Row) :
  callsMono (forEach (processInput fuel env body cutoff) l acc).
Proof.
  revert acc. induction l as [|x l IH]; intros acc; cbn [forEach];
    [auto with fetch|].
  apply callsMono_bind; [|intros a; apply IH].
  unfold processInput. apply callsMono_bind; auto with fetch.
  apply bundleOf_callsMono.
Qed.

(** The handler answers with a payload exactly when the key is set, the
    body is valid and the loop runs to its end. *)
Lemma POST_ok (fuel : nat) (env : Env) (raw : Body) (s s' : State)
    (r : V2Response) :
  POST fuel env raw s = (Some (OkResponse r), s') <->
  falsy (YT_API_KEY env) = false
  /\ exists body bs,
       BodySchema_parse raw = Some body
       /\ runInputs fuel env body (cutoffOf env (p_days body))
            (p_inputs body) s bs s'
       /\ r = respond body (map b_ch bs, flat_map b_rows bs).
Proof.
  unfold POST, handle, parseBody.
  destruct (falsy (YT_API_KEY env)); [split; [discriminate | intros [[=] _]]|].
  destruct (BodySchema_parse raw) as [body|].
  - unfold bind at 1. unfold ret at 1. unfold bind at 1.
    destruct (forEach _ (p_inputs body) ([], []) s) as [[acc|e|] s1] eqn:E.
    + apply forEach_run in E as (bs & Hrun & ->). cbn [fst snd app].
      unfold ret. split.
      * intros [= <- <-]. split; [reflexivity|]. exists body, bs. auto.
      * intros (_ & body' & bs' & [= <-] & Hrun' & ->).
        assert (Hdet : bs' = bs /\ s' = s1).
        { clear - Hrun Hrun'. revert bs' s' Hrun'.
          induction Hrun; intros bs' s' Hrun'; inversion Hrun'; subst; auto.
          match goal with
          | H1 : bundleOf _ _ _ _ ?x ?s = _, H2 : bundleOf _ _ _ _ ?x ?s = _ |- _ =>
              rewrite H1 in H2; injection H2 as <- <-
          end.
          match goal with
          | H : runInputs _ _ _ _ _ _ _ _ |- _ =>
              apply IHHrun in H as [-> ->]
          end. auto. }
        destruct Hdet as [-> ->]. reflexivity.
    + split; [discriminate|].
      intros (_ & body' & bs' & [= <-] & Hrun' & _).
      assert (Hr : forEach (processInput fuel env body (cutoffOf env (p_days body)))
                     (p_inputs body) ([], []) s
                   = (Ret ([] ++ map b_ch bs', [] ++ flat_map b_rows bs'), s'))
        by (apply forEach_run; eauto).
      congruence.
    + split; [discriminate|].
      intros (_ & body' & bs' & [= <-] & Hrun' & _).
      assert (Hr : forEach (processInput fuel env body (cutoffOf env (p_days body)))
                     (p_inputs body) ([], []) s
                   = (Ret ([] ++ map b_ch bs', [] ++ flat_map b_rows bs'), s'))
        by (apply forEach_run; eauto).
      congruence.
  - unfold bind, throw. split; [discriminate|].
    intros (_ & body' & bs' & [=] & _).
Qed.

Lemma handle_callsMono (fuel : nat) (env : Env) (raw : Body) :
  callsMono (handle fuel env raw).
Proof.
  unfold handle. apply callsMono_bind.
  - unfold parseBody. destruct (BodySchema_parse raw); auto with fetch.
  - intros body. apply callsMono_bind; [apply forEach_callsMono|].
    intros acc. auto with fetch.
Qed.

Lemma POST_callsMono (fuel : nat) (env : Env) (raw : Body) (s s' : State)
    (o : option Response) :
  POST fuel env raw s = (o, s') -> (calls s <= calls s')%nat.
Proof.
  unfold POST. destruct (falsy (YT_API_KEY env)); [intros [= <- <-]; lia|].
  destruct (handle fuel env raw s) as [[r|e|] s1] eqn:E; intros [= <- <-];
    now apply handle_callsMono in E.
Qed.

(** *** Hits and refetches *)

(** A hit moves the entry it reads to the front and changes no entry. *)
Lemma entryOf_after_hit (body : Parsed) (x y : str) (s : State) (n : nat)
    (ey : LRUCache.Entry Key Bundle) :
  entryOf body y s = Some ey ->
  entryOf body x
    {| cache := ey :: remove (cacheKey (parseChannelInput y) body) (cache s);
       calls := n |}
  = entryOf body x s.
Proof.
  unfold entryOf. cbn [cache]. intros Hy.
  set (ky := cacheKey (parseChannelInput y) body) in *.
  set (kx := cacheKey (parseChannelInput x) body) in *.
  destruct (peek_In _ _ _ Hy) as [_ Hk]. cbn [LRUCache.peek]. rewrite Hk.
  destruct (key_eqb ky kx) eqn:E.
  - apply key_eqb_eq in E. rewrite <- E. now rewrite Hy.
  - apply key_eqb_neq in E. now apply peek_remove_other.
Qed.

Lemma runs_all_cached (fuel : nat) (env : Env) (body : Parsed) (cutoff : Z)
    (l : list str) (bs : list Bundle) (s : State) :
  Forall2 (cached env body s) l bs ->
  exists s', runInputs fuel env body cutoff l s bs s'
             /\ calls s' = calls s
             /\ forall x, entryOf body x s' = entryOf body x s.
Proof.
  intros H. revert s H. revert bs.
  induction l as [|y l IH]; intros bs s H; inversion H as [|? b ? bs' Hy Hl]; subst.
  - exists s. split; [constructor | auto].
  - destruct (bundleOf_hit fuel env body cutoff y s b Hy) as (ey & Hey & Hv & Hrun).
    set (s1 := {| cache := ey :: remove (cacheKey (parseChannelInput y) body) (cache s);
                  calls := calls s |}) in *.
    assert (Hsame : forall x, entryOf body x s1 = entryOf body x s)
      by (intros x; now apply entryOf_after_hit).
    destruct (IH bs' s1) as (s' & Hruns & Hcalls & Hent).
    { eapply Forall2_impl; [|exact Hl].
      intros x b' (e & He & Hb & Hf). exists e. rewrite Hsame. auto. }
    exists s'. split; [econstructor; eauto|]. split; [exact Hcalls|].
    intros x. now rewrite Hent, Hsame.
Qed.

Lemma forEach_refetch (fuel : nat) (env : Env) (body : Parsed) (cutoff : Z)
    (l : list str) (acc : list Channel * list Row) (s s' : State)
    (o : outcome (list Channel * list Row)) (x : str) :
  In x l -> entryOf body x s = None \/ expired env body s x ->
  forEach (processInput fuel env body cutoff) l acc s = (o, s') ->
  (calls s < calls s')%nat.
Proof.
  revert acc s. induction l as [|y l IH]; intros acc s Hin Hx H; [destruct Hin|].
  cbn [forEach] in H.
  apply bind_inv in H as [(acc1 & s1 & H1 & H2) | [(e & H1 & _) | [H1 _]]].
  - unfold processInput in H1.
    apply bind_inv in H1 as [(b & s0 & Hb & [= <- <-]) | [(e & _ & [=]) | [_ [=]]]].
    pose proof (forEach_callsMono _ _ _ _ _ _ _ _ _ H2) as Hmono.
    apply bundleOf_inv in Hb as [(ey & Hey & Hfresh & _ & ->) | (_ & Hlt & _)];
      [|lia].
    assert (Hsame : entryOf body x
                      {| cache := ey :: remove (cacheKey (parseChannelInput y) body) (cache s);
                         calls := calls s |}
                    = entryOf body x s) by (now apply entryOf_after_hit).
    assert (Hxl : In x l).
    { destruct Hin as [<- | Hin]; [|exact Hin]. exfalso.
      destruct Hx as [Hx | (e & Hx & Hexp)]; rewrite Hx in Hey;
        [discriminate | injection Hey as <-; lia]. }
    change (calls s) with
      (calls {| cache := ey :: remove (cacheKey (parseChannelInput y) body) (cache s);
                calls := calls s |}).
    eapply IH; [exact Hxl | | exact H2].
    unfold expired. rewrite Hsame. exact Hx.
  - unfold processInput in H1.
    apply bind_inv in H1 as [(b & s0 & Hb & [=]) | [(e0 & Hb & _) | [Hb _]]];
      apply bundleOf_inv in Hb as [(ey & _ & _ & [=] & _) | (_ & Hlt & _)]; lia.
  - unfold processInput in H1.
    apply bind_inv in H1 as [(b & s0 & Hb & [=]) | [(e0 & Hb & _) | [Hb _]]];
      apply bundleOf_inv in Hb as [(ey & _ & _ & [=] & _) | (_ & Hlt & _)]; lia.
Qed.

(** C2.  While unexpired entries are stored under the keys of all the
    inputs of a request, the request sends nothing to the provider and
    answers with the stored bundles as they are; a request one of whose
    keys has an expired entry (or none) sends at least one request to the
    provider.  An entry expires 6 hours after it was set; the cache
    holds 500 entries. *)
Theorem cache_hit_skips_provider (fuel : nat) (env : Env) (raw : Body)
    (body : Parsed) (s : State) :
  falsy (YT_API_KEY env) = false ->
  BodySchema_parse raw = Some body ->
  cache_ttl = 6 * 60 * 60 * 1000 /\ cache_max = 500%nat
  /\ (forall bs,
        Forall2 (cached env body s) (p_inputs body) bs ->
        exists s',
          POST fuel env raw s
          = (Some (OkResponse
                     (respond body (map b_ch bs, flat_map b_rows bs))), s')
          /\ calls s' = calls s)
  /\ (forall x o s',
        In x (p_inputs body) ->
        entryOf body x s = None \/ expired env body s x ->
        POST fuel env raw s = (o, s') ->
        (calls s < calls s')%nat).
Proof.
  intros Hkey Hbody. split; [reflexivity|]. split; [reflexivity|]. split.
  - intros bs Hall.
    destruct (runs_all_cached fuel env body (cutoffOf env (p_days body))
                (p_inputs body) bs s Hall) as (s' & Hrun & Hcalls & _).
    exists s'. split; [|exact Hcalls].
    apply POST_ok. split; [exact Hkey|]. exists body, bs. auto.
  - intros x o s' Hin Hx. unfold POST, handle, parseBody.
    rewrite Hkey, Hbody. unfold bind at 1. unfold ret at 1.
    intros H.
    destruct (bind _ _ s) as [[r|e|] s1] eqn:E; injection H as _ <-;
      apply bind_inv in E as [(a & s2 & E1 & E2) | [(e1 & E1 & _) | [E1 _]]];
      try (injection E2 as _ <-);
      eapply forEach_refetch; eauto.
Qed.

(** ** The window *)

Lemma inWindow_publishedAfter (cutoff : Z) (r : Row) :
  inWindow cutoff r = true <-> publishedAfter cutoff r.
Proof.
  unfold inWindow, publishedAfter. split.
  - destruct (r_publishedAt r) as [s|]; [|discriminate].
    intros H. apply andb_true_iff in H as [Hs H].
    destruct (parseDate s) as [p|] eqn:Ep; [|discriminate].
    apply Z.ltb_lt in H. exists s, p. repeat split; auto.
    intros ->. discriminate.
  - intros (s & p & -> & Hs & -> & Hlt).
    apply andb_true_iff. split; [destruct s; [congruence | reflexivity] | now apply Z.ltb_lt].
Qed.

Lemma buildBundle_rowsAfter (env : Env) (cutoff : Z) (ch : Channel)
    (videos : list VideoItem) :
  rowsAfter cutoff (b_rows (buildBundle env cutoff ch videos)).
Proof.
  intros r Hr. cbn [buildBundle b_rows] in Hr.
  apply filter_In in Hr as [_ Hr]. now apply inWindow_publishedAfter.
Qed.

Lemma rowsAfter_le (c1 c2 : Z) (rows : list Row) :
  c1 <= c2 -> rowsAfter c2 rows -> rowsAfter c1 rows.
Proof.
  intros Hle H r Hr. destruct (H r Hr) as (s & p & H1 & H2 & H3 & H4).
  exists s, p. repeat split; auto. lia.
Qed.

(** Getting the bundle of an input keeps the cache windowed, and the
    bundle it returns was inside the window at an instant no more than the
    time to live before now. *)
Lemma bundleOf_windowed (fuel : nat) (env : Env) (body : Parsed) (x : str)
    (s s' : State) (o : outcome Bundle) :
  cacheWindowed (cache s) ->
  bundleOf fuel env body (cutoffOf env (p_days body)) x s = (o, s') ->
  cacheWindowed (cache s')
  /\ forall b, o = Ret b ->
       exists t0, now env - t0 <= cache_ttl
                  /\ rowsAfter (t0 - p_days body * dayMs) (b_rows b).
Proof.
  intros Hw H. apply bundleOf_inv in H.
  destruct H as [(e & He & Hfresh & -> & ->) | (_ & _ & H)].
  - apply peek_In in He as [Hin Hk]. split.
    + intros e' [<- | He']; [now apply Hw|]. apply In_remove in He'. now apply Hw.
    + intros b [= <-]. exists (e_start e). split; [exact Hfresh|].
      specialize (Hw e Hin). now rewrite Hk in Hw.
  - assert (Hrm : cacheWindowed
                    (remove (cacheKey (parseChannelInput x) body) (cache s)))
      by (intros e' He'; apply In_remove in He'; now apply Hw).
    destruct o as [b|e|]; try (rewrite H; split; [exact Hrm | discriminate]).
    destruct H as [(ch & videos & ->) Hc]. split.
    + rewrite Hc. intros e' He'. apply In_set in He' as [-> | He'];
        [|now apply Hrm].
      cbn [LRUCache.e_start LRUCache.e_key LRUCache.e_value cacheKey fst snd].
      apply buildBundle_rowsAfter.
    + intros b [= <-]. exists (now env).
      split; [unfold cache_ttl; lia | apply buildBundle_rowsAfter].
Qed.

Lemma run_windowed (fuel : nat) (env : Env) (body : Parsed) (l : list str)
    (s s' : State) (bs : list Bundle) :
  cacheWindowed (cache s) ->
  runInputs fuel env body (cutoffOf env (p_days body)) l s bs s' ->
  cacheWindowed (cache s')
  /\ forall b, In b bs ->
       exists t0, now env - t0 <= cache_ttl
                  /\ rowsAfter (t0 - p_days body * dayMs) (b_rows b).
Proof.
  intros Hw Hrun. induction Hrun as [s | x l s b s1 bs s2 Hb Hrun IH].
  - split; [exact Hw | intros b []].
  - destruct (bundleOf_windowed _ _ _ _ _ _ _ Hw Hb) as [Hw1 Hb1].
    destruct (IH Hw1) as [Hw2 Hbs]. split; [exact Hw2|].
    intros b' [<- | Hb']; [now apply Hb1 | now apply Hbs].
Qed.

Lemma forEach_windowed (fuel : nat) (env : Env) (body : Parsed)
    (l : list str) (acc : list Channel * list Row) (s s' : State)
    (o : outcome (list Channel * list Row)) :
  cacheWindowed (cache s) ->
  forEach (processInput fuel env body (cutoffOf env (p_days body))) l acc s
  = (o, s') ->
  cacheWindowed (cache s').
Proof.
  revert acc s. induction l as [|x l IH]; intros acc s Hw H; cbn [forEach] in H.
  - now injection H as _ <-.
  - apply bind_inv in H as [(acc1 & s1 & H1 & H2) | [(e & H1 & _) | [H1 _]]].
    + unfold processInput in H1.
      apply bind_inv in H1 as [(b & s0 & Hb & [= <- <-]) | [(e & _ & [=]) | [_ [=]]]].
      apply (bundleOf_windowed _ _ _ _ _ _ _ Hw) in Hb as [Hw1 _].
      now apply (IH _ _ Hw1 H2).
    + unfold processInput in H1.
      apply bind_inv in H1 as [(b & s0 & Hb & [=]) | [(e0 & Hb & _) | [Hb _]]];
        now apply (bundleOf_windowed _ _ _ _ _ _ _ Hw) in Hb as [Hw1 _].
    + unfold processInput in H1.
      apply bind_inv in H1 as [(b & s0 & Hb & [=]) | [(e0 & Hb & _) | [Hb _]]];
        now apply (bundleOf_windowed _ _ _ _ _ _ _ Hw) in Hb as [Hw1 _].
Qed.

(** Whatever the outcome of a request, it leaves the cache windowed. *)
Lemma POST_cacheWindowed (fuel : nat) (env : Env) (raw : Body)
    (s s' : State) (o : option Response) :
  cacheWindowed (cache s) -> POST fuel env raw s = (o, s') ->
  cacheWindowed (cache s').
Proof.
  intros Hw. unfold POST.
  destruct (falsy (YT_API_KEY env)); [now intros [= _ <-]|].
  destruct (handle fuel env raw s) as [o1 s1] eqn:E.
  assert (Hw1 : cacheWindowed (cache s1)).
  { unfold handle, parseBody in E.
    destruct (BodySchema_parse raw) as [body|].
    - unfold bind at 1 in E. unfold ret at 1 in E.
      apply bind_inv in E as [(a & s2 & E1 & [= _ <-]) | [(e & E1 & _) | [E1 _]]];
        now apply forEach_windowed in E1.
    - unfold bind, throw in E. now injection E as _ <-. }
  destruct o1; now intros [= _ <-].
Qed.

Lemma flat_map_rows (bs : list Bundle) (row : Row) :
  In row (flat_map b_rows bs) <-> exists b, In b bs /\ In row (b_rows b).
Proof. apply in_flat_map. Qed.

(** *** A cache that holds nothing usable for the request *)

Lemma peek_removelast (k : Key) (c : Cache) :
  peek k (removelast c) = peek k c \/ peek k (removelast c) = None.
Proof.
  induction c as [|e c IH]; [now left|].
  destruct c as [|e' c]; [now right|].
  change (removelast (e :: e' :: c)) with (e :: removelast (e' :: c)).
  cbn [LRUCache.peek]. destruct (key_eqb (e_key e) k); [now left | exact IH].
Qed.

Lemma peek_set_same (now : Z) (k : Key) (b : Bundle) (c : Cache) :
  peek k (LRUCache.set key_eqb cache_max now k b c)
  = Some {| LRUCache.e_key := k; LRUCache.e_value := b;
            LRUCache.e_start := now |}.
Proof.
  unfold LRUCache.set.
  destruct (peek k c); cbn [LRUCache.peek LRUCache.e_key];
    now rewrite key_eqb_refl.
Qed.

Lemma peek_set_other (now : Z) (k k' : Key) (b : Bundle) (c : Cache) :
  k <> k' ->
  peek k' (LRUCache.set key_eqb cache_max now k b c) = peek k' c
  \/ peek k' (LRUCache.set key_eqb cache_max now k b c) = None.
Proof.
  intros Hne. apply key_eqb_neq in Hne as Hne'. unfold LRUCache.set.
  destruct (peek k c); cbn [LRUCache.peek LRUCache.e_key]; rewrite Hne'.
  - left. now apply peek_remove_other.
  - destruct (cache_max <=? List.length c)%nat; [apply peek_removelast | now left].
Qed.

Lemma bundleOf_fresh (fuel : nat) (env : Env) (body : Parsed) (y : str)
    (s s' : State) (b : Bundle) :
  freshOrAbsent env body s y ->
  bundleOf fuel env body (cutoffOf env (p_days body)) y s = (Ret b, s') ->
  rowsAfter (cutoffOf env (p_days body)) (b_rows b)
  /\ forall x, freshOrAbsent env body s x -> freshOrAbsent env body s' x.
Proof.
  intros Hy H. apply bundleOf_inv in H.
  destruct H as [(e & He & Hfresh & [= ->] & ->) | (_ & _ & (ch & videos & ->) & Hc)].
  - split.
    + destruct Hy as [[Hy | (e' & Hy & Hexp)] | (e' & Hy & Hrows)];
        rewrite Hy in He; try discriminate; injection He as <-; [lia | exact Hrows].
    + intros x Hx. unfold freshOrAbsent, uncached, expired in *.
      now rewrite (entryOf_after_hit body x y s (calls s) e He).
  - split; [apply buildBundle_rowsAfter|].
    intros x Hx. unfold freshOrAbsent, uncached, expired, entryOf in *.
    rewrite Hc.
    set (ky := cacheKey (parseChannelInput y) body) in *.
    set (kx := cacheKey (parseChannelInput x) body) in *.
    destruct (key_eqb ky kx) eqn:E.
    + apply key_eqb_eq in E. rewrite <- E, peek_set_same.
      right. eexists. split; [reflexivity|]. apply buildBundle_rowsAfter.
    + apply key_eqb_neq in E.
      destruct (peek_set_other (now env) ky kx
                  (buildBundle env (cutoffOf env (p_days body)) ch videos)
                  (remove ky (cache s)) E) as [-> | ->]; [|left; now left].
      rewrite peek_remove_other by exact E. exact Hx.
Qed.

Lemma run_fresh (fuel : nat) (env : Env) (body : Parsed) (L l : list str)
    (s s' : State) (bs : list Bundle) :
  incl l L ->
  (forall x, In x L -> freshOrAbsent env body s x) ->
  runInputs fuel env body (cutoffOf env (p_days body)) l s bs s' ->
  forall b, In b bs -> rowsAfter (cutoffOf env (p_days body)) (b_rows b).
Proof.
  intros Hincl Hall Hrun. revert Hincl Hall.
  induction Hrun as [s | y l s b s1 bs s2 Hb Hrun IH]; intros Hincl Hall.
  - intros b [].
  - assert (Hy : freshOrAbsent env body s y)
      by (apply Hall, Hincl; now left).
    destruct (bundleOf_fresh fuel env body y s s1 b Hy Hb) as [Hrows Hkeep].
    intros b' [<- | Hb']; [exact Hrows|].
    apply IH; auto.
    intros x Hx. apply Hincl. now right.
Qed.

(** C1, as amended.  Every record of a response was published strictly
    after the cutoff (now minus [days] days) of the request that fetched
    the bundle it belongs to; a video published exactly at that cutoff is
    left out.  For a bundle fetched by the request itself, that is the
    request's own cutoff: so it is for every record when no unexpired
    entry was stored under the keys of the request.  A bundle taken from
    the cache was fetched at most 6 hours before.  The channel summaries,
    the top lists and the patterns are computed from the records of the
    response and from nothing else. *)
Theorem rows_inside_window_of_fetch (fuel : nat) (env : Env) (raw : Body)
    (s s' : State) (r : V2Response) :
  POST fuel env raw s = (Some (OkResponse r), s') ->
  (res_channelSummary r = channelSummary (res_rows r)
   /\ res_globalTopByVelocity r
      = firstn 20 (sortBy byVelocityDesc (res_rows r))
   /\ res_globalTopByViewsPerDay r
      = firstn 20 (sortBy byViewsPerDayDesc (res_rows r))
   /\ res_globalPatterns r = extractNgrams_default (map r_title (res_rows r)))
  /\ (forall body,
        BodySchema_parse raw = Some body ->
        (forall x, In x (p_inputs body) -> uncached env body s x) ->
        rowsAfter (cutoffOf env (res_days r)) (res_rows r))
  /\ (cacheWindowed (cache s) ->
      cacheWindowed (cache s')
      /\ forall row, In row (res_rows r) ->
           exists t0, now env - t0 <= cache_ttl
                      /\ publishedAfter (t0 - res_days r * dayMs) row).
Proof.
  intros H. apply POST_ok in H as (_ & body & bs & Hbody & Hrun & ->).
  cbn [respond res_rows res_days res_channelSummary res_globalTopByVelocity
       res_globalTopByViewsPerDay res_globalPatterns].
  split; [auto|]. split.
  - intros body' Hbody' Hcold. rewrite Hbody in Hbody'. injection Hbody' as <-.
    intros row Hrow. apply flat_map_rows in Hrow as (b & Hb & Hrow).
    refine (run_fresh fuel env body (p_inputs body) (p_inputs body) s s' bs
              (incl_refl _) _ Hrun b Hb row Hrow).
    intros x Hx. left. now apply Hcold.
  - intros Hw. destruct (run_windowed _ _ _ _ _ _ _ Hw Hrun) as [Hw' Hbs].
    split; [exact Hw'|].
    intros row Hrow. apply flat_map_rows in Hrow as (b & Hb & Hrow).
    destruct (Hbs b Hb) as (t0 & Ht0 & Hrows). exists t0. auto.
Qed.

(** ** Unresolved channels *)

Lemma span_app (p : N -> bool) (s : str) :
  s = fst (span p s) ++ snd (span p s).
Proof.
  induction s as [|c s IH]; simpl; [reflexivity|].
  destruct (p c); [|reflexivity].
  destruct (span p s) as [a b]. simpl in *. now rewrite <- IH.
Qed.

Lemma occursIn_cons (k s : str) (c : N) : occursIn k s -> occursIn k (c :: s).
Proof. intros (pre & post & ->). now exists (c :: pre), post. Qed.

Lemma occursIn_refl (s : str) : occursIn s s.
Proof. exists [], []. now rewrite app_nil_r. Qed.

Lemma occursIn_trans (a b c : str) :
  occursIn a b -> occursIn b c -> occursIn a c.
Proof.
  intros (p1 & q1 & ->) (p2 & q2 & ->).
  exists (p2 ++ p1), (q1 ++ q2). now rewrite <- !app_assoc.
Qed.

Lemma dropWhile_suffix (p : N -> bool) (s : str) :
  exists pre, s = pre ++ dropWhile p s.
Proof.
  induction s as [|c s [pre IH]]; simpl; [now exists []|].
  destruct (p c); [|now exists []].
  exists (c :: pre). simpl. now rewrite <- IH.
Qed.

Lemma trim_occursIn (s : str) : occursIn (trim s) s.
Proof.
  unfold trim.
  destruct (dropWhile_suffix isSpace s) as [pre Hpre].
  destruct (dropWhile_suffix isSpace (rev (dropWhile isSpace s))) as [suf Hsuf].
  exists pre, (rev suf).
  rewrite <- rev_app_distr, <- Hsuf, rev_involutive. exact Hpre.
Qed.

Lemma matchChannelId_cons (c : N) (s : str) :
  matchChannelId (c :: s)
  = if startsWith (c :: s) (lit "UC")
       && (20 <=? strlen (fst (span isIdChar (skipn 2 (c :: s)))))
    then Some (lit "UC" ++ fst (span isIdChar (skipn 2 (c :: s))))
    else matchChannelId s.
Proof. reflexivity. Qed.

Lemma matchChannelId_occursIn (s m : str) :
  matchChannelId s = Some m -> occursIn m s.
Proof.
  induction s as [|c s IH]; [discriminate|].
  rewrite matchChannelId_cons.
  remember (c :: s) as t eqn:Ht.
  destruct (startsWith t (lit "UC")
            && (20 <=? strlen (fst (span isIdChar (skipn 2 t))))) eqn:E.
  - intros [= <-]. apply andb_true_iff in E as [E _].
    apply startsWith_prefix in E as [post E].
    exists [], (snd (span isIdChar (skipn 2 t))).
    change (t = lit "UC" ++ (fst (span isIdChar (skipn 2 t))
                               ++ snd (span isIdChar (skipn 2 t)))).
    rewrite <- span_app.
    rewrite E at 2. change (skipn 2 (lit "UC" ++ post)) with post. exact E.
  - intros H. rewrite Ht. apply occursIn_cons. now apply IH.
Qed.

Lemma asciiLower_at (c : N) : asciiLower c = chr "@" -> c = chr "@".
Proof.
  unfold asciiLower. change (chr "@") with 64%N.
  destruct ((65 <=? c) && (c <=? 90))%N eqn:E; [|auto].
  apply andb_true_iff in E as [E1 E2]. apply N.leb_le in E1. lia.
Qed.

Lemma matchHandleUrl_cons (c : N) (s : str) :
  matchHandleUrl (c :: s)
  = if startsWith (map asciiLower (firstn 13 (c :: s))) (lit "youtube.com/@")
       && truthy (fst (span isHandleChar (skipn 13 (c :: s))))
    then Some (fst (span isHandleChar (skipn 13 (c :: s))))
    else matchHandleUrl s.
Proof. reflexivity. Qed.

Lemma matchHandleUrl_occursIn (s m : str) :
  matchHandleUrl s = Some m -> occursIn (lit "@" ++ m) s.
Proof.
  induction s as [|c s IH]; [discriminate|].
  rewrite matchHandleUrl_cons.
  remember (c :: s) as t eqn:Ht.
  destruct (startsWith (map asciiLower (firstn 13 t)) (lit "youtube.com/@")
            && truthy (fst (span isHandleChar (skipn 13 t)))) eqn:E.
  - intros [= <-]. apply andb_true_iff in E as [E _].
    clear Ht IH. apply startsWith_prefix in E as [rest E].
    change (lit "youtube.com/@")
      with [121; 111; 117; 116; 117; 98; 101; 46; 99; 111; 109; 47; 64]%N in E.
    do 13 (destruct t as [|? t]; [discriminate E|]).
    cbn [firstn map app] in E.
    injection E as _ _ _ _ _ _ _ _ _ _ _ _ E _.
    apply asciiLower_at in E.
    subst. cbn [skipn].
    eexists [_; _; _; _; _; _; _; _; _; _; _; _], (snd (span isHandleChar t)).
    cbn [app]. do 12 f_equal. change (lit "@") with [chr "@"]. cbn [app].
    f_equal. apply span_app.
  - intros H. rewrite Ht. apply occursIn_cons. now apply IH.
Qed.

(** The value of the reference is a part of the input it was parsed
    from. *)
Lemma parseChannelInput_occursIn (input : str) :
  occursIn (ref_value (parseChannelInput input)) input.
Proof.
  unfold parseChannelInput.
  apply occursIn_trans with (b := trim input); [|apply trim_occursIn].
  destruct (matchChannelId (trim input)) as [m1|] eqn:E1;
    [now apply matchChannelId_occursIn|].
  destruct (matchHandleUrl (trim input)) as [m2|] eqn:E2;
    [now apply matchHandleUrl_occursIn|].
  destruct (startsWith (trim input) (lit "@")); apply occursIn_refl.
Qed.

Lemma forEach_throw (fuel : nat) (env : Env) (body : Parsed) (cutoff : Z)
    (pre post : list str) (x : str) (acc : list Channel * list Row)
    (s s1 s2 : State) (bs : list Bundle) (e : str) :
  runInputs fuel env body cutoff pre s bs s1 ->
  bundleOf fuel env body cutoff x s1 = (Throw e, s2) ->
  forEach (processInput fuel env body cutoff) (pre ++ x :: post) acc s
  = (Throw e, s2).
Proof.
  intros Hrun Hx. revert acc.
  induction Hrun as [s | y l s b s' bs s'' Hb Hrun IH]; intros acc.
  - cbn [app forEach]. unfold processInput, bind. now rewrite Hx.
  - cbn [app forEach]. unfold processInput at 1. unfold bind at 1 2.
    rewrite Hb. unfold ret at 1. apply IH. exact Hx.
Qed.

Lemma bundleOf_unresolved (fuel : nat) (env : Env) (body : Parsed)
    (cutoff : Z) (x : str) (s : State) :
  uncached env body s x ->
  up_channels (upstream env) (parseChannelInput x) = inr [] ->
  exists s',
    bundleOf fuel env body cutoff x s
    = (Throw (lit "Không tìm thấy channel: "
                ++ ref_value (parseChannelInput x)), s').
Proof.
  intros Hx Hup. unfold bundleOf, bind at 1, cache_get, LRUCache.get.
  unfold uncached, expired, entryOf in Hx.
  assert (Hfetch : forall s0,
             fetchBundle fuel env body cutoff (parseChannelInput x) s0
             = (Throw (lit "Không tìm thấy channel: "
                         ++ ref_value (parseChannelInput x)),
                {| cache := cache s0; calls := S (calls s0) |})).
  { intros s0. unfold fetchBundle, resolveChannel, bind, ytGET.
    now rewrite Hup. }
  destruct Hx as [Hx | (e & Hx & Hexp)]; rewrite Hx.
  - eexists. apply Hfetch.
  - unfold LRUCache.isStale.
    destruct (Z.ltb_spec cache_ttl (now env - LRUCache.e_start e)); [|lia].
    eexists. apply Hfetch.
Qed.

Lemma messageOrError_id (e : str) : e <> [] -> messageOrError e = e.
Proof. destruct e; [congruence | reflexivity]. Qed.

(** C8.  When the resolution of one of the inputs of a request finds no
    channel (the inputs before it were processed, no unexpired entry is
    stored under its key, and the provider returns no item), the request
    answers with an error response, of status 400, whose message names the
    reference parsed from that input, a part of the input itself.  An
    error response carries a message and nothing else: no channel, no
    row. *)
Theorem unresolved_channel_aborts_request (fuel : nat) (env : Env)
    (raw : Body) (body : Parsed) (s s1 : State) (pre post : list str)
    (x : str) (bs : list Bundle) :
  falsy (YT_API_KEY env) = false ->
  BodySchema_parse raw = Some body ->
  p_inputs body = pre ++ x :: post ->
  runInputs fuel env body (cutoffOf env (p_days body)) pre s bs s1 ->
  uncached env body s1 x ->
  up_channels (upstream env) (parseChannelInput x) = inr [] ->
  (exists s2,
      POST fuel env raw s
      = (Some (ErrorResponse 400
                 (lit "Không tìm thấy channel: "
                    ++ ref_value (parseChannelInput x))), s2))
  /\ occursIn (ref_value (parseChannelInput x)) x
  /\ rowsOf (fst (POST fuel env raw s)) = [].
Proof.
  intros Hkey Hbody Hinputs Hrun Hx Hup.
  destruct (bundleOf_unresolved fuel env body (cutoffOf env (p_days body))
              x s1 Hx Hup) as [s2 Hthrow].
  assert (HP : POST fuel env raw s
               = (Some (ErrorResponse 400
                          (lit "Không tìm thấy channel: "
                             ++ ref_value (parseChannelInput x))), s2)).
  { unfold POST, handle, parseBody. rewrite Hkey, Hbody.
    unfold bind at 1. unfold ret at 1. unfold bind at 1.
    rewrite Hinputs.
    rewrite (forEach_throw fuel env body _ pre post x ([], []) s s1 s2 bs _
               Hrun Hthrow).
    cbv beta iota. rewrite messageOrError_id; [reflexivity|].
    destruct (lit "Không tìm thấy channel: ") eqn:E;
      [vm_compute in E; discriminate E | discriminate]. }
  split; [eauto|]. split; [apply parseChannelInput_occursIn|].
  now rewrite HP.
Qed.

(** ** Videos without a date *)

Lemma inWindow_undated (env : Env) (ch : Channel) (v : VideoItem)
    (cutoff : Z) :
  v_publishedAt v = None -> inWindow cutoff (toRow env ch v) = false.
Proof. intros H. unfold inWindow, toRow. cbn [r_publishedAt]. now rewrite H. Qed.

Lemma rows_without_undated (env : Env) (cutoff : Z) (ch : Channel)
    (vs : list VideoItem) :
  filter (inWindow cutoff) (map (toRow env ch) (filter dated vs))
  = filter (inWindow cutoff) (map (toRow env ch) vs).
Proof.
  induction vs as [|v vs IH]; [reflexivity|].
  cbn [filter map]. unfold dated at 1.
  destruct (v_publishedAt v) eqn:E.
  - cbn [map filter]. now rewrite IH.
  - now rewrite (inWindow_undated env ch v cutoff E).
Qed.

Lemma buildBundle_without_undated (env : Env) (cutoff : Z) (ch : Channel)
    (vs : list VideoItem) :
  buildBundle (envWithoutUndated env) cutoff ch (filter dated vs)
  = buildBundle env cutoff ch vs.
Proof.
  unfold buildBundle.
  change (toRow (envWithoutUndated env) ch) with (toRow env ch).
  now rewrite rows_without_undated.
Qed.

Lemma listPlaylistLoop_without_undated (fuel : nat) (env : Env)
    (playlistId : str) (maxVideos : Z) (pageToken : option str)
    (ids : list str) (s : State) :
  listPlaylistLoop fuel (envWithoutUndated env) playlistId maxVideos
    pageToken ids s
  = listPlaylistLoop fuel env playlistId maxVideos pageToken ids s.
Proof.
  revert pageToken ids s. induction fuel as [|fuel IH]; intros pageToken ids s;
    cbn [listPlaylistLoop];
    destruct (Z.of_nat (List.length ids) <? maxVideos); try reflexivity.
  unfold bind.
  change (up_playlistItems (upstream (envWithoutUndated env)))
    with (up_playlistItems (upstream env)).
  destruct (ytGET _ s) as [[res|e|] s1]; try reflexivity.
  destruct (falsy (pp_nextPageToken res)
            || (Z.of_nat (List.length (pp_items res)) =? 0));
    [reflexivity | apply IH].
Qed.

Lemma getChunks_without_undated (env : Env) (cs : list (list str))
    (out : list VideoItem) (s : State) :
  getChunks (envWithoutUndated env) cs (filter dated out) s
  = match getChunks env cs out s with
    | (Ret vs, s') => (Ret (filter dated vs), s')
    | (Throw e, s') => (Throw e, s')
    | (Diverge, s') => (Diverge, s')
    end.
Proof.
  revert out s. induction cs as [|chunk cs IH]; intros out s;
    cbn [getChunks]; [reflexivity|].
  unfold bind, ytGET.
  change (up_videos (upstream (envWithoutUndated env)) chunk)
    with (match up_videos (upstream env) chunk with
          | inl e => inl e
          | inr vs => inr (filter dated vs)
          end).
  destruct (up_videos (upstream env) chunk) as [e|items]; [reflexivity|].
  rewrite <- filter_app. apply IH.
Qed.

Lemma fetchBundle_without_undated (fuel : nat) (env : Env) (body : Parsed)
    (cutoff : Z) (parsed : ChannelRef) (s : State) :
  fetchBundle fuel (envWithoutUndated env) body cutoff parsed s
  = fetchBundle fuel env body cutoff parsed s.
Proof.
  unfold fetchBundle. unfold bind at 1 5.
  change (resolveChannel (envWithoutUndated env) parsed s)
    with (resolveChannel env parsed s).
  destruct (resolveChannel env parsed s) as [[ch|e|] s1]; try reflexivity.
  destruct (falsy (uploadsPlaylistId ch)); [reflexivity|].
  unfold bind at 1 4. unfold listPlaylistVideos.
  rewrite listPlaylistLoop_without_undated.
  destruct (listPlaylistLoop fuel env _ _ None [] s1) as [[ids|e|] s2];
    try reflexivity.
  unfold bind at 1 3. unfold getVideosDetails.
  change (@nil VideoItem) with (filter dated []) at 1.
  rewrite getChunks_without_undated.
  destruct (getChunks env _ [] s2) as [[videos|e|] s3]; try reflexivity.
  rewrite buildBundle_without_undated. reflexivity.
Qed.

Lemma forEach_without_undated (fuel : nat) (env : Env) (body : Parsed)
    (cutoff : Z) (l : list str) (acc : list Channel * list Row) (s : State) :
  forEach (processInput fuel (envWithoutUndated env) body cutoff) l acc s
  = forEach (processInput fuel env body cutoff) l acc s.
Proof.
  revert acc s. induction l as [|x l IH]; intros acc s; cbn [forEach];
    [reflexivity|].
  unfold bind at 1 2. 
  assert (Hstep : processInput fuel (envWithoutUndated env) body cutoff acc x s
                  = processInput fuel env body cutoff acc x s).
  { unfold processInput, bundleOf, bind.
    change (cache_get (envWithoutUndated env)) with (cache_get env).
    destruct (cache_get env _ s) as [[[b|]|e|] s1]; try reflexivity.
    now rewrite fetchBundle_without_undated. }
  rewrite Hstep.
  destruct (processInput fuel env body cutoff acc x s) as [[acc1|e|] s1];
    try reflexivity.
  apply IH.
Qed.

(** C9.  A video item without [publishedAt] never passes the window
    filter, whatever the cutoff, and the handler answers exactly as it
    would had the provider not returned such items at all: the same
    response (rows, summaries, top lists and patterns, or the same error)
    and the same state. *)
Theorem undated_videos_are_dropped (fuel : nat) (env : Env) (raw : Body)
    (s : State) :
  POST fuel (envWithoutUndated env) raw s = POST fuel env raw s
  /\ forall ch v cutoff,
       v_publishedAt v = None -> inWindow cutoff (toRow env ch v) = false.
Proof.
  split; [|intros ch v cutoff; apply inWindow_undated].
  unfold POST.
  change (YT_API_KEY (envWithoutUndated env)) with (YT_API_KEY env).
  destruct (falsy (YT_API_KEY env)); [reflexivity|].
  assert (Hh : handle fuel (envWithoutUndated env) raw s = handle fuel env raw s).
  { unfold handle. unfold bind at 1 3.
    destruct (parseBody raw s) as [[body|e|] s1]; try reflexivity.
    unfold bind.
    change (cutoffOf (envWithoutUndated env)) with (cutoffOf env).
    now rewrite forEach_without_undated. }
  now rewrite Hh.
Qed.

(** ** Inputs that name the same channel *)





Lemma length_remove (k : Key) (c : Cache) :
  (List.length (LRUCache.remove key_eqb k c) <= List.length c)%nat.
Proof. apply filter_length_le. Qed.




Lemma BodySchema_parse_inputs (raw : Body) (body : Parsed) :
  BodySchema_parse raw = Some body ->
  (1 <= List.length (p_inputs body) <= 10)%nat
  /\ 7 <= p_days body <= 365 /\ 10 <= p_maxVideos body <= 200.
Proof.
  unfold BodySchema_parse.
  destruct (forallb _ _ && _ && _ && _ && _ && _ && _) eqn:E; [|discriminate].
  intros [= <-]. cbn [p_inputs p_days p_maxVideos].
  repeat (apply andb_true_iff in E as [E ?]).
  repeat match goal with
         | H : (_ <=? _) = true |- _ => apply Z.leb_le in H
         end.
  lia.
Qed.


(** *** The summaries count the rows of their channel *)

Lemma groupOf_groupPush (c : str) (r : Row) (m : list (str * list Row)) :
  groupOf c (groupPush r m)
  = groupOf c m ++ (if str_eqb (r_channelId r) c then [r] else []).
Proof.
  induction m as [|[c' g] m IH]; cbn [groupPush groupOf].
  - now rewrite app_nil_l.
  - destruct (str_eqb c' (r_channelId r)) eqn:E; cbn [groupOf].
    + apply str_eqb_eq in E. subst c'.
      destruct (str_eqb (r_channelId r) c); [reflexivity | now rewrite app_nil_r].
    + destruct (str_eqb c' c) eqn:Ec; [|exact IH].
      apply str_eqb_eq in Ec. subst c'. apply str_eqb_neq in E.
      assert (E' : str_eqb (r_channelId r) c = false)
        by (apply str_eqb_neq; congruence).
      rewrite E'. now rewrite app_nil_r.
Qed.

Lemma groupPush_keys (r : Row) (m : list (str * list Row)) (c : str) :
  In c (map fst (groupPush r m)) <-> c = r_channelId r \/ In c (map fst m).
Proof.
  induction m as [|[c' g] m IH]; cbn [groupPush map fst In].
  - intuition congruence.
  - destruct (str_eqb c' (r_channelId r)) eqn:E; cbn [map fst In].
    + apply str_eqb_eq in E. subst c'. intuition congruence.
    + rewrite IH. intuition congruence.
Qed.

Lemma groupPush_NoDup (r : Row) (m : list (str * list Row)) :
  NoDup (map fst m) -> NoDup (map fst (groupPush r m)).
Proof.
  induction m as [|[c' g] m IH]; cbn [groupPush map fst]; intros Hnd.
  - constructor; [intros [] | constructor].
  - inversion Hnd as [|? ? Hnotin Hnd']; subst.
    destruct (str_eqb c' (r_channelId r)) eqn:E; cbn [map fst].
    + constructor; assumption.
    + constructor; [|now apply IH].
      rewrite groupPush_keys. intros [-> | Hin]; [|contradiction].
      rewrite str_eqb_refl in E. discriminate.
Qed.

Lemma byChannel_spec (rows : list Row) :
  NoDup (map fst (byChannel rows))
  /\ (forall c, groupOf c (byChannel rows) = rowsOfChannel c rows)
  /\ (forall c, In c (map fst (byChannel rows))
                <-> exists r, In r rows /\ r_channelId r = c).
Proof.
  unfold byChannel.
  assert (H : forall m,
             NoDup (map fst m) ->
             NoDup (map fst (fold_left (fun m r => groupPush r m) rows m))
             /\ (forall c, groupOf c (fold_left (fun m r => groupPush r m) rows m)
                           = groupOf c m ++ rowsOfChannel c rows)
             /\ (forall c, In c (map fst (fold_left (fun m r => groupPush r m) rows m))
                           <-> In c (map fst m)
                               \/ exists r, In r rows /\ r_channelId r = c)).
  { induction rows as [|r rows IH]; intros m Hnd; cbn [fold_left].
    - split; [exact Hnd|]. split.
      + intros c. now rewrite app_nil_r.
      + intros c. split; [auto | intros [H | (r & [] & _)]; exact H].
    - destruct (IH (groupPush r m) (groupPush_NoDup r m Hnd)) as (H1 & H2 & H3).
      split; [exact H1|]. split.
      + intros c. rewrite H2, groupOf_groupPush, <- app_assoc. f_equal.
        unfold rowsOfChannel. cbn [filter].
        destruct (str_eqb (r_channelId r) c); reflexivity.
      + intros c. rewrite H3, groupPush_keys. split.
        * intros [[-> | H] | (r' & Hr' & Hc)]; eauto.
          -- right. exists r. split; [now left | reflexivity].
          -- right. exists r'. split; [now right | exact Hc].
        * intros [H | (r' & [<- | Hr'] & Hc)]; eauto. }
  destruct (H [] (NoDup_nil _)) as (H1 & H2 & H3).
  split; [exact H1|]. split; [exact H2|].
  intros c. rewrite H3. cbn [map In]. tauto.
Qed.

Lemma groupOf_In (m : list (str * list Row)) (c : str) (g : list Row) :
  NoDup (map fst m) -> In (c, g) m -> groupOf c m = g.
Proof.
  induction m as [|[c' g'] m IH]; cbn [map fst groupOf]; intros Hnd Hin;
    [destruct Hin|].
  inversion Hnd as [|? ? Hnotin Hnd']; subst.
  destruct Hin as [[= -> ->] | Hin].
  - now rewrite str_eqb_refl.
  - destruct (str_eqb c' c) eqn:E; [|now apply IH].
    apply str_eqb_eq in E. subst c'.
    exfalso. apply Hnotin. apply (in_map fst) in Hin. exact Hin.
Qed.

Lemma hooksOf_spec (g : list Row) :
  NoDup (map fst (hooksOf g))
  /\ forall t, countOf t (hooksOf g)
               = Z.of_nat (List.length
                             (filter (fun r => str_eqb (r_hookTag r) t) g)).
Proof.
  unfold hooksOf.
  assert (H : forall m,
             NoDup (map fst m) ->
             NoDup (map fst (fold_left (fun m r => bump (r_hookTag r) m) g m))
             /\ forall t,
                 countOf t (fold_left (fun m r => bump (r_hookTag r) m) g m)
                 = countOf t m
                   + Z.of_nat (List.length
                                 (filter (fun r => str_eqb (r_hookTag r) t) g))).
  { induction g as [|r g IH]; intros m Hnd; cbn [fold_left filter].
    - split; [exact Hnd | intros t; simpl; lia].
    - destruct (IH (bump (r_hookTag r) m) (bump_NoDup _ _ Hnd)) as [H1 H2].
      split; [exact H1|].
      intros t. rewrite H2, countOf_bump.
      destruct (str_eqb (r_hookTag r) t); cbn [List.length]; lia. }
  destruct (H [] (NoDup_nil _)) as [H1 H2].
  split; [exact H1|]. intros t. rewrite H2. simpl. lia.
Qed.







End Facts.

(** ** The exact logarithm, for the example platform *)

Lemma ln_monotone (x y : R) : (0 < x)%R -> (x <= y)%R -> (ln x <= ln y)%R.
Proof.
  intros Hx [Hlt | ->]; [|lra]. left. now apply ln_increasing.
Qed.

Lemma ln_10_pos : (0 < ln 10)%R.
Proof. rewrite <- ln_1. apply ln_increasing; lra. Qed.

Lemma exact_log10_monotone (x y : R) :
  (1 <= x)%R -> (x <= y)%R -> (ln x / ln 10 <= ln y / ln 10)%R.
Proof.
  intros Hx Hxy. unfold Rdiv. apply Rmult_le_compat_r.
  - left. apply Rinv_0_lt_compat, ln_10_pos.
  - apply ln_monotone; lra.
Qed.

Lemma exact_log10_nonneg (x : R) : (1 <= x)%R -> (0 <= ln x / ln 10)%R.
Proof.
  intros Hx. unfold Rdiv. apply Rmult_le_pos.
  - rewrite <- ln_1. apply ln_monotone; lra.
  - left. apply Rinv_0_lt_compat, ln_10_pos.
Qed.

(* ================================================================= *)
(** * The properties at concrete inputs *)
(* ================================================================= *)



(** The first request, on an empty cache, sends three requests to the
    provider and stores the bundle. *)
Example demo_first_request :
  calls demoState1 = 3%nat
  /\ entryOf (demoParsed ["@demoChannel"%string]) (lit "@demoChannel") demoState1
     = Some {| LRUCache.e_key :=
                 ({| ref_type := TypeForHandle; ref_value := lit "@demoChannel" |},
                  7, 10);
               LRUCache.e_value := demoBundle;
               LRUCache.e_start := demoStart |}.
Proof. split; vm_compute; reflexivity. Qed.

Lemma cache_hit_skips_provider_witness :
  (calls (snd (demoPOST 5 ["@demoChannel"%string] demoState1))
   = calls demoState1
   /\ rowDates (fst (demoPOST 5 ["@demoChannel"%string] demoState1))
      = map (fun x => (r_videoId x, r_publishedAt x)) (b_rows demoBundle))
  /\ (calls demoState1
      < calls (snd (demoPOST 7 ["@demoChannel"%string] demoState1)))%nat.
Proof.
  split.
  - destruct (cache_hit_skips_provider (P := demoPlatform) 5 (demoEnv 5)
                (demoBody ["@demoChannel"%string])
                (demoParsed ["@demoChannel"%string]) demoState1
                eq_refl eq_refl) as (_ & _ & Hhit & _).
    destruct (Hhit [demoBundle]) as (s' & HP & Hc).
    { constructor; [|constructor].
      eexists. split; [apply demo_first_request|].
      split; [reflexivity | vm_compute; discriminate]. }
    unfold demoPOST. rewrite HP. split; [exact Hc|].
    cbn [fst rowDates respond res_rows flat_map]. now rewrite app_nil_r.
  - destruct (cache_hit_skips_provider (P := demoPlatform) 5 (demoEnv 7)
                (demoBody ["@demoChannel"%string])
                (demoParsed ["@demoChannel"%string]) demoState1
                eq_refl eq_refl) as (_ & _ & _ & Hexp).
    apply (Hexp (lit "@demoChannel")
             (fst (demoPOST 7 ["@demoChannel"%string] demoState1))).
    + left; reflexivity.
    + right. eexists. split; [apply demo_first_request|].
      vm_compute; reflexivity.
    + apply surjective_pairing.
Defined.

(** The first request for the demo channel answers, with the two videos
    that are inside the window. *)
Example demo_first_response :
  rowDates (fst (demoPOST 0 ["@demoChannel"%string] emptyState))
  = [(lit "v1", Some (lit "2024-03-07T12:00:00Z"));
     (lit "v2", Some (lit "2024-03-01T00:00:01Z"))].
Proof. vm_compute. reflexivity. Qed.

Ltac not_ok E :=
  apply (f_equal (fun x => rowDates (fst x))) in E;
  vm_compute in E; discriminate E.

Lemma rows_inside_window_of_fetch_witness :
  rowsAfter (P := demoPlatform) (cutoffOf (demoEnv 0) 7)
    (rowsOf (fst (demoPOST 0 ["@demoChannel"%string] emptyState))).
Proof.
  destruct (demoPOST 0 ["@demoChannel"%string] emptyState)
    as [[[st e|r]|] s'] eqn:E; try not_ok E.
  cbn [fst rowsOf].
  assert (Hdays : res_days r = 7).
  { apply (f_equal (fun x => match fst x with
                             | Some (OkResponse p) => res_days p
                             | _ => 0
                             end)) in E.
    vm_compute in E. symmetry. exact E. }
  replace (cutoffOf (demoEnv 0) 7)
    with (cutoffOf (demoEnv 0) (res_days r)) by (now rewrite Hdays).
  apply (proj1 (proj2 (rows_inside_window_of_fetch (P := demoPlatform)
                         5 (demoEnv 0) (demoBody ["@demoChannel"%string])
                         emptyState s' r E))
           (demoParsed ["@demoChannel"%string]) eq_refl).
  intros x _. left. reflexivity.
Defined.

(** C1, as stated, fails when the bundle comes from the cache: one hour
    after the first request the response still shows the video published
    at 2024-03-01T00:00:01Z, which is before the cutoff of that moment,
    2024-03-01T01:00:00Z. *)
Lemma stale_window_counterexample :
  ~ rowsAfter (P := demoPlatform) (cutoffOf (demoEnv 1) 7)
      (rowsOf (fst (demoPOST 1 ["@demoChannel"%string] demoState1))).
Proof.
  intros H.
  assert (Hrows : map r_publishedAt
                    (rowsOf (fst (demoPOST 1 ["@demoChannel"%string] demoState1)))
                  = [Some (lit "2024-03-07T12:00:00Z");
                     Some (lit "2024-03-01T00:00:01Z")])
    by (vm_compute; reflexivity).
  destruct (rowsOf (fst (demoPOST 1 ["@demoChannel"%string] demoState1)))
    as [|r1 [|r2 rows]]; try discriminate Hrows.
  injection Hrows as _ H2 _.
  destruct (H r2 (or_intror (or_introl eq_refl))) as (d & p & Hd & _ & Hp & Hlt).
  rewrite H2 in Hd. injection Hd as <-.
  vm_compute in Hp. injection Hp as <-.
  vm_compute in Hlt. discriminate Hlt.
Qed.

(** The patterns of two titles. *)
Example demo_patterns :
  extractNgrams_default (P := demoPlatform)
    [Some (lit "Naruto vs Sasuke full fight"); Some (lit "naruto vs SASUKE")]
  = map (fun e => {| phrase := lit (fst e); count := snd e |})
      [("naruto vs", 2); ("vs sasuke", 2); ("naruto vs sasuke", 2);
       ("sasuke fight", 1); ("vs sasuke fight", 1);
       ("naruto vs sasuke fight", 1)]%string.
Proof. vm_compute. reflexivity. Qed.

Lemma extractNgrams_no_stopword_witness :
  ~ In (lit "sasuke") stop.
Proof.
  apply (extractNgrams_no_stopword (P := demoPlatform)
           [Some (lit "Naruto vs Sasuke full fight"); Some (lit "naruto vs SASUKE")]
           2 4 {| phrase := lit "sasuke fight"; count := 1 |} (lit "sasuke")).
  - vm_compute. tauto.
  - vm_compute. tauto.
Defined.

Lemma extractNgrams_contiguous_count_witness :
  exists g : list str,
    (2 <= List.length g <= 4)%nat
    /\ lit "vs sasuke" = join space g
    /\ (exists raw pre post,
          In raw [Some (lit "Naruto vs Sasuke full fight");
                  Some (lit "naruto vs SASUKE")]
          /\ tokens (P := demoPlatform) raw = pre ++ g ++ post)
    /\ 2 = Z.of_nat
             (occurrences (P := demoPlatform) g
                [Some (lit "Naruto vs Sasuke full fight");
                 Some (lit "naruto vs SASUKE")]).
Proof.
  apply (extractNgrams_contiguous_count (P := demoPlatform)
           [Some (lit "Naruto vs Sasuke full fight"); Some (lit "naruto vs SASUKE")]
           {| phrase := lit "vs sasuke"; count := 2 |}).
  rewrite demo_patterns. vm_compute. tauto.
Defined.

(** C5, as stated, fails: the miner cuts its windows after the short
    tokens and the stopwords are dropped, so a pattern can join two words
    that no title has next to each other.  The title "One x two" yields
    the pattern "one two", and the tokens of its cleaned form are "one",
    "x", "two". *)
Lemma ngram_bridges_dropped_token_counterexample :
  In {| phrase := lit "one two"; count := 1 |}
    (extractNgrams_default (P := demoPlatform) [Some (lit "One x two")])
  /\ cleanedTokens (P := demoPlatform) (Some (lit "One x two"))
     = [lit "one"; lit "x"; lit "two"]
  /\ ~ (exists raw pre post,
          In raw [Some (lit "One x two")]
          /\ cleanedTokens (P := demoPlatform) raw
             = pre ++ [lit "one"; lit "two"] ++ post).
Proof.
  split; [vm_compute; tauto|]. split; [vm_compute; reflexivity|].
  intros (raw & pre & post & [<- | []] & E).
  change (cleanedTokens (Some (lit "One x two")))
    with [lit "one"; lit "x"; lit "two"] in E.
  destruct pre as [|a [|b [|c pre]]]; cbn [app] in E.
  - injection E as _ E _. vm_compute in E. discriminate E.
  - injection E as _ E _. vm_compute in E. discriminate E.
  - injection E as _ _ _ E. discriminate E.
  - injection E as _ _ _ E. destruct pre; discriminate E.
Qed.

(** The loop on the one input [@demoChannel], from the empty cache. *)
Example demo_run :
  runInputs (P := demoPlatform) 5 (demoEnv 0)
    (demoParsed ["@demoChannel"; "@nobody"]%string) (cutoffOf (demoEnv 0) 7)
    [lit "@demoChannel"] emptyState [demoBundle] demoState1.
Proof.
  apply run_cons with (s1 := demoState1); [vm_compute; reflexivity | constructor].
Qed.

Lemma unresolved_channel_aborts_request_witness :
  fst (demoPOST 0 ["@demoChannel"; "@nobody"]%string emptyState)
  = Some (ErrorResponse 400 (lit "Không tìm thấy channel: @nobody"))
  /\ occursIn (lit "@nobody") (lit "@nobody").
Proof.
  destruct (unresolved_channel_aborts_request (P := demoPlatform) 5 (demoEnv 0)
              (demoBody ["@demoChannel"; "@nobody"]%string)
              (demoParsed ["@demoChannel"; "@nobody"]%string)
              emptyState demoState1 [lit "@demoChannel"] [] (lit "@nobody")
              [demoBundle] eq_refl eq_refl eq_refl demo_run
              (or_introl eq_refl) eq_refl) as ((s2 & HP) & Hocc & _).
  split; [|exact Hocc].
  unfold demoPOST. rewrite HP. reflexivity.
Defined.

Lemma undated_videos_are_dropped_witness :
  POST (P := demoPlatform) 5 (envWithoutUndated (demoEnv 0))
    (demoBody ["@demoChannel"%string]) emptyState
  = demoPOST 0 ["@demoChannel"%string] emptyState
  /\ inWindow (P := demoPlatform) (cutoffOf (demoEnv 0) 7)
       (toRow (P := demoPlatform) (demoEnv 0) demoChannel
          (demoVideo "v5" "Chấn động" None 100 1))
     = false.
Proof.
  destruct (undated_videos_are_dropped (P := demoPlatform) 5 (demoEnv 0)
              (demoBody ["@demoChannel"%string]) emptyState) as [HP Hdrop].
  split; [exact HP|]. apply Hdrop. reflexivity.
Defined.

(** The same channel given twice, as a handle and as a URL: two channel
    records, every row twice, and a summary that counts four videos and
    each hook twice. *)
Example demo_duplicate_response :
  match fst (demoPOST 0 ["@demoChannel"; "https://www.youtube.com/@demoChannel"]%string
               emptyState) with
  | Some (OkResponse p) =>
      (map channelId (res_channels p), map r_videoId (res_rows p),
       map s_videosInWindow (res_channelSummary p),
       map (fun sm => map hm_count (s_hookMix sm)) (res_channelSummary p))
      = ([lit "UCdemo"; lit "UCdemo"],
         [lit "v1"; lit "v2"; lit "v1"; lit "v2"], [4], [[2; 2]])
  | _ => False
  end.
Proof. vm_compute. reflexivity. Qed.


Lemma computeVelocity_monotone_witness :
  computeVelocity (P := demoPlatform) 1000 90 2
  <= computeVelocity (P := demoPlatform) 7000 90 2
  /\ computeVelocity (P := demoPlatform) 1000 90 2
     <= computeVelocity (P := demoPlatform) 1000 900 2.
Proof.
  apply (computeVelocity_monotone (P := demoPlatform)
           (fun x y H => H) eq_refl eq_refl
           exact_log10_monotone exact_log10_nonneg
           1000 7000 90 900 2); lia.
Defined.

(* ================================================================= *)
(** * Further properties of the code *)
(* ================================================================= *)

(** ** Sorting *)

Lemma insertBy_perm {A} (cmp : A -> A -> Z) (x : A) (l : list A) :
  Permutation (insertBy cmp x l) (x :: l).
Proof.
  induction l as [|y l IH]; simpl; [apply Permutation_refl|].
  destruct (0 <? cmp x y); [|apply Permutation_refl].
  eapply perm_trans; [apply perm_skip, IH | apply perm_swap].
Qed.

Lemma sortBy_perm {A} (cmp : A -> A -> Z) (l : list A) :
  Permutation (sortBy cmp l) l.
Proof.
  unfold sortBy. induction l as [|x l IH]; simpl; [constructor|].
  eapply perm_trans; [apply insertBy_perm | now apply perm_skip].
Qed.

Lemma insertBy_sorted {A} (key : A -> Z) (x : A) (l : list A) :
  StronglySorted (fun a b => key b <= key a) l ->
  StronglySorted (fun a b => key b <= key a)
    (insertBy (fun a b => key b - key a) x l).
Proof.
  induction l as [|y l IH]; intros Hs; simpl.
  - repeat constructor.
  - inversion Hs as [|? ? Hs' Hall]; subst.
    destruct (Z.ltb_spec 0 (key y - key x)) as [Hlt | Hge].
    + constructor; [now apply IH|].
      rewrite Forall_forall in *. intros z Hz.
      apply (Permutation_in _ (insertBy_perm _ x l)) in Hz.
      destruct Hz as [<- | Hz]; [lia | now apply Hall].
    + constructor; [exact Hs|].
      constructor; [lia|].
      rewrite Forall_forall in *. intros z Hz. specialize (Hall z Hz). lia.
Qed.

Lemma sortBy_sorted {A} (key : A -> Z) (l : list A) :
  StronglySorted (fun a b => key b <= key a)
    (sortBy (fun a b => key b - key a) l).
Proof.
  unfold sortBy. induction l as [|x l IH]; simpl; [constructor|].
  now apply insertBy_sorted.
Qed.

Lemma insertBy_stable {A} (key : A -> Z) (k : Z) (x : A) (l : list A) :
  filter (fun a => key a =? k) (insertBy (fun a b => key b - key a) x l)
  = filter (fun a => key a =? k) (x :: l).
Proof.
  induction l as [|y l IH]; [reflexivity|]. cbn [insertBy].
  destruct (Z.ltb_spec 0 (key y - key x)) as [Hlt | Hge]; [|reflexivity].
  cbn [filter] in *. rewrite IH.
  destruct (Z.eqb_spec (key x) k), (Z.eqb_spec (key y) k); try reflexivity.
  lia.
Qed.

(** Rows with equal keys keep the order they had. *)
Lemma sortBy_stable {A} (key : A -> Z) (k : Z) (l : list A) :
  filter (fun a => key a =? k) (sortBy (fun a b => key b - key a) l)
  = filter (fun a => key a =? k) l.
Proof.
  unfold sortBy. induction l as [|x l IH]; [reflexivity|].
  cbn [fold_right]. rewrite insertBy_stable. cbn [filter]. now rewrite IH.
Qed.

Lemma StronglySorted_app_cross {A} (R : A -> A -> Prop) (l1 l2 : list A) :
  StronglySorted R (l1 ++ l2) ->
  StronglySorted R l1
  /\ forall x y, In x l1 -> In y l2 -> R x y.
Proof.
  induction l1 as [|a l1 IH]; intros Hs; cbn [app] in Hs.
  - split; [constructor | intros x y []].
  - inversion Hs as [|? ? Hs' Hall]; subst.
    destruct (IH Hs') as [H1 H2]. rewrite Forall_forall in Hall. split.
    + constructor; [exact H1|]. rewrite Forall_forall.
      intros z Hz. apply Hall. apply in_or_app. now left.
    + intros x y [<- | Hx] Hy; [|now apply H2].
      apply Hall. apply in_or_app. now right.
Qed.

(** The first [n] of a list sorted by a key, largest first: they are in
    that order, and none of the others has a larger key than any of
    them. *)
Lemma top_of_sorted {A} (key : A -> Z) (n : nat) (l : list A) :
  let sorted := sortBy (fun a b => key b - key a) l in
  (List.length (firstn n sorted) <= n)%nat
  /\ StronglySorted (fun a b => key b <= key a) (firstn n sorted)
  /\ Permutation (firstn n sorted ++ skipn n sorted) l
  /\ forall x y, In x (firstn n sorted) -> In y (skipn n sorted) ->
                 key y <= key x.
Proof.
  intros sorted.
  assert (Hs : StronglySorted (fun a b => key b <= key a)
                 (firstn n sorted ++ skipn n sorted))
    by (rewrite firstn_skipn; apply sortBy_sorted).
  apply StronglySorted_app_cross in Hs as [Hs Hcross].
  split; [apply firstn_le_length|]. split; [exact Hs|]. split.
  - rewrite firstn_skipn. apply sortBy_perm.
  - exact Hcross.
Qed.

Section MoreFacts.

Context {P : Platform}.

Local Abbreviation peek := (LRUCache.peek key_eqb).
Local Abbreviation remove := (LRUCache.remove key_eqb).
Local Abbreviation e_key := LRUCache.e_key.
Local Abbreviation e_value := LRUCache.e_value.
Local Abbreviation e_start := LRUCache.e_start.

(** X1.  In a response the global top list by velocity holds at most 20
    records of [rows], in descending order of velocity, and no other
    record of [rows] has a larger velocity than any of them; records of
    equal velocity stand in the order they have in [rows].  The same
    holds of the top list by views per day. *)
Theorem global_top_lists (fuel : nat) (env : Env) (raw : Body)
    (s s' : State) (r : V2Response) :
  POST fuel env raw s = (Some (OkResponse r), s') ->
  (exists rest,
      (List.length (res_globalTopByVelocity r) <= 20)%nat
      /\ StronglySorted (fun a b => r_velocity b <= r_velocity a)
           (res_globalTopByVelocity r)
      /\ Permutation (res_globalTopByVelocity r ++ rest) (res_rows r)
      /\ (forall x y, In x (res_globalTopByVelocity r) -> In y rest ->
                      r_velocity y <= r_velocity x)
      /\ forall v,
           filter (fun a => r_velocity a =? v)
             (res_globalTopByVelocity r ++ rest)
           = filter (fun a => r_velocity a =? v) (res_rows r))
  /\ (exists rest,
        (List.length (res_globalTopByViewsPerDay r) <= 20)%nat
        /\ StronglySorted (fun a b => r_viewsPerDay b <= r_viewsPerDay a)
             (res_globalTopByViewsPerDay r)
        /\ Permutation (res_globalTopByViewsPerDay r ++ rest) (res_rows r)
        /\ (forall x y, In x (res_globalTopByViewsPerDay r) -> In y rest ->
                        r_viewsPerDay y <= r_viewsPerDay x)
        /\ forall v,
             filter (fun a => r_viewsPerDay a =? v)
               (res_globalTopByViewsPerDay r ++ rest)
             = filter (fun a => r_viewsPerDay a =? v) (res_rows r)).
Proof.
  intros H. apply POST_ok in H as (_ & body & bs & _ & _ & ->).
  cbn [respond res_rows res_globalTopByVelocity res_globalTopByViewsPerDay].
  set (rows := flat_map b_rows bs). split.
  - exists (skipn 20 (sortBy byVelocityDesc rows)).
    destruct (top_of_sorted r_velocity 20 rows) as (H1 & H2 & H3 & H4).
    repeat split; auto.
    intros v. rewrite firstn_skipn. apply (sortBy_stable r_velocity).
  - exists (skipn 20 (sortBy byViewsPerDayDesc rows)).
    destruct (top_of_sorted r_viewsPerDay 20 rows) as (H1 & H2 & H3 & H4).
    repeat split; auto.
    intros v. rewrite firstn_skipn. apply (sortBy_stable r_viewsPerDay).
Qed.

(** ** The list of patterns *)

Lemma bump_counts (key : str) (m : Freq) :
  (forall e, In e m -> 1 <= snd e) ->
  forall e, In e (bump key m) -> 1 <= snd e.
Proof.
  induction m as [|[k' c] m IH]; intros Hm e; cbn [bump].
  - intros [<- | []]. simpl. lia.
  - destruct (str_eqb k' key).
    + intros [<- | He]; [|apply Hm; now right].
      specialize (Hm (k', c) (or_introl eq_refl)). simpl in *. lia.
    + intros [<- | He]; [apply Hm; now left|].
      apply IH; [|exact He]. intros e' He'. apply Hm. now right.
Qed.

Lemma ngramFreq_wellformed (titles : list (option str)) (nMin nMax : nat) :
  NoDup (map fst (ngramFreq titles nMin nMax))
  /\ forall e, In e (ngramFreq titles nMin nMax) -> 1 <= snd e.
Proof.
  unfold ngramFreq.
  apply (fold_left_invariant
           (fun f : Freq => NoDup (map fst f) /\ forall e, In e f -> 1 <= snd e)).
  - split; [constructor | intros e []].
  - intros f raw _ Hf. unfold gramsOfTitle.
    apply fold_left_invariant; [exact Hf|].
    intros f' n _ Hf'. apply fold_left_invariant; [exact Hf'|].
    intros f'' i _ [Hnd Hc]. unfold gramStep.
    destruct (existsb stop_has _); [now split|].
    split; [now apply bump_NoDup | now apply bump_counts].
Qed.

Lemma NoDup_firstn {A} (n : nat) (l : list A) : NoDup l -> NoDup (firstn n l).
Proof.
  intros H. rewrite <- (firstn_skipn n l) in H. now apply NoDup_app_remove_r in H.
Qed.

Lemma StronglySorted_firstn {A} (R : A -> A -> Prop) (n : nat) (l : list A) :
  StronglySorted R l -> StronglySorted R (firstn n l).
Proof.
  intros H. rewrite <- (firstn_skipn n l) in H.
  now apply StronglySorted_app_cross in H.
Qed.

Lemma StronglySorted_map {A B} (f : A -> B) (R : B -> B -> Prop) (l : list A) :
  StronglySorted (fun a b => R (f a) (f b)) l -> StronglySorted R (map f l).
Proof.
  induction 1 as [|a l Hs IH Hall]; cbn [map]; constructor; auto.
  rewrite Forall_forall in *. intros b Hb.
  apply in_map_iff in Hb as (x & <- & Hx). now apply Hall.
Qed.

(** X2.  The miner returns at most 50 patterns, the more frequent first;
    their phrases are all different and every count is at least 1. *)
Theorem extractNgrams_ranking (titles : list (option str)) (nMin nMax : nat) :
  let ps := extractNgrams titles nMin nMax in
  (List.length ps <= 50)%nat
  /\ StronglySorted (fun a b => count b <= count a) ps
  /\ NoDup (map phrase ps)
  /\ forall p, In p ps -> 1 <= count p.
Proof.
  intros ps. unfold ps, extractNgrams.
  destruct (ngramFreq_wellformed titles nMin nMax) as [Hnd Hc].
  set (f := ngramFreq titles nMin nMax) in *.
  split; [rewrite length_map; apply firstn_le_length|]. split; [|split].
  - apply StronglySorted_map. cbn [count].
    apply StronglySorted_firstn. apply (sortBy_sorted snd).
  - rewrite map_map. cbn [phrase].
    change (map (fun e : str * Z => fst e) ?l) with (map fst l).
    rewrite <- firstn_map. apply NoDup_firstn.
    eapply Permutation_NoDup; [|exact Hnd].
    apply Permutation_map, Permutation_sym, sortBy_perm.
  - intros p Hp. apply in_map_iff in Hp as (e & <- & He). cbn [count].
    apply Hc. apply In_firstn in He. now apply In_sortBy in He.
Qed.

(** ** Cleaned titles *)

Lemma collapseSpaces_spacedOnce (b : bool) (s : str) :
  spacedOnce b (collapseSpaces b s) = true.
Proof.
  revert b. induction s as [|c s IH]; intros b; [reflexivity|].
  cbn [collapseSpaces]. destruct (isSpace c) eqn:Ec.
  - destruct b; [apply IH|].
    cbn [spacedOnce]. change (isSpace space) with true. cbn iota.
    rewrite N.eqb_refl. apply IH.
  - cbn [spacedOnce]. rewrite Ec. apply IH.
Qed.

Lemma spacedOnce_weaken (b : bool) (s : str) :
  spacedOnce b s = true -> spacedOnce false s = true.
Proof.
  destruct s as [|c s]; [reflexivity|]. cbn [spacedOnce].
  destruct (isSpace c); [|auto].
  intros H. apply andb_true_iff in H as [H H2].
  apply andb_true_iff in H as [H1 _]. now rewrite H1, H2.
Qed.

Lemma spacedOnce_dropWhile (b : bool) (s : str) :
  spacedOnce b s = true -> spacedOnce true (dropWhile isSpace s) = true.
Proof.
  revert b. induction s as [|c s IH]; intros b; [reflexivity|].
  cbn [spacedOnce dropWhile]. destruct (isSpace c) eqn:Ec.
  - intros H. apply andb_true_iff in H as [_ H]. now apply (IH true).
  - intros H. cbn [spacedOnce]. now rewrite Ec.
Qed.

Lemma spacedOnce_prefix (b : bool) (s t : str) :
  spacedOnce b (s ++ t) = true -> spacedOnce b s = true.
Proof.
  revert b. induction s as [|c s IH]; intros b; [reflexivity|].
  cbn [app spacedOnce]. destruct (isSpace c).
  - intros H. apply andb_true_iff in H as [H1 H2].
    rewrite H1. now apply IH.
  - apply IH.
Qed.

Lemma trimEnd_prefix (s : str) : exists rest, s = trimEnd s ++ rest.
Proof.
  unfold trimEnd. destruct (dropWhile_suffix isSpace (rev s)) as [pre H].
  exists (rev pre). rewrite <- rev_app_distr, <- H. now rewrite rev_involutive.
Qed.

Lemma dropWhile_head (p : N -> bool) (s : str) :
  p (hd 0%N (dropWhile p s)) = true -> dropWhile p s = [].
Proof.
  induction s as [|c s IH]; [reflexivity|]. cbn [dropWhile].
  destruct (p c) eqn:E; [exact IH|]. cbn [hd]. congruence.
Qed.

Lemma last_rev_hd (s : str) (d : N) : last (rev s) d = hd d s.
Proof.
  destruct s as [|c s]; [reflexivity|]. cbn [rev hd]. apply last_last.
Qed.

Lemma hd_rev_last (s : str) (d : N) : hd d (rev s) = last s d.
Proof. rewrite <- (rev_involutive s) at 2. now rewrite last_rev_hd. Qed.

Lemma trimEnd_last (s : str) : isSpace (last (trimEnd s) 0%N) = false.
Proof.
  unfold trimEnd. rewrite last_rev_hd.
  destruct (isSpace (hd 0%N (dropWhile isSpace (rev s)))) eqn:E; [|reflexivity].
  apply dropWhile_head in E as E'. now rewrite E' in E.
Qed.

Lemma hd_app_nonempty (s t : str) (d : N) : s <> [] -> hd d (s ++ t) = hd d s.
Proof. destruct s; [congruence | reflexivity]. Qed.

Lemma trimEnd_hd (s : str) :
  isSpace (hd 0%N s) = false -> isSpace (hd 0%N (trimEnd s)) = false.
Proof.
  intros H. destruct (trimEnd_prefix s) as [rest Hs].
  destruct (trimEnd s) as [|c t] eqn:E; [reflexivity|].
  rewrite Hs in H. exact H.
Qed.

Lemma trim_trimEnd (s : str) : trim s = trimEnd (dropWhile isSpace s).
Proof. reflexivity. Qed.

Lemma dropWhile_hd_false (s : str) :
  isSpace (hd 0%N (dropWhile isSpace s)) = false.
Proof.
  destruct (isSpace (hd 0%N (dropWhile isSpace s))) eqn:E; [|reflexivity].
  apply dropWhile_head in E as E'. now rewrite E' in E.
Qed.

Lemma trim_ends (s : str) :
  isSpace (hd 0%N (trim s)) = false /\ isSpace (last (trim s) 0%N) = false.
Proof.
  rewrite trim_trimEnd. split; [|apply trimEnd_last].
  apply trimEnd_hd, dropWhile_hd_false.
Qed.

Lemma spacedOnce_trim (b : bool) (s : str) :
  spacedOnce b s = true -> spacedOnce true (trim s) = true.
Proof.
  intros H. rewrite trim_trimEnd.
  apply spacedOnce_dropWhile in H.
  destruct (trimEnd_prefix (dropWhile isSpace s)) as [rest Hs].
  rewrite Hs in H. now apply spacedOnce_prefix in H.
Qed.

Lemma spacedOnce_In (b : bool) (s : str) (u : N) :
  spacedOnce b s = true -> In u s -> isSpace u = true -> u = space.
Proof.
  revert b. induction s as [|c s IH]; intros b H Hin Hu; [destruct Hin|].
  cbn [spacedOnce] in H. destruct Hin as [-> | Hin].
  - rewrite Hu in H. apply andb_true_iff in H as [H _].
    apply andb_true_iff in H as [H _]. now apply N.eqb_eq in H.
  - destruct (isSpace c).
    + apply andb_true_iff in H as [_ H]. now apply (IH true).
    + now apply (IH false).
Qed.

Lemma spacedOnce_adjacent (b : bool) (pre post : str) (x y : N) :
  spacedOnce b (pre ++ x :: y :: post) = true ->
  isSpace x = true -> isSpace y = false.
Proof.
  revert b. induction pre as [|c pre IH]; intros b H Hx.
  - cbn [app spacedOnce] in H. rewrite Hx in H.
    apply andb_true_iff in H as [_ H].
    destruct (isSpace y); [|reflexivity].
    apply andb_true_iff in H as [H _]. apply andb_true_iff in H as [_ H].
    discriminate H.
  - cbn [app spacedOnce] in H. destruct (isSpace c).
    + apply andb_true_iff in H as [_ H]. now apply (IH true).
    + now apply (IH false).
Qed.

Lemma tokens_nonempty (b : bool) (s : str) :
  spacedOnce b s = true -> isSpace (last s 0%N) = false ->
  Forall (fun w => w <> []) (tl (split space s))
  /\ (b = true -> s <> [] -> hd [] (split space s) <> []).
Proof.
  revert b. induction s as [|c s IH]; intros b H Hlast.
  - split; [constructor | congruence].
  - cbn [spacedOnce] in H. cbn [split].
    assert (Hlast' : isSpace (last s 0%N) = false).
    { destruct s as [|d s]; [reflexivity | exact Hlast]. }
    destruct (isSpace c) eqn:Ec.
    + apply andb_true_iff in H as [H Hs]. apply andb_true_iff in H as [Hc Hb].
      rewrite Hc. cbn [tl hd].
      destruct (IH true Hs Hlast') as [Htl Hhd].
      assert (Hne : s <> []).
      { intros ->. cbn [last] in Hlast. congruence. }
      specialize (Hhd eq_refl Hne).
      split; [|destruct b; [discriminate Hb | congruence]].
      destruct (split space s) as [|w ws]; [constructor|].
      constructor; [exact Hhd | exact Htl].
    + assert (Hc : (c =? space)%N = false).
      { apply N.eqb_neq. intros ->. discriminate Ec. }
      rewrite Hc. destruct (IH false H Hlast') as [Htl _].
      destruct (split space s) as [|w ws]; cbn [tl hd] in *.
      * split; [constructor | discriminate].
      * split; [exact Htl | discriminate].
Qed.

(** X3.  In a cleaned title the only white space is the space U+0020,
    there is none at either end and no two stand next to each other; so
    the title, unless it comes out empty, splits at its spaces into tokens
    none of which is empty. *)
Theorem cleanTitle_spacing (t : option str) :
  let c := cleanTitle t in
  (forall u, In u c -> isSpace u = true -> u = space)
  /\ isSpace (hd 0%N c) = false
  /\ isSpace (last c 0%N) = false
  /\ ~ occursIn [space; space] c
  /\ (c <> [] -> forall w, In w (split space c) -> w <> []).
Proof.
  intros c. unfold c, cleanTitle.
  set (x := collapseSpaces false (replaceNonWord (toLowerCase (orEmpty t)))).
  assert (Hx : spacedOnce true (trim x) = true)
    by (apply (spacedOnce_trim false), collapseSpaces_spacedOnce).
  destruct (trim_ends x) as [Hhd Hlast].
  split; [intros u; now apply spacedOnce_In with (b := true)|].
  split; [exact Hhd|]. split; [exact Hlast|]. split.
  - intros (pre & post & E). rewrite E in Hx. cbn [app] in Hx.
    now apply spacedOnce_adjacent in Hx.
  - intros Hne w Hw.
    destruct (tokens_nonempty true (trim x) Hx Hlast) as [Htl Hh].
    specialize (Hh eq_refl Hne).
    destruct (split space (trim x)) as [|w0 ws]; [destruct Hw|].
    cbn [hd tl] in *. destruct Hw as [<- | Hw]; [exact Hh|].
    rewrite Forall_forall in Htl. now apply Htl.
Qed.

(** ** Channel references *)

Lemma dropWhile_app_all (p : N -> bool) (ws t : str) :
  forallb p ws = true -> dropWhile p (ws ++ t) = dropWhile p t.
Proof.
  induction ws as [|c ws IH]; [reflexivity|]. cbn [forallb app dropWhile].
  intros H. apply andb_true_iff in H as [-> H]. now apply IH.
Qed.

Lemma dropWhile_app_keep (p : N -> bool) (s t : str) :
  dropWhile p s <> [] -> dropWhile p (s ++ t) = dropWhile p s ++ t.
Proof.
  induction s as [|c s IH]; [cbn [dropWhile]; congruence|].
  cbn [app dropWhile]. destruct (p c); [exact IH | reflexivity].
Qed.

Lemma forallb_rev {A} (p : A -> bool) (l : list A) :
  forallb p l = true -> forallb p (rev l) = true.
Proof.
  rewrite !forallb_forall. intros H x Hx. apply H. now apply in_rev.
Qed.

Lemma trim_padding (ws1 s ws2 : str) :
  forallb isSpace ws1 = true -> forallb isSpace ws2 = true ->
  trim (ws1 ++ s ++ ws2) = trim s.
Proof.
  intros H1 H2. unfold trim. rewrite dropWhile_app_all by exact H1.
  destruct (dropWhile isSpace s) as [|c t] eqn:E.
  - assert (Hs : forallb isSpace s = true).
    { clear - E. induction s as [|c s IH]; [reflexivity|].
      cbn [dropWhile] in E. cbn [forallb].
      destruct (isSpace c); [now apply IH | discriminate]. }
    rewrite dropWhile_app_all by exact Hs.
    rewrite <- (app_nil_r ws2), dropWhile_app_all by exact H2. reflexivity.
  - rewrite dropWhile_app_keep by (rewrite E; discriminate).
    rewrite E, rev_app_distr.
    now rewrite dropWhile_app_all by (now apply forallb_rev).
Qed.

Lemma dropWhile_id (p : N -> bool) (s : str) :
  p (hd 0%N s) = false -> dropWhile p s = s.
Proof. destruct s as [|c s]; [reflexivity|]. cbn [hd dropWhile]. now intros ->. Qed.

Lemma trim_fixed (s : str) :
  isSpace (hd 0%N s) = false -> isSpace (last s 0%N) = false -> trim s = s.
Proof.
  intros Hh Hl. unfold trim. rewrite (dropWhile_id isSpace s Hh).
  rewrite dropWhile_id by (now rewrite hd_rev_last).
  apply rev_involutive.
Qed.

Lemma span_fst_all (p : N -> bool) (s : str) :
  forallb p (fst (span p s)) = true.
Proof.
  induction s as [|c s IH]; [reflexivity|]. cbn [span].
  destruct (p c) eqn:E; [|reflexivity].
  destruct (span p s) as [a b]. cbn [fst forallb] in *. now rewrite E.
Qed.

Lemma isIdChar_range (c : N) : isIdChar c = true -> (45 <= c <= 122)%N.
Proof.
  unfold isIdChar, asciiLower, isDigit.
  change (chr "_") with 95%N. change (chr "-") with 45%N.
  destruct ((65 <=? c) && (c <=? 90))%N eqn:E.
  - apply andb_true_iff in E as [E1 E2].
    apply N.leb_le in E1. apply N.leb_le in E2. lia.
  - rewrite !orb_true_iff, !andb_true_iff, !N.leb_le, !N.eqb_eq. lia.
Qed.

Lemma isIdChar_not_space (c : N) : isIdChar c = true -> isSpace c = false.
Proof.
  intros H. apply isIdChar_range in H. unfold isSpace.
  rewrite !orb_false_iff, !andb_false_iff, !N.leb_gt, !N.eqb_neq. lia.
Qed.

Lemma matchChannelId_shape (s m : str) :
  matchChannelId s = Some m ->
  exists run, m = lit "UC" ++ run /\ 20 <= strlen run
              /\ forallb isIdChar run = true.
Proof.
  induction s as [|c s IH]; [discriminate|].
  rewrite matchChannelId_cons.
  set (run := fst (span isIdChar (skipn 2 (c :: s)))).
  match goal with
  | |- context [if ?b then _ else _] => destruct b eqn:E; [|exact IH]
  end.
  intros [= <-]. apply andb_true_iff in E as [_ E]. apply Z.leb_le in E.
  eexists. split; [reflexivity|]. split; [exact E | apply span_fst_all].
Qed.

Lemma matchChannelId_fixed (run : str) :
  20 <= strlen run -> forallb isIdChar run = true ->
  matchChannelId (lit "UC" ++ run) = Some (lit "UC" ++ run).
Proof.
  intros Hlen Hall. change (lit "UC" ++ run) with (85%N :: 67%N :: run).
  rewrite matchChannelId_cons. cbn [skipn].
  assert (Hs : span isIdChar run = (run, [])).
  { rewrite <- (app_nil_r run) at 1. now apply span_run. }
  rewrite Hs. cbn [fst].
  replace (startsWith (85%N :: 67%N :: run) (lit "UC")) with true
    by (symmetry; apply startsWith_prefix; now exists run).
  apply Z.leb_le in Hlen. now rewrite Hlen.
Qed.

Lemma matchHandleUrl_shape (s m : str) :
  matchHandleUrl s = Some m ->
  m <> [] /\ forallb isHandleChar m = true.
Proof.
  induction s as [|c s IH]; [discriminate|].
  rewrite matchHandleUrl_cons.
  set (run := fst (span isHandleChar (skipn 13 (c :: s)))).
  match goal with
  | |- context [if ?b then _ else _] => destruct b eqn:E; [|exact IH]
  end.
  intros [= <-]. apply andb_true_iff in E as [_ E].
  split; [|apply span_fst_all].
  intros H. rewrite H in E. discriminate E.
Qed.

(** X4.  A reference of type id is the text UC followed by at least twenty
    letters, digits, underscores or hyphens, and it is its own reference:
    given as an input again, it is returned unchanged.  Every other input
    gives a handle, which is either the trimmed input itself or an at-sign
    followed by a non-empty text without slash and question mark. *)
Theorem parseChannelInput_shape (input : str) :
  let r := parseChannelInput input in
  match ref_type r with
  | TypeId =>
      (exists run, ref_value r = lit "UC" ++ run /\ 20 <= strlen run
                   /\ forallb isIdChar run = true)
      /\ parseChannelInput (ref_value r) = r
  | TypeForHandle =>
      matchChannelId (trim input) = None
      /\ (ref_value r = trim input
          \/ exists h, ref_value r = lit "@" ++ h /\ h <> []
                       /\ forallb isHandleChar h = true)
  end.
Proof.
  intros r. unfold r, parseChannelInput.
  destruct (matchChannelId (trim input)) as [m|] eqn:E1; cbn [ref_type ref_value].
  - destruct (matchChannelId_shape _ _ E1) as (run & -> & Hlen & Hall).
    split; [now exists run|].
    assert (Htrim : trim (lit "UC" ++ run) = lit "UC" ++ run).
    { apply trim_fixed; [reflexivity|].
      assert (Hne : run <> []).
      { intros ->. unfold strlen in Hlen. cbn [List.length] in Hlen. lia. }
      destruct (exists_last Hne) as (l' & a & El). rewrite El.
      change (lit "UC" ++ l' ++ [a]) with ((85%N :: 67%N :: l') ++ [a]).
      rewrite last_last. apply isIdChar_not_space.
      rewrite forallb_forall in Hall. apply Hall.
      rewrite El. apply in_or_app. right. now left. }
    rewrite Htrim, (matchChannelId_fixed run Hlen Hall). reflexivity.
  - destruct (matchHandleUrl (trim input)) as [m2|] eqn:E2;
      cbn [ref_type ref_value].
    + split; [reflexivity|].
      right. exists m2. split; [reflexivity|].
      exact (matchHandleUrl_shape _ _ E2).
    + destruct (startsWith (trim input) (lit "@")); cbn [ref_type ref_value];
        split; auto.
Qed.

(** X5.  White space before and after an input does not change the
    reference that is read from it, so the padded input is served from the
    same cache entry. *)
Theorem parseChannelInput_padding (ws1 input ws2 : str) (body : Parsed) :
  forallb isSpace ws1 = true -> forallb isSpace ws2 = true ->
  parseChannelInput (ws1 ++ input ++ ws2) = parseChannelInput input
  /\ cacheKey (parseChannelInput (ws1 ++ input ++ ws2)) body
     = cacheKey (parseChannelInput input) body.
Proof.
  intros H1 H2.
  assert (E : parseChannelInput (ws1 ++ input ++ ws2) = parseChannelInput input).
  { unfold parseChannelInput. now rewrite trim_padding. }
  split; [exact E | now rewrite E].
Qed.

(** ** Listing the playlist *)


Lemma length_pushVideoIds_all (ids : list str) (items : list (option str)) :
  forallb (fun vid => negb (falsy vid)) items = true ->
  List.length (pushVideoIds ids items)
  = (List.length ids + List.length items)%nat.
Proof.
  intros H. unfold pushVideoIds. rewrite length_app. f_equal.
  induction items as [|v items IH]; [reflexivity|].
  cbn [forallb] in H. apply andb_true_iff in H as [Hv H].
  apply negb_true_iff in Hv.
  cbn [flat_map]. rewrite Hv, length_app. cbn [List.length].
  now rewrite IH.
Qed.




(** *** Termination *)

Lemma bind_noDiverge {A B} (m : M A) (f : A -> M B) (s : State) :
  fst (m s) <> Diverge ->
  (forall a s1, m s = (Ret a, s1) -> fst (f a s1) <> Diverge) ->
  fst (bind m f s) <> Diverge.
Proof.
  intros Hm Hf. unfold bind.
  destruct (m s) as [[a|e|] s1] eqn:E; cbn [fst] in *;
    [now apply Hf | discriminate | congruence].
Qed.

Lemma noDiverge_bind {A B} (m : M A) (f : A -> M B) :
  noDiverge m -> (forall a, noDiverge (f a)) -> noDiverge (bind m f).
Proof.
  intros Hm Hf s. apply bind_noDiverge; [apply Hm|]. intros a s1 _. apply Hf.
Qed.

Lemma noDiverge_ret {A} (a : A) : noDiverge (ret a).
Proof. intros s. discriminate. Qed.

Lemma noDiverge_throw {A} (e : str) : noDiverge (@throw A e).
Proof. intros s. discriminate. Qed.

Lemma noDiverge_ytGET {A} (answer : str + A) : noDiverge (ytGET answer).
Proof. intros s. unfold ytGET. destruct answer; discriminate. Qed.

Lemma listPlaylistLoop_terminates (fuel : nat) (env : Env) (playlistId : str)
    (maxVideos : Z) (pageToken : option str) (ids : list str) :
  itemsHaveIds (upstream env) ->
  maxVideos - Z.of_nat (List.length ids) <= Z.of_nat fuel ->
  noDiverge (listPlaylistLoop fuel env playlistId maxVideos pageToken ids).
Proof.
  intros Hup. revert pageToken ids.
  induction fuel as [|fuel IH]; intros pageToken ids Hfuel s;
    cbn [listPlaylistLoop];
    destruct (Z.of_nat (List.length ids) <? maxVideos) eqn:E;
    try discriminate.
  { apply Z.ltb_lt in E. lia. }
  apply Z.ltb_lt in E.
  apply bind_noDiverge; [apply noDiverge_ytGET|].
  intros page s1 H1. apply ytGET_inv in H1 as (_ & _ & Ho).
  destruct (up_playlistItems (upstream env) playlistId
              (Z.min 50 (maxVideos - Z.of_nat (List.length ids))) pageToken)
    as [e|page'] eqn:Eup; [discriminate Ho|].
  injection Ho as ->. apply Hup in Eup.
  destruct (falsy (pp_nextPageToken page')
            || (Z.of_nat (List.length (pp_items page')) =? 0)) eqn:Estop;
    [discriminate|].
  apply orb_false_iff in Estop as [_ Estop]. apply Z.eqb_neq in Estop.
  apply IH. rewrite (length_pushVideoIds_all ids _ Eup). lia.
Qed.

Lemma noDiverge_getChunks (env : Env) (cs : list (list str))
    (out : list VideoItem) :
  noDiverge (getChunks env cs out).
Proof.
  revert out. induction cs as [|c cs IH]; intros out; cbn [getChunks].
  - apply noDiverge_ret.
  - apply noDiverge_bind; [apply noDiverge_ytGET | intros items; apply IH].
Qed.

Lemma noDiverge_resolveChannel (env : Env) (parsed : ChannelRef) :
  noDiverge (resolveChannel env parsed).
Proof.
  unfold resolveChannel. apply noDiverge_bind; [apply noDiverge_ytGET|].
  intros [|ch items]; [apply noDiverge_throw | apply noDiverge_ret].
Qed.

Lemma noDiverge_bundleOf (fuel : nat) (env : Env) (body : Parsed)
    (cutoff : Z) (x : str) :
  itemsHaveIds (upstream env) -> p_maxVideos body <= Z.of_nat fuel ->
  noDiverge (bundleOf fuel env body cutoff x).
Proof.
  intros Hup Hfuel. unfold bundleOf.
  apply noDiverge_bind.
  { intros s. unfold cache_get.
    destruct (LRUCache.get key_eqb cache_ttl (now env)
                (cacheKey (parseChannelInput x) body) (cache s)).
    discriminate. }
  intros [b|]; [apply noDiverge_ret|]. unfold fetchBundle.
  apply noDiverge_bind; [apply noDiverge_resolveChannel|]. intros ch.
  destruct (falsy (uploadsPlaylistId ch)); [apply noDiverge_throw|].
  apply noDiverge_bind.
  { apply listPlaylistLoop_terminates; [exact Hup | cbn [List.length]; lia]. }
  intros ids. apply noDiverge_bind; [apply noDiverge_getChunks|].
  intros videos. apply noDiverge_bind; [|intros; apply noDiverge_ret].
  intros s. discriminate.
Qed.

Lemma noDiverge_forEach (fuel : nat) (env : Env) (body : Parsed)
    (cutoff : Z) (l : list str) (acc : list Channel * list Row) :
  itemsHaveIds (upstream env) -> p_maxVideos body <= Z.of_nat fuel ->
  noDiverge (forEach (processInput fuel env body cutoff) l acc).
Proof.
  intros Hup Hfuel. revert acc.
  induction l as [|x l IH]; intros acc; cbn [forEach].
  - apply noDiverge_ret.
  - apply noDiverge_bind; [|intros acc'; apply IH].
    unfold processInput. apply noDiverge_bind; [|intros; apply noDiverge_ret].
    now apply noDiverge_bundleOf.
Qed.

(** X7.  When every playlist item that the provider sends carries a video
    id, the handler answers every request: each turn of the listing loop
    adds an id or is the last one, so 200 turns, the largest [maxVideos]
    that validation lets through, are enough. *)
Theorem POST_answers (fuel : nat) (env : Env) (raw : Body) (s : State) :
  itemsHaveIds (upstream env) -> (200 <= fuel)%nat ->
  exists resp s', POST fuel env raw s = (Some resp, s').
Proof.
  intros Hup Hfuel. unfold POST.
  destruct (falsy (YT_API_KEY env)); [eauto|].
  assert (H : fst (handle fuel env raw s) <> Diverge).
  { unfold handle. apply bind_noDiverge.
    - unfold parseBody. destruct (BodySchema_parse raw); discriminate.
    - intros body s1 Hb. unfold parseBody in Hb.
      destruct (BodySchema_parse raw) as [b|] eqn:Eb; [|discriminate Hb].
      injection Hb as -> <-.
      apply BodySchema_parse_inputs in Eb as (_ & _ & Hmv).
      apply noDiverge_bind; [|intros; apply noDiverge_ret].
      apply noDiverge_forEach; [exact Hup | lia]. }
  destruct (handle fuel env raw s) as [[payload|e|] s1]; eauto.
  now elim H.
Qed.

(** X8.  While the provider keeps sending pages that have items, none of
    them with a video id, and a token for a next page, the listing loop
    does not end: for every bound on the number of its turns it is still
    running when the bound is reached, one request to the provider per
    turn, and has found no id. *)
Theorem listPlaylistVideos_endless (fuel : nat) (env : Env)
    (playlistId : str) (maxVideos : Z) (s : State) :
  (forall n tok, exists page,
      up_playlistItems (upstream env) playlistId n tok = inr page
      /\ pp_items page <> []
      /\ forallb falsy (pp_items page) = true
      /\ falsy (pp_nextPageToken page) = false) ->
  0 < maxVideos ->
  listPlaylistVideos fuel env playlistId maxVideos s
  = (Diverge, {| cache := cache s; calls := calls s + fuel |}).
Proof.
  intros Hup Hmv. unfold listPlaylistVideos.
  generalize (@None str). revert s.
  induction fuel as [|fuel IH]; intros s tok; cbn [listPlaylistLoop];
    replace (Z.of_nat (List.length (@nil str)) <? maxVideos) with true
      by (symmetry; apply Z.ltb_lt; cbn [List.length]; lia).
  - unfold diverge. destruct s as [c n]. cbn [cache calls].
    now rewrite Nat.add_0_r.
  - destruct (Hup (Z.min 50 (maxVideos - Z.of_nat (List.length (@nil str))))
                tok) as (page & Eup & Hne & Hall & Htok).
    unfold bind at 1. rewrite Eup. cbn [ytGET].
    assert (Hpush : pushVideoIds [] (pp_items page) = []).
    { unfold pushVideoIds. cbn [app]. clear - Hall.
      induction (pp_items page) as [|v l IHl]; [reflexivity|].
      cbn [forallb] in Hall. apply andb_true_iff in Hall as [Hv Hall].
      cbn [flat_map]. rewrite Hv. now apply IHl. }
    rewrite Hpush, Htok.
    replace (Z.of_nat (List.length (pp_items page)) =? 0) with false
      by (symmetry; apply Z.eqb_neq; destruct (pp_items page);
          [congruence | cbn [List.length]; lia]).
    cbn [orb]. rewrite IH. cbn [cache calls]. do 2 f_equal. lia.
Qed.

(** ** Reading the videos *)

Lemma chunks50_cons (n : nat) (x : str) (l : list str) :
  chunks50 (S n) (x :: l)
  = firstn 50 (x :: l) :: chunks50 n (skipn 50 (x :: l)).
Proof. reflexivity. Qed.

Lemma chunks50_spec (n : nat) (ids : list str) :
  (List.length ids <= n)%nat ->
  List.concat (chunks50 n ids) = ids
  /\ Forall (fun c => (1 <= List.length c <= 50)%nat) (chunks50 n ids)
  /\ List.length (chunks50 n ids) = ((List.length ids + 49) / 50)%nat.
Proof.
  revert ids. induction n as [|n IH]; intros ids Hlen.
  - destruct ids; [|cbn [List.length] in Hlen; lia].
    repeat split. constructor.
  - destruct ids as [|x l]; [repeat split; constructor|].
    rewrite chunks50_cons.
    assert (Hskip : (List.length (skipn 50 (x :: l)) <= n)%nat).
    { rewrite length_skipn. cbn [List.length] in *. lia. }
    destruct (IH _ Hskip) as (Hc & Hs & Hl).
    split; [|split].
    + cbn [List.concat]. rewrite Hc. apply firstn_skipn.
    + constructor; [|exact Hs].
      rewrite length_firstn. cbn [List.length]. lia.
    + cbn [List.length]. rewrite Hl, length_skipn.
      change (S (List.length l)) with (List.length (x :: l)).
      set (k := List.length (x :: l)).
      assert (1 <= k)%nat by (unfold k; cbn [List.length]; lia).
      clearbody k.
      pose proof (Nat.div_mod_eq (k + 49) 50) as E1.
      pose proof (Nat.mod_upper_bound (k + 49) 50 ltac:(discriminate)) as B1.
      pose proof (Nat.div_mod_eq (k - 50 + 49) 50) as E2.
      pose proof (Nat.mod_upper_bound (k - 50 + 49) 50 ltac:(discriminate))
        as B2.
      lia.
Qed.

Lemma getChunks_ok (env : Env) (cs : list (list str))
    (answer : list str -> list VideoItem) (out : list VideoItem)
    (s : State) :
  (forall c, In c cs -> up_videos (upstream env) c = inr (answer c)) ->
  getChunks env cs out s
  = (Ret (out ++ flat_map answer cs),
     {| cache := cache s; calls := calls s + List.length cs |}).
Proof.
  revert out s. induction cs as [|c cs IH]; intros out s H; cbn [getChunks].
  - unfold ret. destruct s as [ca n]. cbn [cache calls flat_map List.length].
    now rewrite app_nil_r, Nat.add_0_r.
  - unfold bind at 1. rewrite (H c (or_introl eq_refl)). cbn [ytGET].
    rewrite IH by (intros c' Hc'; apply H; now right).
    cbn [cache calls flat_map List.length]. rewrite app_assoc.
    do 2 f_equal. lia.
Qed.

Lemma getChunks_fail (env : Env) (pre post : list (list str)) (c : list str)
    (answer : list str -> list VideoItem) (out : list VideoItem)
    (s : State) (e : str) :
  (forall c', In c' pre -> up_videos (upstream env) c' = inr (answer c')) ->
  up_videos (upstream env) c = inl e ->
  getChunks env (pre ++ c :: post) out s
  = (Throw e, {| cache := cache s; calls := calls s + List.length pre + 1 |}).
Proof.
  revert out s. induction pre as [|c0 pre IH]; intros out s H Hc;
    cbn [app getChunks]; unfold bind at 1.
  - rewrite Hc. cbn [ytGET List.length]. do 2 f_equal. lia.
  - rewrite (H c0 (or_introl eq_refl)). cbn [ytGET].
    rewrite IH by (try exact Hc; intros c' Hc'; apply H; now right).
    cbn [cache calls List.length]. do 2 f_equal. lia.
Qed.

(** X9.  The ids are asked for in batches of fifty, in their order, the
    last one holding what is left: one request per batch, and the videos
    of the answers are returned one batch after the other. *)
Theorem getVideosDetails_batches (env : Env) (videoIds : list str)
    (answer : list str -> list VideoItem) (s : State) :
  let batches := chunks50 (List.length videoIds) videoIds in
  (forall c, In c batches -> up_videos (upstream env) c = inr (answer c)) ->
  List.concat batches = videoIds
  /\ Forall (fun c => (1 <= List.length c <= 50)%nat) batches
  /\ getVideosDetails env videoIds s
     = (Ret (flat_map answer batches),
        {| cache := cache s;
           calls := calls s + (List.length videoIds + 49) / 50 |}).
Proof.
  intros batches H.
  destruct (chunks50_spec (List.length videoIds) videoIds (Nat.le_refl _))
    as (Hc & Hs & Hl).
  split; [exact Hc|]. split; [exact Hs|].
  unfold getVideosDetails. fold batches.
  rewrite (getChunks_ok env batches answer [] s H). cbn [app].
  unfold batches. now rewrite Hl.
Qed.

(** X10.  The first batch that the provider refuses ends the reading: the
    error of the provider is thrown, the batches after it are not asked
    for, and the videos read so far are lost. *)
Theorem getVideosDetails_failure (env : Env) (videoIds : list str)
    (pre post : list (list str)) (c : list str)
    (answer : list str -> list VideoItem) (e : str) (s : State) :
  chunks50 (List.length videoIds) videoIds = pre ++ c :: post ->
  (forall c', In c' pre -> up_videos (upstream env) c' = inr (answer c')) ->
  up_videos (upstream env) c = inl e ->
  getVideosDetails env videoIds s
  = (Throw e, {| cache := cache s; calls := calls s + List.length pre + 1 |}).
Proof.
  intros Hb Hpre Hc. unfold getVideosDetails. rewrite Hb.
  now apply getChunks_fail with (answer := answer).
Qed.

(** ** What a request does to the cache *)

Lemma bundleOf_cacheInv (Inv : Cache -> Prop) (fuel : nat) (env : Env)
    (body : Parsed) (x : str) (s s' : State) (o : outcome Bundle) :
  (forall k c, Inv c -> Inv (remove k c)) ->
  (forall k c e, Inv c -> peek k c = Some e -> Inv (e :: remove k c)) ->
  (forall ch videos c,
      Inv c ->
      Inv (LRUCache.set key_eqb cache_max (now env)
             (cacheKey (parseChannelInput x) body)
             (buildBundle env (cutoffOf env (p_days body)) ch videos) c)) ->
  Inv (cache s) ->
  bundleOf fuel env body (cutoffOf env (p_days body)) x s = (o, s') ->
  Inv (cache s').
Proof.
  intros Hrm Hhit Hset Hs H. apply bundleOf_inv in H.
  destruct H as [(e & He & _ & _ & ->) | (_ & _ & H)].
  - now apply Hhit.
  - destruct o as [b|e|]; try (rewrite H; now apply Hrm).
    destruct H as [(ch & videos & ->) ->]. now apply Hset, Hrm.
Qed.

Lemma forEach_cacheInv (Inv : Cache -> Prop) (fuel : nat) (env : Env)
    (body : Parsed) (l : list str) (acc : list Channel * list Row)
    (s s' : State) (o : outcome (list Channel * list Row)) :
  (forall k c, Inv c -> Inv (remove k c)) ->
  (forall k c e, Inv c -> peek k c = Some e -> Inv (e :: remove k c)) ->
  (forall x ch videos c,
      Inv c ->
      Inv (LRUCache.set key_eqb cache_max (now env)
             (cacheKey (parseChannelInput x) body)
             (buildBundle env (cutoffOf env (p_days body)) ch videos) c)) ->
  Inv (cache s) ->
  forEach (processInput fuel env body (cutoffOf env (p_days body))) l acc s
  = (o, s') ->
  Inv (cache s').
Proof.
  intros Hrm Hhit Hset. revert acc s.
  induction l as [|x l IH]; intros acc s Hs H; cbn [forEach] in H.
  - now injection H as _ <-.
  - assert (Hb : forall ob s0,
               bundleOf fuel env body (cutoffOf env (p_days body)) x s = (ob, s0) ->
               Inv (cache s0)).
    { intros ob s0. apply bundleOf_cacheInv; auto. }
    apply bind_inv in H as [(acc1 & s1 & H1 & H2) | [(e & H1 & _) | [H1 _]]];
      unfold processInput in H1.
    + apply bind_inv in H1
        as [(b & s0 & H0 & [= <- <-]) | [(e & _ & [=]) | [_ [=]]]].
      apply Hb in H0. now apply (IH _ _ H0 H2).
    + apply bind_inv in H1
        as [(b & s0 & H0 & [=]) | [(e0 & H0 & _) | [H0 _]]];
        now apply Hb in H0.
    + apply bind_inv in H1
        as [(b & s0 & H0 & [=]) | [(e0 & H0 & _) | [H0 _]]];
        now apply Hb in H0.
Qed.

Lemma POST_cacheInv (Inv : Cache -> Prop) (fuel : nat) (env : Env)
    (raw : Body) (s s' : State) (o : option Response) :
  (forall k c, Inv c -> Inv (remove k c)) ->
  (forall k c e, Inv c -> peek k c = Some e -> Inv (e :: remove k c)) ->
  (forall x body ch videos c,
      Inv c ->
      Inv (LRUCache.set key_eqb cache_max (now env)
             (cacheKey (parseChannelInput x) body)
             (buildBundle env (cutoffOf env (p_days body)) ch videos) c)) ->
  Inv (cache s) ->
  POST fuel env raw s = (o, s') ->
  Inv (cache s').
Proof.
  intros Hrm Hhit Hset Hs. unfold POST.
  destruct (falsy (YT_API_KEY env)); [now intros [= _ <-]|].
  destruct (handle fuel env raw s) as [oh sh] eqn:E. intros H.
  assert (Hsh : Inv (cache sh)).
  { unfold handle, parseBody in E.
    destruct (BodySchema_parse raw) as [body|];
      [|unfold bind, throw in E; now injection E as _ <-].
    unfold bind at 1, ret at 1 in E.
    apply bind_inv in E as [(acc & s1 & H1 & H2) | [(e & H1 & _) | [H1 _]]].
    - injection H2 as _ <-.
      eapply forEach_cacheInv; eauto.
    - eapply forEach_cacheInv; eauto.
    - eapply forEach_cacheInv; eauto. }
  destruct oh; now injection H as _ <-.
Qed.

Lemma peek_None_keys (k : Key) (c : Cache) :
  peek k c = None <-> ~ In k (map e_key c).
Proof.
  induction c as [|e c IH]; cbn [LRUCache.peek map In]; [tauto|].
  destruct (key_eqb (e_key e) k) eqn:E.
  - apply key_eqb_eq in E. split; [discriminate | tauto].
  - apply key_eqb_neq in E. rewrite IH. tauto.
Qed.

Lemma remove_keys (k k' : Key) (c : Cache) :
  In k' (map e_key (remove k c)) <-> k' <> k /\ In k' (map e_key c).
Proof.
  unfold LRUCache.remove. rewrite !in_map_iff. split.
  - intros (e & <- & He). apply filter_In in He as [He Hk].
    apply negb_true_iff, key_eqb_neq in Hk. split; [exact Hk | eauto].
  - intros (Hne & e & <- & He). exists e. split; [reflexivity|].
    apply filter_In. split; [exact He|].
    now apply negb_true_iff, key_eqb_neq.
Qed.

Lemma NoDup_map_filter {E K} (key : E -> K) (keep : E -> bool)
    (c : list E) (Hnd : NoDup (map key c)) :
  NoDup (map key (filter keep c)).
Proof.
  induction c as [|x c IH]; cbn [map filter] in *; [exact Hnd|].
  inversion Hnd as [|? ? Hx Hc]; subst.
  destruct (keep x); [|auto]. cbn [map]. constructor; [|auto].
  intros Hin. apply Hx. apply in_map_iff in Hin as (y & Hy & Hin).
  apply filter_In in Hin as [Hin _]. apply in_map_iff. eauto.
Qed.

Lemma NoDup_map_removelast {A B} (f : A -> B) (l : list A) :
  NoDup (map f l) -> NoDup (map f (removelast l)).
Proof.
  induction l as [|x l IH]; [auto|]. intros H.
  inversion H as [|? ? Hx Hl]; subst.
  destruct l as [|y l]; [constructor|].
  change (removelast (x :: y :: l)) with (x :: removelast (y :: l)).
  cbn [map]. constructor; [|auto].
  intros Hin. apply Hx. apply in_map_iff in Hin as (z & Hz & Hin).
  apply In_removelast in Hin. apply in_map_iff. eauto.
Qed.

Lemma length_remove_present (k : Key) (c : Cache)
    (e : LRUCache.Entry Key Bundle) :
  peek k c = Some e -> (S (List.length (remove k c)) <= List.length c)%nat.
Proof.
  induction c as [|e0 c IH]; cbn [LRUCache.peek]; [discriminate|].
  unfold LRUCache.remove. cbn [filter].
  destruct (key_eqb (e_key e0) k); cbn [negb List.length].
  - intros _. pose proof (length_remove k c) as H.
    unfold LRUCache.remove in H. lia.
  - intros H. apply IH in H. unfold LRUCache.remove in H. lia.
Qed.

Lemma length_removelast_le {A} (l : list A) :
  l <> [] -> S (List.length (removelast l)) = List.length l.
Proof.
  intros H. destruct (exists_last H) as (l' & a & ->).
  rewrite removelast_last, length_app. cbn [List.length]. lia.
Qed.

Lemma cacheBounded_remove (k : Key) (c : Cache) :
  cacheBounded c -> cacheBounded (remove k c).
Proof.
  intros [Hlen Hnd]. split.
  - pose proof (length_remove k c). lia.
  - now apply NoDup_map_filter.
Qed.

Lemma cacheBounded_hit (k : Key) (c : Cache) (e : LRUCache.Entry Key Bundle) :
  cacheBounded c -> peek k c = Some e -> cacheBounded (e :: remove k c).
Proof.
  intros [Hlen Hnd] He. split.
  - apply length_remove_present in He as Hl. cbn [List.length]. lia.
  - cbn [map]. constructor; [|now apply NoDup_map_filter].
    apply peek_In in He as [_ ->]. rewrite remove_keys. tauto.
Qed.

Lemma cacheBounded_set (now : Z) (k : Key) (b : Bundle) (c : Cache) :
  cacheBounded c ->
  cacheBounded (LRUCache.set key_eqb cache_max now k b c).
Proof.
  intros [Hlen Hnd]. unfold LRUCache.set.
  destruct (peek k c) as [e|] eqn:He.
  - split.
    + apply length_remove_present in He as Hl. cbn [List.length]. lia.
    + cbn [map LRUCache.e_key]. constructor; [|now apply NoDup_map_filter].
      rewrite remove_keys. tauto.
  - apply peek_None_keys in He.
    destruct (Nat.leb_spec cache_max (List.length c)) as [Hfull|Hroom]; split.
    + assert (Hne : c <> []).
      { intros ->. cbn [List.length] in Hfull. unfold cache_max in Hfull. lia. }
      pose proof (length_removelast_le c Hne). cbn [List.length]. lia.
    + cbn [map LRUCache.e_key]. constructor; [|now apply NoDup_map_removelast].
      intros Hin. apply He. apply in_map_iff in Hin as (z & Hz & Hin).
      apply In_removelast in Hin. apply in_map_iff. eauto.
    + cbn [List.length]. lia.
    + cbn [map LRUCache.e_key]. now constructor.
Qed.

(** X11.  The cache never outgrows its bound: if it holds at most 500
    entries, under keys that are all different, before a request, it does
    so after the request, however the request ends. *)
Theorem cache_stays_bounded (fuel : nat) (env : Env) (raw : Body)
    (s s' : State) (o : option Response) :
  cacheBounded (cache s) ->
  POST fuel env raw s = (o, s') ->
  cacheBounded (cache s') /\ (List.length (cache s') <= 500)%nat.
Proof.
  intros Hs H.
  assert (Hb : cacheBounded (cache s')).
  { revert Hs H. apply POST_cacheInv.
    - intros k c. apply cacheBounded_remove.
    - intros k c e. apply cacheBounded_hit.
    - intros x body ch videos c. apply cacheBounded_set. }
  split; [exact Hb | apply Hb].
Qed.

(** ** The rows of a response *)

Lemma cacheBuilt_remove (k : Key) (c : Cache) :
  cacheBuilt c -> cacheBuilt (remove k c).
Proof. intros H e He. apply In_remove in He. now apply H. Qed.

Lemma cacheBuilt_hit (k : Key) (c : Cache) (e : LRUCache.Entry Key Bundle) :
  cacheBuilt c -> peek k c = Some e -> cacheBuilt (e :: remove k c).
Proof.
  intros H He e' [<- | He'].
  - apply peek_In in He as [He _]. now apply H.
  - apply In_remove in He'. now apply H.
Qed.

Lemma cacheBuilt_set (env : Env) (x : str) (body : Parsed) (ch : Channel)
    (videos : list VideoItem) (c : Cache) :
  cacheBuilt c ->
  cacheBuilt (LRUCache.set key_eqb cache_max (now env)
                (cacheKey (parseChannelInput x) body)
                (buildBundle env (cutoffOf env (p_days body)) ch videos) c).
Proof.
  intros H e He. apply In_set in He as [-> | He]; [|now apply H].
  exists env, ch, videos. split; reflexivity.
Qed.

Lemma bundleOf_built (fuel : nat) (env : Env) (body : Parsed) (x : str)
    (s s' : State) (b : Bundle) :
  cacheBuilt (cache s) ->
  bundleOf fuel env body (cutoffOf env (p_days body)) x s = (Ret b, s') ->
  cacheBuilt (cache s')
  /\ exists env' ch videos,
       b = buildBundle env' (cutoffOf env' (p_days body)) ch videos.
Proof.
  intros Hs H. split.
  - revert Hs H. apply bundleOf_cacheInv.
    + intros k c. apply cacheBuilt_remove.
    + intros k c e. apply cacheBuilt_hit.
    + intros ch videos c. apply cacheBuilt_set.
  - apply bundleOf_inv in H.
    destruct H as [(e & He & _ & [= ->] & _) | (_ & _ & (ch & videos & ->) & _)].
    + apply peek_In in He as [He Hk].
      destruct (Hs e He) as (env' & ch & videos & _ & Hv).
      rewrite Hk in Hv. exists env', ch, videos. exact Hv.
    + now exists env, ch, videos.
Qed.

Lemma run_built (fuel : nat) (env : Env) (body : Parsed) (l : list str)
    (s s' : State) (bs : list Bundle) :
  cacheBuilt (cache s) ->
  runInputs fuel env body (cutoffOf env (p_days body)) l s bs s' ->
  cacheBuilt (cache s')
  /\ forall b, In b bs ->
       exists env' ch videos,
         b = buildBundle env' (cutoffOf env' (p_days body)) ch videos.
Proof.
  intros Hs Hrun. induction Hrun as [s | x l s b s1 bs s2 Hb Hrun IH].
  - split; [exact Hs | intros b []].
  - destruct (bundleOf_built _ _ _ _ _ _ _ Hs Hb) as [Hs1 Hb1].
    destruct (IH Hs1) as [Hs2 Hbs]. split; [exact Hs2|].
    intros b' [<- | Hb']; [exact Hb1 | now apply Hbs].
Qed.

Lemma digitsValue_nonneg (acc : Z) (ds : str) :
  0 <= acc -> 0 <= digitsValue acc ds.
Proof.
  revert acc. induction ds as [|d ds IH]; intros acc H; cbn [digitsValue];
    [exact H | apply IH; lia].
Qed.

Lemma groupValue_nonneg (g : option str) : 0 <= groupValue g.
Proof.
  destruct g; unfold groupValue, parseInt10; apply digitsValue_nonneg; lia.
Qed.

Lemma iso8601DurationToSeconds_nonneg (d : str) :
  0 <= iso8601DurationToSeconds d.
Proof.
  unfold iso8601DurationToSeconds. destruct (afterPT d) as [r|]; [|lia].
  destruct (optGroup (chr "H") r) as [h r1].
  destruct (optGroup (chr "M") r1) as [mi r2].
  destruct (optGroup (chr "S") r2) as [se r3].
  pose proof (groupValue_nonneg h). pose proof (groupValue_nonneg mi).
  pose proof (groupValue_nonneg se). lia.
Qed.

Lemma roundDiv_bounds (a b : Z) :
  0 <= a -> 1 <= b -> 0 <= roundDiv a b <= a.
Proof.
  intros Ha Hb. unfold roundDiv. split.
  - apply Z.div_pos; lia.
  - apply Z.lt_succ_r, Z.div_lt_upper_bound; nia.
Qed.

Lemma buildBundle_row (env : Env) (days : Z) (ch : Channel)
    (videos : list VideoItem) (r : Row) :
  1 <= days ->
  In r (b_rows (buildBundle env (cutoffOf env days) ch videos)) ->
  1 <= r_ageDays r <= days
  /\ 0 <= r_durationSec r
  /\ (0 <= r_views r -> 0 <= r_viewsPerDay r <= r_views r)
  /\ r_hookTag r = classifyHook (orEmpty (r_title r))
  /\ r_url r = lit "https://www.youtube.com/watch?v=" ++ r_videoId r.
Proof.
  intros Hdays Hr. cbn [buildBundle b_rows] in Hr.
  apply filter_In in Hr as [Hr Hw]. apply in_map_iff in Hr as (v & <- & _).
  unfold inWindow, toRow in *.
  cbn [r_publishedAt r_ageDays r_durationSec r_views r_viewsPerDay r_hookTag
       r_title r_url r_videoId] in *.
  split; [|split; [apply iso8601DurationToSeconds_nonneg|split;
                    [intros Hv; apply roundDiv_bounds; lia|split; reflexivity]]].
  unfold diffDays. destruct (v_publishedAt v) as [t|]; [|discriminate Hw].
  apply andb_true_iff in Hw as [_ Hw].
  destruct (parseDate t) as [p|]; [|discriminate Hw].
  apply Z.ltb_lt in Hw. unfold cutoffOf, dayMs in *.
  split; [lia|]. apply Z.max_lub; [lia|].
  destruct (Z.le_gt_cases 0 (now env - p)) as [Hpos|Hneg].
  - rewrite Z.quot_div_nonneg by lia.
    apply Z.lt_le_incl, Z.div_lt_upper_bound; lia.
  - pose proof (Z.quot_opp_l (p - now env) 86400000 ltac:(lia)) as Hq.
    replace (- (p - now env)) with (now env - p) in Hq by lia.
    pose proof (Z.quot_pos (p - now env) 86400000 ltac:(lia) ltac:(lia)).
    lia.
Qed.

(** X12.  Once the cache holds only bundles that the handler built (as it
    does from the start, when it is empty), it keeps doing so, and every
    video record of a response is well formed: its age is at least one
    day and at most the [days] of the request, its duration is not
    negative, its views per day lie between 0 and its views when these
    are not negative, its hook tag is the classifier's tag of its title,
    and its URL is the watch address of its video id. *)
Theorem response_rows_wellformed (fuel : nat) (env : Env) (raw : Body)
    (s s' : State) (r : V2Response) :
  cacheBuilt (cache s) ->
  POST fuel env raw s = (Some (OkResponse r), s') ->
  cacheBuilt (cache s')
  /\ forall row, In row (res_rows r) ->
       1 <= r_ageDays row <= res_days r
       /\ 0 <= r_durationSec row
       /\ (0 <= r_views row -> 0 <= r_viewsPerDay row <= r_views row)
       /\ r_hookTag row = classifyHook (orEmpty (r_title row))
       /\ r_url row = lit "https://www.youtube.com/watch?v=" ++ r_videoId row.
Proof.
  intros Hs H. apply POST_ok in H as (_ & body & bs & Hbody & Hrun & ->).
  destruct (run_built _ _ _ _ _ _ _ Hs Hrun) as [Hs' Hbs].
  split; [exact Hs'|]. intros row Hrow.
  cbn [respond res_rows res_days] in *.
  apply in_flat_map in Hrow as (b & Hb & Hrow).
  destruct (Hbs b Hb) as (env' & ch & videos & ->).
  apply BodySchema_parse_inputs in Hbody as (_ & Hd & _).
  apply (buildBundle_row env' (p_days body) ch videos); [lia | exact Hrow].
Qed.

(** ** Requests that fail *)

Lemma messageOrError_nonempty (e : str) : messageOrError e <> [].
Proof.
  unfold messageOrError. destruct e as [|c e]; cbn [truthy];
    [vm_compute|]; discriminate.
Qed.

(** X13.  An error response always carries a message that is not empty.
    Its status is 500 exactly when the API key is missing, and then
    neither the cache nor the provider is touched; otherwise it is 400.
    A body that validation rejects is answered with 400 in the same way,
    cache and provider untouched. *)
Theorem POST_error_status (fuel : nat) (env : Env) (raw : Body) (s : State) :
  (forall st e s',
      POST fuel env raw s = (Some (ErrorResponse st e), s') ->
      e <> []
      /\ (st = 500 /\ falsy (YT_API_KEY env) = true /\ s' = s
          \/ st = 400 /\ falsy (YT_API_KEY env) = false))
  /\ (falsy (YT_API_KEY env) = true ->
      exists e, POST fuel env raw s = (Some (ErrorResponse 500 e), s))
  /\ (falsy (YT_API_KEY env) = false -> BodySchema_parse raw = None ->
      POST fuel env raw s
      = (Some (ErrorResponse 400 (messageOrError zodMessage)), s)).
Proof.
  unfold POST. split; [|split].
  - intros st e s'. destruct (falsy (YT_API_KEY env)).
    + intros [= <- <- <-]. split; [vm_compute; discriminate | now left].
    + destruct (handle fuel env raw s) as [[payload|m|] s1];
        [discriminate | | discriminate].
      intros [= <- <- <-]. split; [apply messageOrError_nonempty | now right].
  - intros ->. eauto.
  - intros -> Hb. unfold handle, parseBody. rewrite Hb. reflexivity.
Qed.

Lemma bundleOf_refused (fuel : nat) (env : Env) (body : Parsed)
    (cutoff : Z) (x : str) (s : State) (e : str) :
  uncached env body s x ->
  resolveChannel env (parseChannelInput x)
    {| cache := remove (cacheKey (parseChannelInput x) body) (cache s);
       calls := calls s |}
  = (Throw e,
     {| cache := remove (cacheKey (parseChannelInput x) body) (cache s);
        calls := S (calls s) |}) \/
  (exists ch,
      resolveChannel env (parseChannelInput x)
        {| cache := remove (cacheKey (parseChannelInput x) body) (cache s);
           calls := calls s |}
      = (Ret ch,
         {| cache := remove (cacheKey (parseChannelInput x) body) (cache s);
            calls := S (calls s) |})
      /\ falsy (uploadsPlaylistId ch) = true
      /\ e = lit "Channel " ++ interpolate (title ch)
               ++ lit " không có uploads playlist") ->
  bundleOf fuel env body cutoff x s
  = (Throw e,
     {| cache := remove (cacheKey (parseChannelInput x) body) (cache s);
        calls := S (calls s) |}).
Proof.
  intros Hx Hres.
  set (key := cacheKey (parseChannelInput x) body) in *.
  assert (Hget : cache_get env key s
                 = (Ret None, {| cache := remove key (cache s);
                                 calls := calls s |})).
  { unfold cache_get, LRUCache.get.
    unfold uncached, expired, entryOf in Hx. fold key in Hx.
    destruct Hx as [Hx | (e0 & Hx & Hexp)]; rewrite Hx.
    - now rewrite (remove_absent key (cache s) Hx).
    - unfold LRUCache.isStale.
      destruct (Z.ltb_spec cache_ttl (now env - LRUCache.e_start e0));
        [reflexivity | lia]. }
  unfold bundleOf. fold key. unfold bind at 1. rewrite Hget.
  unfold fetchBundle, bind at 1.
  destruct Hres as [Hres | (ch & Hres & Hup & ->)]; rewrite Hres;
    [reflexivity|].
  now rewrite Hup.
Qed.

(** X14.  When the provider refuses the request for the channel of an
    input, or returns a channel that has no uploads playlist, the request
    ends there with status 400: the message is the provider's (or Error
    if that is empty), respectively names the channel's title; one request
    has gone to the provider for this input, and no bundle is stored for
    it. *)
Theorem channel_errors_reported (fuel : nat) (env : Env) (raw : Body)
    (body : Parsed) (s s1 : State) (pre post : list str) (x : str)
    (bs : list Bundle) :
  falsy (YT_API_KEY env) = false ->
  BodySchema_parse raw = Some body ->
  p_inputs body = pre ++ x :: post ->
  runInputs fuel env body (cutoffOf env (p_days body)) pre s bs s1 ->
  uncached env body s1 x ->
  let key := cacheKey (parseChannelInput x) body in
  let s2 := {| cache := remove key (cache s1); calls := S (calls s1) |} in
  (forall e,
      up_channels (upstream env) (parseChannelInput x) = inl e ->
      POST fuel env raw s
      = (Some (ErrorResponse 400 (messageOrError e)), s2))
  /\ (forall ci rest,
        up_channels (upstream env) (parseChannelInput x) = inr (ci :: rest) ->
        falsy (ci_uploads ci) = true ->
        POST fuel env raw s
        = (Some (ErrorResponse 400
                   (lit "Channel " ++ interpolate (ci_title ci)
                      ++ lit " không có uploads playlist")), s2))
  /\ peek key (cache s2) = None.
Proof.
  intros Hkey Hbody Hinputs Hrun Hx key s2.
  assert (HP : forall e,
             bundleOf fuel env body (cutoffOf env (p_days body)) x s1
             = (Throw e, s2) ->
             POST fuel env raw s
             = (Some (ErrorResponse 400 (messageOrError e)), s2)).
  { intros e Hthrow. unfold POST, handle, parseBody. rewrite Hkey, Hbody.
    unfold bind at 1. unfold ret at 1. unfold bind at 1.
    rewrite Hinputs.
    now rewrite (forEach_throw fuel env body _ pre post x ([], []) s s1 s2 bs _
                   Hrun Hthrow). }
  split; [|split].
  - intros e Hup. apply HP. apply bundleOf_refused; [exact Hx|]. left.
    unfold resolveChannel, bind, ytGET. now rewrite Hup.
  - intros ci rest Hup Hno.
    set (m := lit "Channel " ++ interpolate (ci_title ci)
                ++ lit " không có uploads playlist").
    replace m with (messageOrError m).
    + apply HP. apply bundleOf_refused; [exact Hx|]. right.
      eexists. split; [|split].
      * unfold resolveChannel, bind, ytGET. rewrite Hup. reflexivity.
      * exact Hno.
      * reflexivity.
    + apply messageOrError_id. unfold m.
      destruct (lit "Channel ") eqn:E; [vm_compute in E|]; discriminate.
  - unfold s2. cbn [cache]. apply peek_None_keys. rewrite remove_keys. tauto.
Qed.

(** ** The summaries of the channels *)

Lemma sumZ_perm (l l' : list Z) : Permutation l l' -> sumZ l = sumZ l'.
Proof.
  unfold sumZ. induction 1; cbn [fold_right]; lia.
Qed.

Lemma sumZ_app (l l' : list Z) : sumZ (l ++ l') = sumZ l + sumZ l'.
Proof.
  unfold sumZ. induction l as [|x l IH]; cbn [app fold_right]; lia.
Qed.

Lemma groupPush_total (r : Row) (m : list (str * list Row)) :
  sumZ (map (fun e => Z.of_nat (List.length (snd e))) (groupPush r m))
  = sumZ (map (fun e => Z.of_nat (List.length (snd e))) m) + 1.
Proof.
  unfold sumZ. induction m as [|[c arr] m IH]; cbn [groupPush].
  - cbn [map fold_right snd List.length]. lia.
  - destruct (str_eqb c (r_channelId r)); cbn [map fold_right snd].
    + rewrite length_app. cbn [List.length]. lia.
    + rewrite IH. lia.
Qed.

Lemma groupPush_nonempty (r : Row) (m : list (str * list Row)) :
  (forall e, In e m -> snd e <> []) ->
  forall e, In e (groupPush r m) -> snd e <> [].
Proof.
  induction m as [|[c arr] m IH]; intros Hm e; cbn [groupPush].
  - intros [<- | []]. discriminate.
  - destruct (str_eqb c (r_channelId r)).
    + intros [<- | He]; [|apply Hm; now right].
      cbn [snd]. intros H. now apply app_eq_nil in H as [_ H].
    + intros [<- | He]; [apply Hm; now left|].
      apply IH; [|exact He]. intros e' He'. apply Hm. now right.
Qed.

Lemma byChannel_total (rows : list Row) :
  (forall e, In e (byChannel rows) -> snd e <> [])
  /\ sumZ (map (fun e => Z.of_nat (List.length (snd e))) (byChannel rows))
     = Z.of_nat (List.length rows).
Proof.
  unfold byChannel.
  assert (H : forall m,
             (forall e, In e m -> snd e <> []) ->
             (forall e, In e (fold_left (fun m r => groupPush r m) rows m) ->
                        snd e <> [])
             /\ sumZ (map (fun e => Z.of_nat (List.length (snd e)))
                        (fold_left (fun m r => groupPush r m) rows m))
                = sumZ (map (fun e => Z.of_nat (List.length (snd e))) m)
                  + Z.of_nat (List.length rows)).
  { induction rows as [|r rows IH]; intros m Hm; cbn [fold_left].
    - split; [exact Hm | cbn [List.length]; lia].
    - destruct (IH (groupPush r m) (groupPush_nonempty r m Hm)) as [H1 H2].
      split; [exact H1|]. rewrite H2, groupPush_total.
      cbn [List.length]. lia. }
  destruct (H [] (fun e (He : In e []) => match He with end)) as [H1 H2].
  split; [exact H1 | rewrite H2; reflexivity].
Qed.

Lemma summarize_fields (e : str * list Row) :
  s_channelId (summarize e) = fst e
  /\ s_videosInWindow (summarize e) = Z.of_nat (List.length (snd e))
  /\ s_hookMix (summarize e) = hookMixOf (snd e).
Proof. destruct e as [c g]. repeat split. Qed.

Lemma channelSummary_perm (allRows : list Row) :
  Permutation (channelSummary allRows) (map summarize (byChannel allRows)).
Proof. apply sortBy_perm. Qed.

(** X15.  The summaries are listed by average velocity, the highest
    first; there is exactly one summary for each channel that has a row,
    each counts at least one video, and together they count every row
    once. *)
Theorem channelSummary_structure (allRows : list Row) :
  let sums := channelSummary allRows in
  StronglySorted (fun a b => s_avgVelocity b <= s_avgVelocity a) sums
  /\ NoDup (map s_channelId sums)
  /\ (forall c, In c (map s_channelId sums)
                <-> exists r, In r allRows /\ r_channelId r = c)
  /\ (forall sm, In sm sums -> 1 <= s_videosInWindow sm)
  /\ sumZ (map s_videosInWindow sums) = Z.of_nat (List.length allRows).
Proof.
  intros sums. pose proof (channelSummary_perm allRows) as Hperm. fold sums in Hperm.
  destruct (byChannel_spec allRows) as (Hnd & _ & Hkeys).
  destruct (byChannel_total allRows) as [Hne Htot].
  assert (Hids : map s_channelId (map summarize (byChannel allRows))
                 = map fst (byChannel allRows)).
  { rewrite map_map. apply map_ext. intros e. apply summarize_fields. }
  assert (Hcnt : map s_videosInWindow (map summarize (byChannel allRows))
                 = map (fun e => Z.of_nat (List.length (snd e)))
                     (byChannel allRows)).
  { rewrite map_map. apply map_ext. intros e. apply summarize_fields. }
  split; [|split; [|split; [|split]]].
  - unfold sums, channelSummary.
    apply (sortBy_sorted s_avgVelocity).
  - apply (Permutation_NoDup (Permutation_sym
             (Permutation_map s_channelId Hperm))).
    now rewrite Hids.
  - intros c. rewrite <- Hkeys, <- Hids. split; apply Permutation_in.
    + apply Permutation_map, Hperm.
    + apply Permutation_sym, Permutation_map, Hperm.
  - intros sm Hsm. apply (Permutation_in _ Hperm) in Hsm.
    apply in_map_iff in Hsm as (e & <- & He).
    destruct (summarize_fields e) as (_ & -> & _).
    specialize (Hne e He). destruct (snd e); [congruence|].
    cbn [List.length]. lia.
  - rewrite (sumZ_perm _ _ (Permutation_map s_videosInWindow Hperm)).
    now rewrite Hcnt.
Qed.

(** *** The mix of hooks *)

Lemma firstRule_In (t : str) (rs : list Rule) (tg : str) :
  firstRule t rs = Some tg -> In tg (map tag rs).
Proof.
  induction rs as [|r rs IH]; cbn [firstRule map In]; [discriminate|].
  destruct (includes t (k r)); [intros [= <-]; now left | auto].
Qed.

Lemma classifyHook_hookTags (t : str) : In (classifyHook t) hookTags.
Proof.
  unfold classifyHook, hookTags. apply in_or_app.
  destruct (firstRule (cleanTitle (Some t)) rules) as [tg|] eqn:E.
  - left. now apply firstRule_In in E.
  - right. now left.
Qed.

Lemma bump_total (key : str) (m : Freq) :
  sumZ (map snd (bump key m)) = sumZ (map snd m) + 1.
Proof.
  unfold sumZ. induction m as [|[k' c] m IH]; cbn [bump map fold_right snd];
    [lia|].
  destruct (str_eqb k' key); cbn [map fold_right snd]; lia.
Qed.

Lemma hooksOf_total (g : list Row) :
  sumZ (map snd (hooksOf g)) = Z.of_nat (List.length g)
  /\ (forall e, In e (hooksOf g) -> 1 <= snd e)
  /\ (forall t, In t (map fst (hooksOf g)) ->
                exists r, In r g /\ r_hookTag r = t).
Proof.
  unfold hooksOf.
  assert (H : forall m,
             let m' := fold_left (fun m r => bump (r_hookTag r) m) g m in
             sumZ (map snd m') = sumZ (map snd m) + Z.of_nat (List.length g)
             /\ ((forall e, In e m -> 1 <= snd e) ->
                 forall e, In e m' -> 1 <= snd e)
             /\ (forall t, In t (map fst m') ->
                           In t (map fst m)
                           \/ exists r, In r g /\ r_hookTag r = t)).
  { induction g as [|r g IH]; intros m; cbn [fold_left].
    - split; [cbn [List.length]; lia|]. split; auto.
    - destruct (IH (bump (r_hookTag r) m)) as (H1 & H2 & H3).
      split; [|split].
      + rewrite H1, bump_total. cbn [List.length]. lia.
      + intros Hm. apply H2. now apply bump_counts.
      + intros t Ht. apply H3 in Ht as [Ht | (r' & Hr' & Ht)].
        * apply bump_keys in Ht as [-> | Ht]; [|now left].
          right. exists r. split; [now left | reflexivity].
        * right. exists r'. split; [now right | exact Ht]. }
  destruct (H []) as (H1 & H2 & H3). split; [|split].
  - rewrite H1. reflexivity.
  - apply H2. intros e [].
  - intros t Ht. apply H3 in Ht as [[] | Ht]. exact Ht.
Qed.

(** X16.  The mix of hooks of a summary lists different tags, the more
    frequent first, each with a count of at least 1, and it lists at most
    eight of them.  When the tags of the rows are those of the
    classifier, which knows eight tags, none is cut off: the counts of
    the mix add up to the number of videos of the summary. *)
Theorem hookMix_complete (allRows : list Row) (sm : ChannelSummary) :
  In sm (channelSummary allRows) ->
  ((List.length (s_hookMix sm) <= 8)%nat
   /\ NoDup (map hm_tag (s_hookMix sm))
   /\ StronglySorted (fun a b => hm_count b <= hm_count a) (s_hookMix sm)
   /\ forall h, In h (s_hookMix sm) -> 1 <= hm_count h)
  /\ ((forall r, In r allRows ->
         r_hookTag r = classifyHook (orEmpty (r_title r))) ->
      sumZ (map hm_count (s_hookMix sm)) = s_videosInWindow sm).
Proof.
  intros Hsm. apply (Permutation_in _ (channelSummary_perm allRows)) in Hsm.
  apply in_map_iff in Hsm as ([c g] & <- & He).
  destruct (byChannel_spec allRows) as (Hnd & Hgroups & _).
  assert (Hg : g = rowsOfChannel c allRows).
  { rewrite <- Hgroups. symmetry. now apply groupOf_In. }
  cbn [summarize s_hookMix s_videosInWindow]. unfold hookMixOf.
  destruct (hooksOf_spec g) as [Hkeys _].
  destruct (hooksOf_total g) as (Htot & Hpos & Htags).
  set (sorted := sortBy byCountDesc (hooksOf g)).
  assert (Hperm : Permutation sorted (hooksOf g)) by apply sortBy_perm.
  assert (Hmt : forall l : list (str * Z),
             map hm_tag (map (fun e => {| hm_tag := fst e; hm_count := snd e |}) l)
             = map fst l)
    by (intros l; rewrite map_map; now apply map_ext).
  assert (Hmc : forall l : list (str * Z),
             map hm_count (map (fun e => {| hm_tag := fst e; hm_count := snd e |}) l)
             = map snd l)
    by (intros l; rewrite map_map; now apply map_ext).
  split; [split; [|split; [|split]]|].
  - rewrite length_map, length_firstn. lia.
  - rewrite Hmt. change (map fst (firstn 8 sorted))
      with (map (@fst str Z) (firstn 8 sorted)).
    rewrite <- firstn_map. apply NoDup_firstn.
    apply (Permutation_NoDup (Permutation_sym (Permutation_map fst Hperm))).
    exact Hkeys.
  - apply StronglySorted_map. cbn [hm_count].
    apply StronglySorted_firstn. apply (sortBy_sorted (@snd str Z)).
  - intros h Hh. apply in_map_iff in Hh as (e & <- & Hin). cbn [hm_count].
    apply In_firstn in Hin. apply (Permutation_in _ Hperm) in Hin.
    now apply Hpos.
  - intros Hcls. rewrite Hmc.
    assert (Hlen : (List.length (hooksOf g) <= 8)%nat).
    { rewrite <- (length_map fst).
      change 8%nat with (List.length hookTags).
      apply NoDup_incl_length; [exact Hkeys|].
      intros t Ht. apply Htags in Ht as (r & Hr & <-).
      rewrite Hg in Hr. apply filter_In in Hr as [Hr _].
      rewrite (Hcls r Hr). apply classifyHook_hookTags. }
    rewrite firstn_all2 by (unfold sorted; now rewrite length_sortBy).
    rewrite (sumZ_perm _ _ (Permutation_map snd Hperm)). exact Htot.
Qed.

(** ** The page *)







(** *** Export *)

Lemma readQuoted_doubleQuotes (t rest : str) :
  hd 0%N rest <> dquote ->
  readQuoted (doubleQuotes t ++ dquote :: rest) = Some (t, rest).
Proof.
  intros Hrest. induction t as [|c t IH].
  - cbn [doubleQuotes app readQuoted]. rewrite N.eqb_refl.
    destruct rest as [|d rest]; [reflexivity|].
    cbn [hd] in Hrest. apply N.eqb_neq in Hrest. now rewrite Hrest.
  - cbn [doubleQuotes]. destruct (N.eqb_spec c dquote) as [->|Hc].
    + cbn [app readQuoted]. rewrite N.eqb_refl. now rewrite IH.
    + cbn [app readQuoted]. apply N.eqb_neq in Hc. rewrite Hc. now rewrite IH.
Qed.

Lemma csvLine_cons (v : str) (vs : list str) :
  csvLine (v :: vs)
  = dquote :: doubleQuotes v
      ++ dquote :: match vs with
                   | [] => []
                   | _ :: _ => chr "," :: csvLine vs
                   end.
Proof.
  unfold csvLine, csvField. destruct vs as [|v' vs]; cbn [map join app];
    rewrite <- ?app_assoc; reflexivity.
Qed.

(** X18.  A line of the export reads back as the values it was written
    from, whatever they contain: commas, line breaks and quotation marks
    inside a value do not break the line. *)
Theorem csvLine_roundtrip (values : list str) (fuel : nat) :
  values <> [] -> (List.length values <= fuel)%nat ->
  readLine fuel (csvLine values) = Some values.
Proof.
  revert fuel. induction values as [|v vs IH]; intros fuel Hne Hfuel;
    [congruence|].
  destruct fuel as [|fuel]; [cbn [List.length] in Hfuel; lia|].
  rewrite csvLine_cons. cbn [readLine]. rewrite N.eqb_refl.
  destruct vs as [|v' vs].
  - rewrite readQuoted_doubleQuotes by (cbn [hd]; discriminate). reflexivity.
  - rewrite readQuoted_doubleQuotes by (cbn [hd]; discriminate).
    rewrite N.eqb_refl.
    rewrite IH; [reflexivity | discriminate | cbn [List.length] in *; lia].
Qed.

(** *** The request *)

Lemma trim_idempotent (s : str) : trim (trim s) = trim s.
Proof. destruct (trim_ends s). now apply trim_fixed. Qed.

Lemma pageInputs_spec (inputsText : str) :
  (List.length (pageInputs inputsText) <= 10)%nat
  /\ forall x, In x (pageInputs inputsText) ->
       x <> [] /\ trim x = x /\ ~ In 10%N x.
Proof.
  unfold pageInputs. split; [rewrite length_firstn; lia|].
  intros x Hx. apply In_firstn in Hx. apply filter_In in Hx as [Hx Ht].
  apply in_map_iff in Hx as (line & <- & Hline).
  split; [|split].
  - intros E. rewrite E in Ht. discriminate Ht.
  - apply trim_idempotent.
  - intros Hin. apply split_no_sep in Hline. apply Hline.
    destruct (trim_occursIn line) as (pre & post & ->).
    apply in_or_app. right. apply in_or_app. now left.
Qed.

(** X19.  Every request that the page can send passes the validation of
    the handler: with one of the offered values for the days and for the
    number of videos and with at least one line that is not blank, the
    body is accepted as it is; the inputs are at most ten, trimmed and
    not empty.  With no such line the body would be rejected, and there
    the page disables its button. *)
Theorem pageBody_accepted (inputsText : str) (d mv : Z) :
  In d daysOptions -> In mv maxVideosOptions ->
  (pageInputs inputsText <> [] ->
   BodySchema_parse (pageBody inputsText d mv)
   = Some {| p_inputs := pageInputs inputsText;
             p_days := d; p_maxVideos := mv |})
  /\ (pageInputs inputsText = [] ->
      BodySchema_parse (pageBody inputsText d mv) = None)
  /\ (List.length (pageInputs inputsText) <= 10)%nat
  /\ forall x, In x (pageInputs inputsText) -> x <> [] /\ trim x = x.
Proof.
  intros Hd Hmv. destruct (pageInputs_spec inputsText) as [Hlen Hall].
  split; [|split; [|split; [exact Hlen | intros x Hx; split; now apply Hall]]].
  - intros Hne. unfold BodySchema_parse, pageBody.
    cbn [inputs days maxVideos withDefault].
    assert (H1 : forallb (fun s => 1 <=? strlen s) (pageInputs inputsText)
                 = true).
    { apply forallb_forall. intros x Hx. apply Hall in Hx as [Hx _].
      apply Z.leb_le. unfold strlen. destruct x; [congruence|].
      cbn [List.length]. lia. }
    assert (H2 : (1 <=? Z.of_nat (List.length (pageInputs inputsText))) = true).
    { apply Z.leb_le. destruct (pageInputs inputsText); [congruence|].
      cbn [List.length]. lia. }
    assert (H3 : (Z.of_nat (List.length (pageInputs inputsText)) <=? 10) = true)
      by (apply Z.leb_le; lia).
    rewrite H1, H2, H3.
    assert (H4 : ((7 <=? d) && (d <=? 365)) = true).
    { unfold daysOptions in Hd. cbn [In] in Hd.
      destruct Hd as [<-|[<-|[<-|[<-|[]]]]]; reflexivity. }
    assert (H5 : ((10 <=? mv) && (mv <=? 200)) = true).
    { unfold maxVideosOptions in Hmv. cbn [In] in Hmv.
      destruct Hmv as [<-|[<-|[<-|[<-|[<-|[]]]]]]; reflexivity. }
    apply andb_true_iff in H4 as [-> ->]. apply andb_true_iff in H5 as [-> ->].
    reflexivity.
  - intros E. unfold BodySchema_parse, pageBody.
    cbn [inputs days maxVideos withDefault]. rewrite E. reflexivity.
Qed.

(** *** The table *)


(** ** The first route *)

(** X21.  The rows of the first route are sorted by views per day, the
    highest first, and each is the row of a video that the provider
    returned.  A dated video is kept exactly when its date parses and is
    strictly after the cutoff; a video without a date counts as published
    at the present instant, so it is kept exactly when [days] is
    positive. *)
Theorem v1_rows_window (env : Env) (days : Z) (videos : list VideoItem) :
  let rows := V1.rowsOf env days videos in
  StronglySorted (fun a b => V1.w_viewsPerDay b <= V1.w_viewsPerDay a) rows
  /\ (forall r, In r rows -> exists v, In v videos /\ r = V1.toRow env v)
  /\ (forall v, In v videos ->
        (In (V1.toRow env v) rows <->
         match v_publishedAt v with
         | None => 0 < days
         | Some t => exists p, parseDate t = Some p /\ cutoffOf env days < p
         end)).
Proof.
  intros rows. unfold rows, V1.rowsOf. split; [|split].
  - apply (sortBy_sorted V1.w_viewsPerDay).
  - intros r Hr. apply In_sortBy in Hr. apply filter_In in Hr as [Hr _].
    apply in_map_iff in Hr as (v & <- & Hv). now exists v.
  - intros v Hv. rewrite In_sortBy, filter_In.
    unfold V1.inWindow. cbn [V1.toRow V1.w_publishedAt].
    assert (Hin : In (V1.toRow env v) (map (V1.toRow env) videos))
      by (now apply in_map).
    destruct (v_publishedAt v) as [t|].
    + destruct (parseDate t) as [p|]; split.
      * intros [_ H]. apply Z.ltb_lt in H. now exists p.
      * intros (p' & [= <-] & H). split; [exact Hin | now apply Z.ltb_lt].
      * intros [_ H]. discriminate H.
      * intros (p' & H & _). discriminate H.
    + unfold cutoffOf, dayMs. rewrite Z.ltb_lt. split.
      * intros [_ H]. lia.
      * intros H. split; [exact Hin | lia].
Qed.

Lemma split_chars (sep : N) (s w : str) (c : N) :
  In w (split sep s) -> In c w -> In c s.
Proof.
  revert w. induction s as [|d s IH]; intros w; cbn [split].
  - intros [<- | []] [].
  - destruct (d =? sep)%N.
    + intros [<- | Hw]; [intros [] | intros Hc; right; now apply (IH w)].
    + destruct (split sep s) as [|w0 ws] eqn:E.
      * intros [<- | []] [<- | []]. now left.
      * intros [<- | Hw].
        -- intros [<- | Hc]; [now left | right].
           apply (IH w0); [now left | exact Hc].
        -- intros Hc. right. apply (IH w); [now right | exact Hc].
Qed.

Lemma v1_words_spec (t w : str) :
  In w (V1.words t) ->
  3 <= strlen w /\ V1.stop_has w = false
  /\ forall c, In c w -> isSpace c = false.
Proof.
  unfold V1.words. intros H.
  apply filter_In in H as [H Hw]. apply filter_In in H as [H _].
  apply andb_true_iff in Hw as [Hlen Hstop].
  apply Z.leb_le in Hlen. apply negb_true_iff in Hstop.
  split; [exact Hlen|]. split; [exact Hstop|].
  intros c Hc. destruct (isSpace c) eqn:Ec; [|reflexivity]. exfalso.
  pose proof (split_no_sep _ _ _ H) as Hno.
  pose proof (split_chars _ _ _ _ H Hc) as Hin.
  apply (spacedOnce_In false _ c (collapseSpaces_spacedOnce false _)) in Hin;
    [|exact Ec].
  subst c. now apply Hno.
Qed.

Lemma wordFreq_spec (titles : list str) :
  NoDup (map fst (V1.wordFreq titles))
  /\ (forall e, In e (V1.wordFreq titles) -> 1 <= snd e)
  /\ (forall w, In w (map fst (V1.wordFreq titles)) ->
                In w (v1AllWords titles))
  /\ (forall w, countOf w (V1.wordFreq titles)
                = Z.of_nat (List.length
                              (filter (str_eqb w) (v1AllWords titles)))).
Proof.
  unfold V1.wordFreq, v1AllWords.
  assert (Hinner : forall ws f,
             let f' := fold_left (fun f w => bump w f) ws f in
             (NoDup (map fst f) -> NoDup (map fst f'))
             /\ ((forall e, In e f -> 1 <= snd e) ->
                 forall e, In e f' -> 1 <= snd e)
             /\ (forall w, In w (map fst f') -> In w (map fst f) \/ In w ws)
             /\ (forall w, countOf w f'
                           = countOf w f
                             + Z.of_nat (List.length (filter (str_eqb w) ws)))).
  { induction ws as [|x ws IH]; intros f; cbn [fold_left].
    - repeat split; auto. intros w. cbn [filter List.length]. lia.
    - destruct (IH (bump x f)) as (H1 & H2 & H3 & H4).
      split; [|split; [|split]].
      + intros Hnd. now apply H1, bump_NoDup.
      + intros Hpos. apply H2. now apply bump_counts.
      + intros w Hw. apply H3 in Hw as [Hw | Hw]; [|right; now right].
        apply bump_keys in Hw as [-> | Hw]; [right; now left | now left].
      + intros w. rewrite H4, countOf_bump. cbn [filter].
        destruct (str_eqb x w) eqn:E.
        * apply str_eqb_eq in E. subst x. rewrite str_eqb_refl.
          cbn [List.length]. lia.
        * replace (str_eqb w x) with false; [lia|].
          symmetry. apply str_eqb_neq. apply str_eqb_neq in E. congruence. }
  assert (Houter : forall f,
             let f' := fold_left
                         (fun freq t =>
                            fold_left (fun f w => bump w f) (V1.words t) freq)
                         titles f in
             (NoDup (map fst f) -> NoDup (map fst f'))
             /\ ((forall e, In e f -> 1 <= snd e) ->
                 forall e, In e f' -> 1 <= snd e)
             /\ (forall w, In w (map fst f') ->
                           In w (map fst f) \/ In w (flat_map V1.words titles))
             /\ (forall w, countOf w f'
                           = countOf w f
                             + Z.of_nat
                                 (List.length
                                    (filter (str_eqb w)
                                       (flat_map V1.words titles))))).
  { induction titles as [|t titles IH]; intros f; cbn [fold_left flat_map].
    - repeat split; auto. intros w. cbn [filter List.length]. lia.
    - destruct (Hinner (V1.words t) f) as (I1 & I2 & I3 & I4).
      destruct (IH (fold_left (fun f w => bump w f) (V1.words t) f))
        as (H1 & H2 & H3 & H4).
      split; [|split; [|split]].
      + auto.
      + auto.
      + intros w Hw. apply H3 in Hw as [Hw | Hw].
        * apply I3 in Hw as [Hw | Hw]; [now left|].
          right. apply in_or_app. now left.
        * right. apply in_or_app. now right.
      + intros w. rewrite H4, I4, filter_app, length_app. lia. }
  destruct (Houter []) as (H1 & H2 & H3 & H4).
  split; [apply H1; constructor|]. split; [apply H2; intros e []|].
  split.
  - intros w Hw. apply H3 in Hw as [[] | Hw]. exact Hw.
  - intros w. rewrite H4. cbn [countOf]. lia.
Qed.

(** X22.  The first route returns at most 20 title words, the more
    frequent first, all different.  Each has at least three code units,
    holds no white space and is not a stopword, and its count is the
    number of times it occurs among the words kept of all the titles. *)
Theorem v1_title_patterns (titles : list str) :
  let ps := V1.extractTitlePatterns titles in
  (List.length ps <= 20)%nat
  /\ StronglySorted (fun a b => V1.wcount b <= V1.wcount a) ps
  /\ NoDup (map V1.word ps)
  /\ forall p, In p ps ->
       3 <= strlen (V1.word p)
       /\ V1.stop_has (V1.word p) = false
       /\ (forall c, In c (V1.word p) -> isSpace c = false)
       /\ 1 <= V1.wcount p
       /\ V1.wcount p
          = Z.of_nat (List.length
                        (filter (str_eqb (V1.word p)) (v1AllWords titles))).
Proof.
  intros ps. unfold ps, V1.extractTitlePatterns.
  destruct (wordFreq_spec titles) as (Hnd & Hpos & Hkeys & Hcount).
  set (sorted := sortBy byCountDesc (V1.wordFreq titles)).
  assert (Hperm : Permutation sorted (V1.wordFreq titles)) by apply sortBy_perm.
  split; [|split; [|split]].
  - rewrite length_map, length_firstn. lia.
  - apply StronglySorted_map. cbn [V1.wcount].
    apply StronglySorted_firstn. apply (sortBy_sorted (@snd str Z)).
  - rewrite map_map. cbn [V1.word].
    change (map (fun x : str * Z => fst x) (firstn 20 sorted))
      with (map (@fst str Z) (firstn 20 sorted)).
    rewrite <- firstn_map. apply NoDup_firstn.
    apply (Permutation_NoDup (Permutation_sym (Permutation_map fst Hperm))).
    exact Hnd.
  - intros p Hp. apply in_map_iff in Hp as ([w c] & <- & Hin).
    cbn [V1.word V1.wcount fst snd].
    apply In_firstn in Hin. apply (Permutation_in _ Hperm) in Hin.
    assert (Hw : In w (v1AllWords titles)).
    { apply Hkeys. apply in_map_iff. now exists (w, c). }
    unfold v1AllWords in Hw. apply in_flat_map in Hw as (t & _ & Hw).
    destruct (v1_words_spec t w Hw) as (H1 & H2 & H3).
    split; [exact H1|]. split; [exact H2|]. split; [exact H3|].
    split; [apply (Hpos (w, c) Hin)|].
    rewrite <- Hcount. symmetry. now apply countOf_In.
Qed.

(** X23.  A successful answer of the first route reports the number of
    its rows and, as top, their first ten, none of the others having more
    views per day than one of these; the days it reports are those of the
    body, 60 when the body gives none or 0.  Nothing is validated: with a
    negative [maxVideos] the answer is a successful one without rows.
    The route has asked the provider and has not touched the cache. *)
Theorem v1_response (fuel : nat) (env : Env) (raw : V1.Body)
    (s s' : State) (r : V1.Payload) :
  V1.POST fuel env raw s = (Some (V1.OkResponse r), s') ->
  cache s' = cache s
  /\ (calls s < calls s')%nat
  /\ V1.p_days r = V1.numberOr 60 (V1.q_days raw)
  /\ (exists videos, V1.p_rows r = V1.rowsOf env (V1.p_days r) videos)
  /\ V1.p_count r = Z.of_nat (List.length (V1.p_rows r))
  /\ V1.p_top r = firstn 10 (V1.p_rows r)
  /\ (forall x y, In x (V1.p_top r) -> In y (skipn 10 (V1.p_rows r)) ->
                  V1.w_viewsPerDay y <= V1.w_viewsPerDay x)
  /\ (V1.numberOr 50 (V1.q_maxVideos raw) < 0 -> V1.p_rows r = []).
Proof.
  unfold V1.POST. destruct (falsy (YT_API_KEY env)); [discriminate|].
  destruct (V1.handle fuel env raw s) as [[payload|e|] s1] eqn:E;
    try discriminate.
  intros [= <- <-]. unfold V1.handle in E.
  apply bind_inv in E as [(ch & s2 & H1 & E) | [(e & _ & [=]) | [_ [=]]]].
  assert (Hres : cache s2 = cache s /\ calls s2 = S (calls s)).
  { unfold V1.resolveChannel in H1.
    apply bind_inv in H1 as [(items & s0 & H0 & H1) | [(e & _ & [=]) | [_ [=]]]].
    apply ytGET_inv in H0 as (Hc & Hn & _).
    destruct items; [discriminate H1|]. injection H1 as _ <-. now split. }
  destruct Hres as [Hc2 Hn2].
  destruct (falsy (V1.c_uploadsPlaylistId ch)); [discriminate E|].
  apply bind_inv in E as [(ids & s3 & H3 & E) | [(e & _ & [=]) | [_ [=]]]].
  apply bind_inv in E as [(videos & s4 & H4 & E) | [(e & _ & [=]) | [_ [=]]]].
  injection E as <- <-.
  unfold listPlaylistVideos in H3.
  destruct (listPlaylistLoop_fetch fuel env
              (orEmpty (V1.c_uploadsPlaylistId ch))
              (V1.numberOr 50 (V1.q_maxVideos raw)) None []) as [Hm3 Hs3].
  pose proof (Hm3 _ _ _ H3) as Hn3. pose proof (Hs3 _ _ _ H3) as Hc3.
  unfold getVideosDetails in H4.
  destruct (getChunks_fetch env (chunks50 (List.length ids) ids) [])
    as [Hm4 Hs4].
  pose proof (Hm4 _ _ _ H4) as Hn4. pose proof (Hs4 _ _ _ H4) as Hc4.
  cbn [V1.respond V1.p_days V1.p_rows V1.p_count V1.p_top].
  split; [congruence|]. split; [lia|].
  split; [reflexivity|]. split; [now exists videos|].
  split; [reflexivity|]. split; [reflexivity|]. split.
  - intros x y Hx Hy.
    pose proof (sortBy_sorted V1.w_viewsPerDay
                  (filter (V1.inWindow env
                             (cutoffOf env (V1.numberOr 60 (V1.q_days raw))))
                     (map (V1.toRow env) videos))) as Hs.
    change (sortBy (fun a b => V1.w_viewsPerDay b - V1.w_viewsPerDay a)
              (filter (V1.inWindow env
                         (cutoffOf env (V1.numberOr 60 (V1.q_days raw))))
                 (map (V1.toRow env) videos)))
      with (V1.rowsOf env (V1.numberOr 60 (V1.q_days raw)) videos) in Hs.
    rewrite <- (firstn_skipn 10 (V1.rowsOf env _ videos)) in Hs.
    apply StronglySorted_app_cross in Hs as [_ Hs]. now apply Hs.
  - intros Hmv.
    assert (Hids : ids = []).
    { destruct fuel as [|fuel]; cbn [listPlaylistLoop] in H3;
        replace (Z.of_nat (List.length (@nil str))
                 <? V1.numberOr 50 (V1.q_maxVideos raw)) with false in H3
          by (symmetry; apply Z.ltb_ge; cbn [List.length]; lia);
        now injection H3 as <- _. }
    subst ids. cbn [List.length chunks50 getChunks] in H4.
    injection H4 as <- _. reflexivity.
Qed.

End MoreFacts.

(* ================================================================= *)
(** * The further properties at concrete inputs *)
(* ================================================================= *)

Lemma global_top_lists_witness :
  exists r s',
    demoPOST 0 ["@demoChannel"%string] emptyState = (Some (OkResponse r), s')
    /\ (List.length (res_globalTopByVelocity r) <= 20)%nat.
Proof.
  destruct (demoPOST 0 ["@demoChannel"%string] emptyState)
    as [[[st e|r]|] s'] eqn:E; try not_ok E.
  exists r, s'. split; [reflexivity|].
  destruct (global_top_lists (P := demoPlatform) 5 (demoEnv 0)
              (demoBody ["@demoChannel"%string]) emptyState s' r E)
    as [(rest & H & _) _].
  exact H.
Defined.

Lemma parseChannelInput_padding_witness :
  parseChannelInput (lit "  " ++ lit "@demoChannel" ++ lit " ")
  = parseChannelInput (lit "@demoChannel").
Proof.
  apply (parseChannelInput_padding (lit "  ") (lit "@demoChannel") (lit " ")
           (demoParsed [])); vm_compute; reflexivity.
Defined.


Lemma POST_answers_witness :
  exists resp s',
    POST (P := demoPlatform) 200 (demoEnv 0)
      (demoBody ["@demoChannel"%string]) emptyState = (Some resp, s').
Proof.
  apply (POST_answers (P := demoPlatform)); [|apply Nat.le_refl].
  intros playlistId n tok page [= <-]. reflexivity.
Defined.

Lemma listPlaylistVideos_endless_witness :
  listPlaylistVideos 7 endlessEnv (lit "UUdemo") 10 emptyState
  = (Diverge, {| cache := []; calls := 7 |}).
Proof.
  apply (listPlaylistVideos_endless 7 endlessEnv (lit "UUdemo") 10 emptyState);
    [|lia].
  intros n tok. eexists. split; [reflexivity|].
  repeat split; discriminate.
Defined.

Lemma getVideosDetails_batches_witness :
  getVideosDetails (demoEnv 0) (map lit ["v1"; "v2"]%string) emptyState
  = (Ret demoVideos, {| cache := []; calls := 1 |}).
Proof.
  pose proof (getVideosDetails_batches (demoEnv 0)
                (map lit ["v1"; "v2"]%string) (fun _ => demoVideos)
                emptyState) as H.
  cbv zeta in H. destruct H as (_ & _ & H); [intros c _; reflexivity|].
  rewrite H. vm_compute. reflexivity.
Defined.

Lemma getVideosDetails_failure_witness :
  getVideosDetails failingVideosEnv [lit "v1"] emptyState
  = (Throw (lit "quotaExceeded"), {| cache := []; calls := 1 |}).
Proof.
  apply (getVideosDetails_failure failingVideosEnv [lit "v1"] [] []
           [lit "v1"] (fun _ => []) (lit "quotaExceeded") emptyState).
  - reflexivity.
  - intros c' [].
  - reflexivity.
Defined.

Lemma cache_stays_bounded_witness :
  (List.length (cache demoState1) <= 500)%nat.
Proof.
  apply (cache_stays_bounded (P := demoPlatform) 5 (demoEnv 0)
           (demoBody ["@demoChannel"%string]) emptyState demoState1
           (fst (demoPOST 0 ["@demoChannel"%string] emptyState))).
  - split; [cbn [cache emptyState List.length]; unfold cache_max; lia
           | constructor].
  - apply surjective_pairing.
Defined.

Lemma response_rows_wellformed_witness :
  exists r s',
    demoPOST 0 ["@demoChannel"%string] emptyState = (Some (OkResponse r), s')
    /\ forall row, In row (res_rows r) -> 1 <= r_ageDays row <= res_days r.
Proof.
  destruct (demoPOST 0 ["@demoChannel"%string] emptyState)
    as [[[st e|r]|] s'] eqn:E; try not_ok E.
  exists r, s'. split; [reflexivity|]. intros row Hrow.
  destruct (response_rows_wellformed (P := demoPlatform) 5 (demoEnv 0)
              (demoBody ["@demoChannel"%string]) emptyState s' r
              (fun e (He : In e []) => match He with end) E)
    as [_ H].
  now apply H.
Defined.

Lemma channel_errors_reported_witness :
  POST (P := demoPlatform) 5 refusingEnv (demoBody ["@demoChannel"%string])
    emptyState
  = (Some (ErrorResponse 400 (lit "quotaExceeded")),
     {| cache := []; calls := 1 |}).
Proof.
  destruct (channel_errors_reported (P := demoPlatform) 5 refusingEnv
              (demoBody ["@demoChannel"%string])
              (demoParsed ["@demoChannel"%string]) emptyState emptyState
              [] [] (lit "@demoChannel") [] eq_refl eq_refl eq_refl
              (run_nil _ _ _ _ _) (or_introl eq_refl))
    as (H & _ & _).
  rewrite (H (lit "quotaExceeded") eq_refl). vm_compute. reflexivity.
Defined.

Lemma hookMix_complete_witness :
  exists sm,
    In sm (channelSummary (b_rows demoBundle))
    /\ (List.length (s_hookMix sm) <= 8)%nat.
Proof.
  destruct (channelSummary (b_rows demoBundle)) as [|sm l] eqn:E.
  { apply (f_equal (@List.length _)) in E. vm_compute in E. discriminate E. }
  exists sm. split; [now left|].
  apply (hookMix_complete (P := demoPlatform) (b_rows demoBundle) sm).
  rewrite E. now left.
Defined.


Lemma csvLine_roundtrip_witness :
  readLine 2 (csvLine [lit "a, b"; [dquote; 120%N; dquote]])
  = Some [lit "a, b"; [dquote; 120%N; dquote]].
Proof.
  apply (csvLine_roundtrip [lit "a, b"; [dquote; 120%N; dquote]] 2);
    [discriminate | apply Nat.le_refl].
Defined.

Lemma pageBody_accepted_witness :
  BodySchema_parse (pageBody (lit "@a" ++ 10%N :: lit " @b ") 60 80)
  = Some {| p_inputs := [lit "@a"; lit "@b"]; p_days := 60; p_maxVideos := 80 |}.
Proof.
  destruct (pageBody_accepted (lit "@a" ++ 10%N :: lit " @b ") 60 80)
    as [H _].
  - right. left. reflexivity.
  - right. right. left. reflexivity.
  - rewrite H; [vm_compute; reflexivity | vm_compute; discriminate].
Defined.

Lemma v1_response_witness :
  exists r s',
    V1.POST (P := demoPlatform) 5 (demoEnv 0)
      {| V1.q_input := Some (lit "@demoChannel");
         V1.q_days := Some 7;
         V1.q_maxVideos := None |} emptyState
    = (Some (V1.OkResponse r), s')
    /\ V1.p_count r = Z.of_nat (List.length (V1.p_rows r))
    /\ V1.p_days r = 7.
Proof.
  destruct (V1.POST (P := demoPlatform) 5 (demoEnv 0)
              {| V1.q_input := Some (lit "@demoChannel");
                 V1.q_days := Some 7;
                 V1.q_maxVideos := None |} emptyState)
    as [[[st e|r]|] s'] eqn:E;
    [vm_compute in E; discriminate E | | vm_compute in E; discriminate E].
  exists r, s'. split; [reflexivity|].
  destruct (v1_response (P := demoPlatform) 5 (demoEnv 0) _ emptyState s' r E)
    as (_ & _ & Hd & _ & Hc & _).
  split; [exact Hc | exact Hd].
Defined.

(** On the demo channel the first route keeps the video without a date,
    which the second route drops. *)
Example demo_v1_rows :
  map V1.w_videoId
    (V1.rowsOf (P := demoPlatform) (demoEnv 0) 7 demoVideos)
  = [lit "v2"; lit "v1"; lit "v5"].
Proof. vm_compute. reflexivity. Qed.
